(** * TinyExpr (C89 adaptation): tokenizer, parser, optimizer and evaluator

    A shallow embedding of [src/tinyexpr.c].  C [int]s are [Z], C [double]s
    are the kernel's binary64 floats, C strings are [string]s read through
    [deref] (the terminating NUL is the end of the string), and a pointer is
    either [NULL], the address of a C function the file names, or an address
    handed in by the caller.  Loops that C leaves unbounded carry a [fuel]
    counter.  [None] at the outermost [option] reads "the run has no result":
    the fuel ran out, or the program did what C gives no meaning to ([base]
    frees a pointer it never stored).  The termination lemmas show that the
    fuel the entry points hand out is never exhausted, so that a [None] from
    them is such a free.  Of the heap the model has the outcomes of the
    [malloc] calls to come; it keeps no account of what is freed. *)

From Stdlib Require Import ZArith List String Ascii Bool Arith Lia.
From Stdlib Require Import Sorting.Sorted Sorting.Permutation.
From Stdlib Require Import Structures.OrdersEx Classes.RelationClasses.
From Stdlib Require Import Floats.PrimFloat Floats.SpecFloat Floats.FloatOps.
From Stdlib Require Import Floats.FloatAxioms.
Import ListNotations.

Set Warnings "-register-all,-inexact-float".

(* ------------------------------------------------------------------------- *)
(** ** The option monad of the runs that have a result *)

Definition bind {A B : Type} (m : option A) (k : A -> option B) : option B :=
  match m with
  | Some a => k a
  | None => None
  end.

Notation "x <- m ;; k" := (bind m (fun x => k))
  (at level 61, m at next level, right associativity).
Notation "' pat <- m ;; k" := (bind m (fun x => match x with pat => k end))
  (at level 61, pat pattern, m at next level, right associativity).

(* ------------------------------------------------------------------------- *)
(** ** Type codes, token codes and the macros over them *)

(** Modelled from the spec: the header [tinyexpr.h] is not among the sources.
    It declares [te_expr], [te_variable] and the type codes below.  The spec
    fixes arities 0..7 and the closure and purity flags; the numeric layout is
    the one the masks of [tinyexpr.c] decode ([0x1F] for the kind, [0x7] for
    the arity, [TE_FUNCTION0] and [TE_CLOSURE0] as single bits, [TE_CONSTANT =
    1] next to [TE_VARIABLE]). *)
Definition TE_VARIABLE : Z := 0.
Definition TE_FUNCTION0 : Z := 8.
Definition TE_FUNCTION1 : Z := 9.
Definition TE_FUNCTION2 : Z := 10.
Definition TE_FUNCTION3 : Z := 11.
Definition TE_FUNCTION4 : Z := 12.
Definition TE_FUNCTION5 : Z := 13.
Definition TE_FUNCTION6 : Z := 14.
Definition TE_FUNCTION7 : Z := 15.
Definition TE_CLOSURE0 : Z := 16.
Definition TE_CLOSURE1 : Z := 17.
Definition TE_CLOSURE2 : Z := 18.
Definition TE_CLOSURE3 : Z := 19.
Definition TE_CLOSURE4 : Z := 20.
Definition TE_CLOSURE5 : Z := 21.
Definition TE_CLOSURE6 : Z := 22.
Definition TE_CLOSURE7 : Z := 23.
Definition TE_FLAG_PURE : Z := 32.

(** [enum { TOK_NULL = TE_CLOSURE7+1, TOK_ERROR, ... , TOK_INFIX }] *)
Definition TOK_NULL : Z := TE_CLOSURE7 + 1.
Definition TOK_ERROR : Z := TOK_NULL + 1.
Definition TOK_END : Z := TOK_NULL + 2.
Definition TOK_SEP : Z := TOK_NULL + 3.
Definition TOK_OPEN : Z := TOK_NULL + 4.
Definition TOK_CLOSE : Z := TOK_NULL + 5.
Definition TOK_NUMBER : Z := TOK_NULL + 6.
Definition TOK_VARIABLE : Z := TOK_NULL + 7.
Definition TOK_INFIX : Z := TOK_NULL + 8.

(** [enum {TE_CONSTANT = 1};] *)
Definition TE_CONSTANT : Z := 1.

Definition TYPE_MASK (t : Z) : Z := Z.land t 31.
Definition IS_PURE (t : Z) : bool := negb (Z.land t TE_FLAG_PURE =? 0)%Z.
Definition IS_FUNCTION (t : Z) : bool := negb (Z.land t TE_FUNCTION0 =? 0)%Z.
Definition IS_CLOSURE (t : Z) : bool := negb (Z.land t TE_CLOSURE0 =? 0)%Z.
Definition ARITY (t : Z) : Z :=
  if negb (Z.land t (Z.lor TE_FUNCTION0 TE_CLOSURE0) =? 0)%Z
  then Z.land t 7 else 0%Z.

(** The kind of a type code is a function of arity k ([TE_FUNCTION0 + k]). *)
Definition is_function_kind (m : Z) : bool :=
  ((TE_FUNCTION0 <=? m) && (m <=? TE_FUNCTION7))%Z.
Definition is_closure_kind (m : Z) : bool :=
  ((TE_CLOSURE0 <=? m) && (m <=? TE_CLOSURE7))%Z.

(* ------------------------------------------------------------------------- *)
(** ** Pointers, the union of a node, and the world outside the program *)

(** The C functions whose address [tinyexpr.c] takes: its own static
    functions and the ones of the math library. *)
Inductive cfun : Set :=
| Fpi | Fe | Ffac | Fncr | Fnpr
| Fadd | Fsub | Fmul | Fdivide | Fnegate | Fcomma
| Ffabs | Facos | Fasin | Fatan | Fatan2 | Fceil | Fcos | Fcosh | Fexp
| Ffloor | Flog | Flog10 | Fpow | Fsin | Fsinh | Fsqrt | Ftan | Ftanh | Ffmod.

Definition cfun_eqb (f g : cfun) : bool :=
  match f, g with
  | Fpi, Fpi | Fe, Fe | Ffac, Ffac | Fncr, Fncr | Fnpr, Fnpr
  | Fadd, Fadd | Fsub, Fsub | Fmul, Fmul | Fdivide, Fdivide
  | Fnegate, Fnegate | Fcomma, Fcomma
  | Ffabs, Ffabs | Facos, Facos | Fasin, Fasin | Fatan, Fatan
  | Fatan2, Fatan2 | Fceil, Fceil | Fcos, Fcos | Fcosh, Fcosh | Fexp, Fexp
  | Ffloor, Ffloor | Flog, Flog | Flog10, Flog10 | Fpow, Fpow | Fsin, Fsin
  | Fsinh, Fsinh | Fsqrt, Fsqrt | Ftan, Ftan | Ftanh, Ftanh
  | Ffmod, Ffmod => true
  | _, _ => false
  end.

(** A [void*]: null, the address of one of the functions above, or an address
    the caller supplied (of a [double], of a function or of a closure
    context). *)
Inductive pointer : Set :=
| NULL
| Cfun (f : cfun)
| Addr (a : nat).

Definition pointer_eqb (p q : pointer) : bool :=
  match p, q with
  | NULL, NULL => true
  | Cfun f, Cfun g => cfun_eqb f g
  | Addr a, Addr b => Nat.eqb a b
  | _, _ => false
  end.

(** [union {double value; const double *bound; const void *function;}].
    The member last stored is remembered; the program only reads that one on
    the trees and tokens it builds. *)
Inductive union : Set :=
| U_value (v : float)
| U_bound (p : pointer)
| U_function (p : pointer).

(** [NAN] of <math.h> (or [0.0/0.0]). *)
Definition NAN : float := nan.

(** Reading a member.  Reading a member that was not the one stored yields
    the bytes of the other member in C; the model gives [NAN], respectively
    [NULL], there. *)
Definition value (u : union) : float :=
  match u with U_value v => v | _ => NAN end.
Definition bound (u : union) : pointer :=
  match u with U_bound p => p | _ => NULL end.
Definition function (u : union) : pointer :=
  match u with U_function p => p | _ => NULL end.

(** What the program does not define itself: the [double]s behind caller
    addresses, the functions and closures behind caller addresses, the
    functions whose bodies are elsewhere (the math library; [fac], [ncr] and
    [npr], whose unsigned arithmetic depends on the platform's [UINT_MAX] and
    [ULONG_MAX], are left with them), and the largest [int] of the platform,
    [INT_MAX] of <limits.h>, which C puts at 32767 or more. *)
Record world : Type := World {
  mem : nat -> float;
  extern : cfun -> list float -> float;
  user_function : nat -> list float -> float;
  user_closure : nat -> pointer -> list float -> float;
  INT_MAX : Z;
  INT_MAX_least : (32767 <= INT_MAX)%Z
}.

(** The conversion of a [ptrdiff_t] that is not negative to [int]: the value
    itself when an [int] holds it.  Beyond [INT_MAX] the result is the
    implementation's to define; the compilers the file is written for reduce
    the value modulo [2^N], [N] the width of [int], as here. *)
Definition to_int (W : world) (d : Z) : Z :=
  if (d <=? INT_MAX W)%Z then d
  else ((d + INT_MAX W + 1) mod (2 * INT_MAX W + 2) - INT_MAX W - 1)%Z.

(* ------------------------------------------------------------------------- *)
(** ** C strings *)

Definition NUL : ascii := Ascii.zero.

(** [*p], [p + 1] and [p[i]] on a [const char *p]. *)
Definition deref (p : string) : ascii :=
  match p with
  | EmptyString => NUL
  | String c _ => c
  end.

Definition advance (p : string) : string :=
  match p with
  | EmptyString => EmptyString
  | String _ r => r
  end.

Fixpoint index (p : string) (i : nat) : ascii :=
  match i with
  | O => deref p
  | S j => index (advance p) j
  end.

(** [hi - lo] for two pointers into the same string, [lo] the earlier one. *)
Definition ptrdiff (hi lo : string) : nat := String.length lo - String.length hi.

Definition code (c : ascii) : Z := Z.of_N (N_of_ascii c).

Definition is_nul (c : ascii) : bool := Ascii.eqb c NUL.

(** <ctype.h> in the "C" locale. *)
Definition isdigit (c : ascii) : bool := ((48 <=? code c) && (code c <=? 57))%Z.
Definition isalpha (c : ascii) : bool :=
  (((65 <=? code c) && (code c <=? 90)) || ((97 <=? code c) && (code c <=? 122)))%Z.

(** [strncmp(a, b, n)]: the difference of the first pair of differing
    characters among the first [n], 0 when there is none before a NUL. *)
Fixpoint strncmp (a b : string) (n : nat) : Z :=
  match n with
  | O => 0%Z
  | S n' =>
      let ca := deref a in
      let cb := deref b in
      if negb (Ascii.eqb ca cb) then (code ca - code cb)%Z
      else if is_nul ca then 0%Z
      else strncmp (advance a) (advance b) n'
  end.

(* ------------------------------------------------------------------------- *)
(** ** [strtod] on the inputs the tokenizer gives it

    The tokenizer calls [strtod] only at a digit or a decimal point, so the
    subject sequence is a C89 decimal constant: digits with an optional point,
    then an optional exponent (the hexadecimal constants a C99 library also
    accepts there are outside the C89 function the file is written for).  The
    result is the nearest binary64 value; the second component is the end
    pointer.  With no digit at all nothing is converted: the value is zero
    and the end pointer is the argument. *)

Fixpoint span_digits (p : string) : list Z * string :=
  match p with
  | EmptyString => ([], p)
  | String c r =>
      if isdigit c then
        let '(ds, q) := span_digits r in ((code c - 48)%Z :: ds, q)
      else ([], p)
  end.

Definition decimal (ds : list Z) : Z :=
  fold_left (fun acc d => (10 * acc + d)%Z) ds 0%Z.

(** The binary64 value nearest to [m * 10^e10], for [m >= 0]. *)
Definition nearest_double (m e10 : Z) : float :=
  if (m <=? 0)%Z then 0%float
  else if (0 <=? e10)%Z then
    SF2Prim (binary_normalize prec emax (m * 10 ^ e10) 0 false)
  else
    SF2Prim (SFdiv prec emax (S754_finite false (Z.to_pos m) 0)
                   (S754_finite false (Z.to_pos (10 ^ (- e10))) 0)).

Definition strtod (p : string) : float * string :=
  let '(ip, p1) := span_digits p in
  let '(fp, p2) :=
    if Ascii.eqb (deref p1) "." then span_digits (advance p1) else ([], p1) in
  match ip ++ fp with
  | [] => (0%float, p)
  | ds =>
      let m := decimal ds in
      let frac := Z.of_nat (List.length fp) in
      let c := deref p2 in
      if Ascii.eqb c "e" || Ascii.eqb c "E" then
        let p3 := advance p2 in
        let neg := Ascii.eqb (deref p3) "-" in
        let p4 := if neg || Ascii.eqb (deref p3) "+" then advance p3 else p3 in
        match span_digits p4 with
        | ([], _) => (nearest_double m (- frac), p2)
        | (es, p5) =>
            let e := decimal es in
            (nearest_double m ((if neg then - e else e) - frac), p5)
        end
      else (nearest_double m (- frac), p2)
  end.

(* ------------------------------------------------------------------------- *)
(** ** Registration entries and the builtin table *)

(** [te_variable]: [{name, address, type, context}]. *)
Record te_variable : Set := Variable_ {
  v_name : string;
  v_address : pointer;
  v_type : Z;
  v_context : pointer
}.

Definition builtin (name : string) (f : cfun) (type : Z) : te_variable :=
  Variable_ name (Cfun f) type NULL.

(** [static const te_variable functions[]], default build ([TE_NAT_LOG] not
    defined, so ["log"] is [log10]).  The terminating [{0, 0, 0, 0}] row is
    not listed: the search below never reads it. *)
Definition functions : list te_variable :=
  [ builtin "abs" Ffabs (Z.lor TE_FUNCTION1 TE_FLAG_PURE);
    builtin "acos" Facos (Z.lor TE_FUNCTION1 TE_FLAG_PURE);
    builtin "asin" Fasin (Z.lor TE_FUNCTION1 TE_FLAG_PURE);
    builtin "atan" Fatan (Z.lor TE_FUNCTION1 TE_FLAG_PURE);
    builtin "atan2" Fatan2 (Z.lor TE_FUNCTION2 TE_FLAG_PURE);
    builtin "ceil" Fceil (Z.lor TE_FUNCTION1 TE_FLAG_PURE);
    builtin "cos" Fcos (Z.lor TE_FUNCTION1 TE_FLAG_PURE);
    builtin "cosh" Fcosh (Z.lor TE_FUNCTION1 TE_FLAG_PURE);
    builtin "e" Fe (Z.lor TE_FUNCTION0 TE_FLAG_PURE);
    builtin "exp" Fexp (Z.lor TE_FUNCTION1 TE_FLAG_PURE);
    builtin "fac" Ffac (Z.lor TE_FUNCTION1 TE_FLAG_PURE);
    builtin "floor" Ffloor (Z.lor TE_FUNCTION1 TE_FLAG_PURE);
    builtin "ln" Flog (Z.lor TE_FUNCTION1 TE_FLAG_PURE);
    builtin "log" Flog10 (Z.lor TE_FUNCTION1 TE_FLAG_PURE);
    builtin "log10" Flog10 (Z.lor TE_FUNCTION1 TE_FLAG_PURE);
    builtin "ncr" Fncr (Z.lor TE_FUNCTION2 TE_FLAG_PURE);
    builtin "npr" Fnpr (Z.lor TE_FUNCTION2 TE_FLAG_PURE);
    builtin "pi" Fpi (Z.lor TE_FUNCTION0 TE_FLAG_PURE);
    builtin "pow" Fpow (Z.lor TE_FUNCTION2 TE_FLAG_PURE);
    builtin "sin" Fsin (Z.lor TE_FUNCTION1 TE_FLAG_PURE);
    builtin "sinh" Fsinh (Z.lor TE_FUNCTION1 TE_FLAG_PURE);
    builtin "sqrt" Fsqrt (Z.lor TE_FUNCTION1 TE_FLAG_PURE);
    builtin "tan" Ftan (Z.lor TE_FUNCTION1 TE_FLAG_PURE);
    builtin "tanh" Ftanh (Z.lor TE_FUNCTION1 TE_FLAG_PURE) ].

(** [functions[i]]; the row past the real entries is the all-zero one. *)
Definition functions_at (i : Z) : te_variable :=
  nth (Z.to_nat i) functions (Variable_ EmptyString NULL 0 NULL).

(** The body of [find_builtin]'s [while (imax >= imin)]. *)
Fixpoint find_builtin_loop (fuel : nat) (name : string) (len : nat)
    (imin imax : Z) : option (option te_variable) :=
  if (imax >=? imin)%Z then
    match fuel with
    | O => None
    | S fuel' =>
        let i := (imin + Z.quot (imax - imin) 2)%Z in
        let c := strncmp name (v_name (functions_at i)) len in
        let c := if (c =? 0)%Z then (code NUL - code (index (v_name (functions_at i)) len))%Z
                 else c in
        if (c =? 0)%Z then Some (Some (functions_at i))
        else if (c >? 0)%Z then find_builtin_loop fuel' name len (i + 1) imax
        else find_builtin_loop fuel' name len imin (i - 1)
    end
  else Some None.

(** [find_builtin(name, len)]; [imax = sizeof(functions) / sizeof(te_variable)
    - 2] is the index of the last real entry.  One unit of fuel per entry is
    more than a bisection uses. *)
Definition find_builtin (name : string) (len : nat) : option (option te_variable) :=
  find_builtin_loop (List.length functions) name len 0
                    (Z.of_nat (List.length functions) + 1 - 2).

(** The [for] loop of [find_lookup]: [var] walks the caller's array, [iters]
    counts down from [lookup_len].  Walking past the array the caller handed
    in is outside C; the model finds nothing there. *)
Fixpoint find_lookup_loop (var : list te_variable) (iters : nat)
    (name : string) (len : nat) : option te_variable :=
  match iters with
  | O => None
  | S iters' =>
      match var with
      | [] => None
      | v :: var' =>
          if (strncmp name (v_name v) len =? 0)%Z && is_nul (index (v_name v) len)
          then Some v
          else find_lookup_loop var' iters' name len
      end
  end.

(* ------------------------------------------------------------------------- *)
(** ** The tokenizer state *)

(** [struct state].  [s_heap] is not a member of the C struct: it lists the
    outcomes of the [malloc] calls still to come ([true]: the call returns
    memory), and past its end every call succeeds. *)
Record state : Set := State {
  s_start : string;
  s_next : string;
  s_type : Z;
  s_u : union;
  s_context : pointer;
  s_lookup : option (list te_variable);
  s_lookup_len : nat;
  s_heap : list bool
}.

Definition set_next (s : state) (p : string) : state :=
  State (s_start s) p (s_type s) (s_u s) (s_context s) (s_lookup s)
        (s_lookup_len s) (s_heap s).
Definition set_type (s : state) (t : Z) : state :=
  State (s_start s) (s_next s) t (s_u s) (s_context s) (s_lookup s)
        (s_lookup_len s) (s_heap s).
Definition set_u (s : state) (u : union) : state :=
  State (s_start s) (s_next s) (s_type s) u (s_context s) (s_lookup s)
        (s_lookup_len s) (s_heap s).
Definition set_context (s : state) (c : pointer) : state :=
  State (s_start s) (s_next s) (s_type s) (s_u s) c (s_lookup s)
        (s_lookup_len s) (s_heap s).
Definition set_heap (s : state) (h : list bool) : state :=
  State (s_start s) (s_next s) (s_type s) (s_u s) (s_context s) (s_lookup s)
        (s_lookup_len s) h.

Definition find_lookup (s : state) (name : string) (len : nat) : option te_variable :=
  match s_lookup s with
  | None => None
  | Some var => find_lookup_loop var (s_lookup_len s) name len
  end.

(** [while (isalpha(s->next[0]) || isdigit(s->next[0]) || (s->next[0] == '_'))
    s->next++;] *)
Fixpoint scan_identifier (p : string) : string :=
  match p with
  | EmptyString => p
  | String c r =>
      if isalpha c || isdigit c || Ascii.eqb c "_" then scan_identifier r else p
  end.

(** The [switch (s->next++[0])] of [next_token]: the state after one operator
    or special character ([s_next] is already advanced). *)
Definition operator_token (c : ascii) (s : state) : state :=
  if Ascii.eqb c "+" then set_u (set_type s TOK_INFIX) (U_function (Cfun Fadd))
  else if Ascii.eqb c "-" then set_u (set_type s TOK_INFIX) (U_function (Cfun Fsub))
  else if Ascii.eqb c "*" then set_u (set_type s TOK_INFIX) (U_function (Cfun Fmul))
  else if Ascii.eqb c "/" then set_u (set_type s TOK_INFIX) (U_function (Cfun Fdivide))
  else if Ascii.eqb c "^" then set_u (set_type s TOK_INFIX) (U_function (Cfun Fpow))
  else if Ascii.eqb c "%" then set_u (set_type s TOK_INFIX) (U_function (Cfun Ffmod))
  else if Ascii.eqb c "(" then set_type s TOK_OPEN
  else if Ascii.eqb c ")" then set_type s TOK_CLOSE
  else if Ascii.eqb c "," then set_type s TOK_SEP
  else if Ascii.eqb c " " || Ascii.eqb c "009" || Ascii.eqb c "010" || Ascii.eqb c "013"
  then s
  else set_type s TOK_ERROR.

(** The [switch (TYPE_MASK(var->type))] of [next_token]. *)
Definition identifier_token (var : te_variable) (s : state) : state :=
  let m := TYPE_MASK (v_type var) in
  if (m =? TE_VARIABLE)%Z then
    set_u (set_type s TOK_VARIABLE) (U_bound (v_address var))
  else if is_closure_kind m then
    set_u (set_type (set_context s (v_context var)) (v_type var))
          (U_function (v_address var))
  else if is_function_kind m then
    set_u (set_type s (v_type var)) (U_function (v_address var))
  else s.

(** One pass through the body of [do { ... } while (s->type == TOK_NULL)];
    the flag says that the body executed [return]. *)
Definition next_token_body (s : state) : option (bool * state) :=
  let c := deref (s_next s) in
  if is_nul c then Some (true, set_type s TOK_END)
  else if isdigit c || Ascii.eqb c "." then
    let '(v, q) := strtod (s_next s) in
    Some (false, set_type (set_u (set_next s q) (U_value v)) TOK_NUMBER)
  else if isalpha c then
    let start := s_next s in
    let s1 := set_next s (scan_identifier (s_next s)) in
    let len := ptrdiff (s_next s1) start in
    var <- match find_lookup s1 start len with
           | Some v => Some (Some v)
           | None => find_builtin start len
           end ;;
    match var with
    | None => Some (false, set_type s1 TOK_ERROR)
    | Some v => Some (false, identifier_token v s1)
    end
  else Some (false, operator_token c (set_next s (advance (s_next s)))).

Fixpoint next_token_loop (fuel : nat) (s : state) : option state :=
  match fuel with
  | O => None
  | S fuel' =>
      '(returned, s1) <- next_token_body s ;;
      if returned then Some s1
      else if (s_type s1 =? TOK_NULL)%Z then next_token_loop fuel' s1
      else Some s1
  end.

(** [next_token(s)].  Every pass that does not leave the loop consumes a
    character, so one unit of fuel per remaining character and one more are
    enough. *)
Definition next_token (s : state) : option state :=
  next_token_loop (S (String.length (s_next s))) (set_type s TOK_NULL).

(* ------------------------------------------------------------------------- *)
(** ** Expression nodes *)

(** [te_expr]: the type code, the union, and the [parameters] array, whose
    first [ARITY(type)] slots are the children and whose next slot, in a
    closure node, is the context pointer. *)
Inductive te_expr : Set :=
| Expr (type : Z) (u : union) (parameters : list te_expr) (context : pointer).

Definition e_type (n : te_expr) : Z := let 'Expr t _ _ _ := n in t.
Definition e_u (n : te_expr) : union := let 'Expr _ u _ _ := n in u.
Definition e_parameters (n : te_expr) : list te_expr := let 'Expr _ _ ps _ := n in ps.
Definition e_context (n : te_expr) : pointer := let 'Expr _ _ _ c := n in c.

Definition set_e_u (n : te_expr) (u : union) : te_expr :=
  Expr (e_type n) u (e_parameters n) (e_context n).
Definition set_e_context (n : te_expr) (c : pointer) : te_expr :=
  Expr (e_type n) (e_u n) (e_parameters n) c.

(** [malloc]: the next recorded outcome. *)
Definition malloc (s : state) : bool * state :=
  match s_heap s with
  | [] => (true, s)
  | ok :: h => (ok, set_heap s h)
  end.

(** [new_expr(type, parameters)]: [NULL] when [malloc] fails; otherwise a
    zeroed node that holds the first [ARITY(type)] of the given parameters
    (none when the parameter array is null, written [[]]). *)
Definition new_expr (type : Z) (parameters : list te_expr) (s : state)
  : option te_expr * state :=
  let '(ok, s1) := malloc s in
  if ok then
    (Some (Expr type (U_bound NULL)
                (firstn (Z.to_nat (ARITY type)) parameters) NULL), s1)
  else (None, s1).

(* ------------------------------------------------------------------------- *)
(** ** The parser *)

(** What a production returns: the node, or [NULL], and the state it left. *)
Definition parsed : Set := (option te_expr * state)%type.
Definition parser : Set := state -> option parsed.

(** The loop conditions of [power]/[expr], [term], [factor] and [list]; each
    gives the callable the new node will carry when the loop goes on. *)
Definition is_infix (s : state) (fs : list cfun) : option pointer :=
  if (s_type s =? TOK_INFIX)%Z
     && existsb (fun f => pointer_eqb (function (s_u s)) (Cfun f)) fs
  then Some (function (s_u s)) else None.

Definition additive (s : state) : option pointer := is_infix s [Fadd; Fsub].
Definition multiplicative (s : state) : option pointer :=
  is_infix s [Fmul; Fdivide; Ffmod].
Definition exponent (s : state) : option pointer := is_infix s [Fpow].
Definition separator (s : state) : option pointer :=
  if (s_type s =? TOK_SEP)%Z then Some (Cfun Fcomma) else None.

(** The [while] loop that [factor], [term], [expr] and [list] share word for
    word: as long as the current token is one of the level's operators, read
    the next operand and make [ret] and it the two children of a new
    [TE_FUNCTION2 | TE_FLAG_PURE] node that carries the operator's function.
    A [NULL] operand or node ends the production with [NULL], once the trees
    at hand are freed. *)
Fixpoint binary_chain (continues : state -> option pointer) (operand : parser)
    (fuel : nat) (ret : te_expr) (s : state) : option parsed :=
  match continues s with
  | None => Some (Some ret, s)
  | Some t =>
      match fuel with
      | O => None
      | S fuel' =>
          s1 <- next_token s ;;
          '(p, s2) <- operand s1 ;;
          match p with
          | None => Some (None, s2)
          | Some p =>
              let '(r, s3) := new_expr (Z.lor TE_FUNCTION2 TE_FLAG_PURE) [ret; p] s2 in
              match r with
              | None => Some (None, s3)
              | Some n =>
                  binary_chain continues operand fuel' (set_e_u n (U_function t)) s3
              end
          end
      end
  end.

(** The sign loop of [power]: [while (s->type == TOK_INFIX && (s->function ==
    add || s->function == sub)) { if (s->function == sub) sign = -sign;
    next_token(s); }] *)
Fixpoint power_signs (fuel : nat) (sign : Z) (s : state) : option (Z * state) :=
  match additive s with
  | None => Some (sign, s)
  | Some t =>
      match fuel with
      | O => None
      | S fuel' =>
          let sign := if pointer_eqb t (Cfun Fsub) then (- sign)%Z else sign in
          s1 <- next_token s ;;
          power_signs fuel' sign s1
      end
  end.

(** How the argument loop of [base] ends: an argument came back [NULL] (and
    [base] returns [NULL] at once), or the loop is left with counter [i] and
    the arguments read so far. *)
Inductive arguments_result : Set :=
| Arguments_null (s : state)
| Arguments_exit (i : Z) (params : list te_expr) (s : state).

(** [for (i = 0; i < arity; i++) { next_token(s); params[i] = expr(s); if
    (params[i] == NULL) { for (i--; i >= 0; i--) te_free(params[i]); return
    NULL; } if (s->type != TOK_SEP) break; }], with [n] the iterations left
    ([arity - i]) and [params] the slots stored to so far. *)
Fixpoint arguments (operand : parser) (n : nat) (i : Z) (params : list te_expr)
    (s : state) : option arguments_result :=
  match n with
  | O => Some (Arguments_exit i params s)
  | S n' =>
      s1 <- next_token s ;;
      '(p, s2) <- operand s1 ;;
      match p with
      | None => Some (Arguments_null s2)
      | Some p =>
          if negb (s_type s2 =? TOK_SEP)%Z
          then Some (Arguments_exit i (params ++ [p]) s2)
          else arguments operand n' (i + 1) (params ++ [p]) s2
      end
  end.

(** [for (i = n - 1; i >= 0; i--) te_free(params[i]);] over the
    automatic array [params] of [base], which is not initialized: the slots
    the argument loop stored to hold a tree each, the first ones, and these
    are freed; a slot it never stored to holds no value, to read it is
    undefined, and the run has no result.  (The model keeps no account of
    the memory that is freed.) *)
Fixpoint free_params (n : nat) (params : list te_expr) : option unit :=
  match n with
  | O => Some tt
  | S i =>
      match nth_error params i with
      | Some _ => free_params i params
      | None => None
      end
  end.

(** [ret->function = f; if (IS_CLOSURE(type)) ret->parameters[arity] = context;] *)
Definition bind_callable (n : te_expr) (type : Z) (f context : pointer) : te_expr :=
  let n := set_e_u n (U_function f) in
  if IS_CLOSURE type then set_e_context n context else n.

(** The body of [base], over the productions it calls.  When an argument
    comes back [NULL] the C code frees the arguments before it, which it has
    stored; on the two other error paths of the argument list it frees all
    the slots of [params] up to the arity, stored to or not. *)
Definition base_body (power expr list_ : parser) (s : state) : option parsed :=
  let m := TYPE_MASK (s_type s) in
  if (m =? TOK_NUMBER)%Z then
    let '(ret, s1) := new_expr TE_CONSTANT [] s in
    match ret with
    | None => Some (None, s1)
    | Some n =>
        s2 <- next_token s1 ;;
        Some (Some (set_e_u n (U_value (value (s_u s)))), s2)
    end
  else if (m =? TOK_VARIABLE)%Z then
    let '(ret, s1) := new_expr TE_VARIABLE [] s in
    match ret with
    | None => Some (None, s1)
    | Some n =>
        s2 <- next_token s1 ;;
        Some (Some (set_e_u n (U_bound (bound (s_u s)))), s2)
    end
  else if (m =? TE_FUNCTION0)%Z || (m =? TE_CLOSURE0)%Z then
    let '(ret, s1) := new_expr (s_type s) [] s in
    match ret with
    | None => Some (None, s1)
    | Some n =>
        let n := bind_callable n (s_type s) (function (s_u s)) (s_context s) in
        s2 <- next_token s1 ;;
        if (s_type s2 =? TOK_OPEN)%Z then
          s3 <- next_token s2 ;;
          if negb (s_type s3 =? TOK_CLOSE)%Z
          then Some (Some n, set_type s3 TOK_ERROR)
          else s4 <- next_token s3 ;; Some (Some n, s4)
        else Some (Some n, s2)
    end
  else if (m =? TE_FUNCTION1)%Z || (m =? TE_CLOSURE1)%Z then
    let f_type := s_type s in
    let f_func := function (s_u s) in
    let f_context := s_context s in
    s1 <- next_token s ;;
    '(p, s2) <- power s1 ;;
    match p with
    | None => Some (None, s2)
    | Some p =>
        let '(ret, s3) := new_expr f_type [p] s2 in
        match ret with
        | None => Some (None, s3)
        | Some n => Some (Some (bind_callable n f_type f_func f_context), s3)
        end
    end
  else if is_function_kind m || is_closure_kind m then
    let arity := ARITY (s_type s) in
    let f_type := s_type s in
    let f_func := function (s_u s) in
    let f_context := s_context s in
    s1 <- next_token s ;;
    if negb (s_type s1 =? TOK_OPEN)%Z then
      Some (None, set_type s1 TOK_ERROR)
    else
      r <- arguments expr (Z.to_nat arity) 0 [] s1 ;;
      match r with
      | Arguments_null s2 => Some (None, s2)
      | Arguments_exit i params s2 =>
          if negb (s_type s2 =? TOK_CLOSE)%Z || negb (i =? arity - 1)%Z then
            'tt <- free_params (Z.to_nat (ARITY f_type)) params ;;
            Some (None, set_type s2 TOK_ERROR)
          else
            s3 <- next_token s2 ;;
            let '(ret, s4) := new_expr f_type params s3 in
            match ret with
            | None =>
                'tt <- free_params (Z.to_nat arity) params ;;
                Some (None, s4)
            | Some n => Some (Some (bind_callable n f_type f_func f_context), s4)
            end
      end
  else if (m =? TOK_OPEN)%Z then
    s1 <- next_token s ;;
    '(ret, s2) <- list_ s1 ;;
    match ret with
    | None => Some (None, s2)
    | Some n =>
        if negb (s_type s2 =? TOK_CLOSE)%Z
        then Some (Some n, set_type s2 TOK_ERROR)
        else s3 <- next_token s2 ;; Some (Some n, s3)
    end
  else
    let '(ret, s1) := new_expr 0 [] s in
    match ret with
    | None => Some (None, s1)
    | Some n => Some (Some (set_e_u n (U_value NAN)), set_type s1 TOK_ERROR)
    end.

(** The body of [power], over [base]; [fuel] bounds the sign loop. *)
Definition power_body (base : parser) (fuel : nat) (s : state) : option parsed :=
  '(sign, s1) <- power_signs fuel 1 s ;;
  if (sign =? 1)%Z then base s1
  else
    '(b, s2) <- base s1 ;;
    match b with
    | None => Some (None, s2)
    | Some b =>
        let '(ret, s3) := new_expr (Z.lor TE_FUNCTION1 TE_FLAG_PURE) [b] s2 in
        match ret with
        | None => Some (None, s3)
        | Some n => Some (Some (set_e_u n (U_function (Cfun Fnegate))), s3)
        end
    end.

(** The body that [factor] (default build, [TE_POW_FROM_RIGHT] not defined),
    [term], [expr] and [list] share: [ret = operand(s); if (ret == NULL)
    return NULL;] and then the loop. *)
Definition chain_body (continues : state -> option pointer) (operand : parser)
    (fuel : nat) (s : state) : option parsed :=
  '(ret, s1) <- operand s ;;
  match ret with
  | None => Some (None, s1)
  | Some ret => binary_chain continues operand fuel ret s1
  end.

(** The productions, in a module of their own ([list] is also the name of the
    type of lists).  Each call of a production costs one unit of fuel. *)
Module Parse.

Fixpoint base (fuel : nat) (s : state) {struct fuel} : option parsed :=
  match fuel with
  | O => None
  | S fuel' => base_body (power fuel') (expr fuel') (list fuel') s
  end

with power (fuel : nat) (s : state) {struct fuel} : option parsed :=
  match fuel with
  | O => None
  | S fuel' => power_body (base fuel') fuel' s
  end

with factor (fuel : nat) (s : state) {struct fuel} : option parsed :=
  match fuel with
  | O => None
  | S fuel' => chain_body exponent (power fuel') fuel' s
  end

with term (fuel : nat) (s : state) {struct fuel} : option parsed :=
  match fuel with
  | O => None
  | S fuel' => chain_body multiplicative (factor fuel') fuel' s
  end

with expr (fuel : nat) (s : state) {struct fuel} : option parsed :=
  match fuel with
  | O => None
  | S fuel' => chain_body additive (term fuel') fuel' s
  end

with list (fuel : nat) (s : state) {struct fuel} : option parsed :=
  match fuel with
  | O => None
  | S fuel' => chain_body separator (expr fuel') fuel' s
  end.

End Parse.

(* ------------------------------------------------------------------------- *)
(** ** The callables of [tinyexpr.c] and the evaluator *)

Definition pi : float := 3.14159265358979323846.
Definition e : float := 2.71828182845904523536.
Definition add (a b : float) : float := PrimFloat.add a b.
Definition sub (a b : float) : float := PrimFloat.sub a b.
Definition mul (a b : float) : float := PrimFloat.mul a b.
Definition divide (a b : float) : float := PrimFloat.div a b.
Definition negate (a : float) : float := PrimFloat.opp a.
Definition comma (a b : float) : float := b.

(** A call of one of the named C functions with the arguments the evaluator
    passes.  The functions defined in [tinyexpr.c] by one expression are
    computed; every other call (the math library, [fac], [ncr], [npr], and a
    call with a number of arguments the function does not take, which C
    leaves undefined) is the world's. *)
Definition call_cfun (W : world) (f : cfun) (args : list float) : float :=
  match f, args with
  | Fpi, [] => pi
  | Fe, [] => e
  | Fadd, [a; b] => add a b
  | Fsub, [a; b] => sub a b
  | Fmul, [a; b] => mul a b
  | Fdivide, [a; b] => divide a b
  | Fnegate, [a] => negate a
  | Fcomma, [a; b] => comma a b
  | _, _ => extern W f args
  end.

(** [((te_funN)n->function)(...)] and [((te_cloN)n->function)(context, ...)].
    A call through a null pointer is undefined in C; the model gives [NAN]. *)
Definition call_function (W : world) (f : pointer) (args : list float) : float :=
  match f with
  | Cfun c => call_cfun W c args
  | Addr a => user_function W a args
  | NULL => NAN
  end.

Definition call_closure (W : world) (f context : pointer) (args : list float) : float :=
  match f with
  | Addr a => user_closure W a context args
  | Cfun c => extern W c args
  | NULL => NAN
  end.

(** [*n->bound]; only a caller address holds a [double]. *)
Definition load (W : world) (p : pointer) : float :=
  match p with
  | Addr a => mem W a
  | _ => NAN
  end.

(** The values of the first [k] parameter slots; a slot without a child is a
    null pointer, on which [te_eval] gives [NAN]. *)
Fixpoint first_values (k : nat) (vs : list float) : list float :=
  match k with
  | O => []
  | S k' =>
      match vs with
      | [] => NAN :: first_values k' []
      | v :: vs' => v :: first_values k' vs'
      end
  end.

(** [te_eval] on a node. *)
Fixpoint eval (W : world) (n : te_expr) : float :=
  let 'Expr type u parameters context := n in
  let m := TYPE_MASK type in
  let args := first_values (Z.to_nat (ARITY type)) (map (eval W) parameters) in
  if (m =? TE_CONSTANT)%Z then value u
  else if (m =? TE_VARIABLE)%Z then load W (bound u)
  else if is_function_kind m then call_function W (function u) args
  else if is_closure_kind m then call_closure W (function u) context args
  else NAN.

(** [te_eval(n)] for a pointer [n]: [if (!n) return NAN;]. *)
Definition te_eval (W : world) (n : option te_expr) : float :=
  match n with
  | None => NAN
  | Some n => eval W n
  end.

(* ------------------------------------------------------------------------- *)
(** ** The optimizer *)

(** [f] on the first [k] elements, the rest as they are. *)
Definition map_first {A : Type} (f : A -> A) : nat -> list A -> list A :=
  fix go (k : nat) (l : list A) {struct l} : list A :=
    match l with
    | [] => []
    | x :: l' =>
        match k with
        | O => l
        | S k' => f x :: go k' l'
        end
    end.

(** [optimize(n)], returning the node it leaves at [n].  A folded node keeps
    its place; its children are freed. *)
Fixpoint optimize (W : world) (n : te_expr) : te_expr :=
  let 'Expr type u parameters context := n in
  if (type =? TE_CONSTANT)%Z then n
  else if (type =? TE_VARIABLE)%Z then n
  else if IS_PURE type then
    let arity := Z.to_nat (ARITY type) in
    let parameters' := map_first (optimize W) arity parameters in
    let known :=
      forallb (fun p => (e_type p =? TE_CONSTANT)%Z) (firstn arity parameters') in
    if known then
      Expr TE_CONSTANT (U_value (eval W (Expr type u parameters' context))) [] context
    else Expr type u parameters' context
  else n.

(* ------------------------------------------------------------------------- *)
(** ** The entry points *)

(** The state [te_compile] sets up before the first token. *)
Definition initial_state (heap : list bool) (expression : string)
    (variables : option (list te_variable)) (var_count : nat) : state :=
  State expression expression 0 (U_bound NULL) NULL variables var_count heap.

(** Fuel for one compilation: six nested productions per character, and the
    chain that reaches the first token. *)
Definition parse_fuel (expression : string) : nat :=
  6 * String.length expression + 12.

(** [te_compile(expression, variables, var_count, error)]: the tree, or
    [NULL], and the value stored through [error], an [int] that takes the
    difference of the two pointers.  [heap] lists the outcomes of the
    allocations to come. *)
Definition te_compile (W : world) (heap : list bool) (expression : string)
    (variables : option (list te_variable)) (var_count : nat)
  : option (option te_expr * Z) :=
  let s := initial_state heap expression variables var_count in
  s <- next_token s ;;
  '(root, s) <- Parse.list (parse_fuel expression) s ;;
  match root with
  | None => Some (None, (-1)%Z)
  | Some root =>
      if negb (s_type s =? TOK_END)%Z then
        let error := to_int W (Z.of_nat (ptrdiff (s_next s) (s_start s))) in
        Some (None, if (error =? 0)%Z then 1%Z else error)
      else Some (Some (optimize W root), 0%Z)
  end.

(** [te_interp(expression, error)]: the value returned and the error code. *)
Definition te_interp (W : world) (heap : list bool) (expression : string)
  : option (float * Z) :=
  '(n, error) <- te_compile W heap expression None 0 ;;
  match n with
  | None => Some (NAN, error)
  | Some n => Some (te_eval W (Some n), error)
  end.

(** A world in which nothing outside the program is defined, with the
    smallest [int] that C allows. *)
Definition bare_world : world :=
  World (fun _ => NAN) (fun _ _ => NAN) (fun _ _ => NAN) (fun _ _ _ => NAN)
        32767 (Z.le_refl 32767).

(* ------------------------------------------------------------------------- *)
(** ** [fac], [ncr] and [npr]

    The three builtins that [tinyexpr.c] defines with a loop.  The evaluator
    reaches them through [extern]; here they stand on their own, over the
    limits of the platform they are compiled for.  A loop that runs out of
    fuel gives [None]. *)

(** <limits.h>, as far as the three functions read it. *)
Record limits : Set := Limits { UINT_MAX : Z; ULONG_MAX : Z }.

(** [INFINITY] of <math.h> (or [1.0/0.0]). *)
Definition INFINITY : float := infinity.

(** [(double)n] for an unsigned [n]: the nearest [double]. *)
Definition double_of (n : Z) : float :=
  SF2Prim (binary_normalize prec emax n 0 false).

(** The integral part of the positive number [m * 2^e]. *)
Definition integral (m : positive) (e : Z) : Z :=
  if (0 <=? e)%Z then (Zpos m * 2 ^ e)%Z else (Zpos m / 2 ^ (- e))%Z.

(** [(unsigned int)(a)] for a [double] within the range of the type: its
    integral part.  The three functions convert after they have turned away
    the negative values and the values above [UINT_MAX]; a NaN passes both
    tests, its conversion is undefined in C, and the model gives 0. *)
Definition unsigned_of (a : float) : Z :=
  match Prim2SF a with
  | S754_finite false m e => integral m e
  | _ => 0%Z
  end.

(** Arithmetic on [unsigned long]. *)
Definition wrap (L : limits) (n : Z) : Z := (n mod (ULONG_MAX L + 1))%Z.

(** The loop of [fac]: [for (i = 1; i <= ua; i++) { if (i > ULONG_MAX /
    result) return INFINITY; result *= i; } return (double)result;] *)
Fixpoint fac_loop (L : limits) (fuel : nat) (ua result i : Z) : option float :=
  if (i <=? ua)%Z then
    match fuel with
    | O => None
    | S fuel' =>
        if (i >? ULONG_MAX L / result)%Z then Some INFINITY
        else fac_loop L fuel' ua (wrap L (result * i)) (wrap L (i + 1))
    end
  else Some (double_of result).

(** [fac(a)]; the loop runs at most [ua] times. *)
Definition fac (L : limits) (a : float) : option float :=
  if PrimFloat.ltb a 0 then Some NAN
  else if PrimFloat.ltb (double_of (UINT_MAX L)) a then Some INFINITY
  else
    let ua := unsigned_of a in
    fac_loop L (Z.to_nat ua) ua 1 1.

(** The loop of [ncr]: [for (i = 1; i <= ur; i++) { if (result > ULONG_MAX /
    (un - ur + i)) return INFINITY; result *= un - ur + i; result /= i; }
    return result;] *)
Fixpoint ncr_loop (L : limits) (fuel : nat) (un ur result i : Z) : option float :=
  if (i <=? ur)%Z then
    match fuel with
    | O => None
    | S fuel' =>
        let d := wrap L (wrap L (un - ur) + i) in
        if (result >? ULONG_MAX L / d)%Z then Some INFINITY
        else ncr_loop L fuel' un ur (wrap L (result * d) / i)%Z (wrap L (i + 1))
    end
  else Some (double_of result).

(** [ncr(n, r)]; the loop runs at most [ur] times. *)
Definition ncr (L : limits) (n r : float) : option float :=
  if PrimFloat.ltb n 0 || PrimFloat.ltb r 0 || PrimFloat.ltb n r then Some NAN
  else if PrimFloat.ltb (double_of (UINT_MAX L)) n
          || PrimFloat.ltb (double_of (UINT_MAX L)) r then Some INFINITY
  else
    let un := unsigned_of n in
    let ur := unsigned_of r in
    let ur := if (ur >? un / 2)%Z then wrap L (un - ur) else ur in
    ncr_loop L (Z.to_nat ur) un ur 1 1.

(** [npr(n, r)]: [return ncr(n, r) * fac(r);] *)
Definition npr (L : limits) (n r : float) : option float :=
  c <- ncr L n r ;;
  f <- fac L r ;;
  Some (mul c f).

(* ------------------------------------------------------------------------- *)
(** ** Releasing a tree

    [te_free] and [te_free_parameters], as the list of the nodes they hand to
    [free], in the order of the calls. *)

(** The number of children the [switch] of [te_free_parameters] frees: it is
    entered at the case of the node's kind, [TE_FUNCTIONk] or [TE_CLOSUREk],
    and falls through to the case of [TE_FUNCTION1]. *)
Definition freed_slots (type : Z) : nat :=
  let m := TYPE_MASK type in
  if is_function_kind m then Z.to_nat (m - TE_FUNCTION0)
  else if is_closure_kind m then Z.to_nat (m - TE_CLOSURE0)
  else 0.

(** [te_free] on a node.  The children go first, [parameters[k-1]] down to
    [parameters[0]] (a slot that holds no child is a null pointer, on which
    [te_free] returns at once), the node itself last. *)
Fixpoint release (n : te_expr) : list te_expr :=
  let 'Expr type u ps c := n in
  List.concat (rev (firstn (freed_slots type) (map release ps))) ++ [n].

(** [te_free_parameters(n)] *)
Definition te_free_parameters (n : option te_expr) : list te_expr :=
  match n with
  | None => []
  | Some (Expr type u ps c) =>
      List.concat (rev (firstn (freed_slots type) (map release ps)))
  end.

(** [te_free(n)]: [if (!n) return; te_free_parameters(n); free(n);] *)
Definition te_free (n : option te_expr) : list te_expr :=
  match n with
  | None => []
  | Some n => te_free_parameters (Some n) ++ [n]
  end.

(* ========================================================================= *)
(** * The vocabulary of the properties *)

(** What a production or the tokenizer leaves alone. *)
Definition frame (s s' : state) : Prop :=
  s_start s' = s_start s /\ s_lookup s' = s_lookup s /\
  s_lookup_len s' = s_lookup_len s.

(** Token codes the tokenizer can return without moving the cursor. *)
Definition stays (t : Z) : bool := (t =? TOK_END)%Z || (t =? TOK_NUMBER)%Z.

(** Token codes after which the parser asks for no further token. *)
Definition inert (t : Z) : bool := stays t || (t =? TOK_ERROR)%Z.

(** The measure that bounds the depth of the descent: the characters not yet
    read, and one more while the current token can still start or continue a
    production. *)
Definition mu (s : state) : nat :=
  String.length (s_next s) + (if inert (s_type s) then 0 else 1).

(** What holds between the state a production is entered with and the one it
    leaves: the frame, a measure that did not grow, and an outcome list that
    is still exhausted if it was. *)
Definition inv (s s' : state) : Prop :=
  frame s s' /\ mu s' <= mu s /\ (s_heap s = [] -> s_heap s' = []).

(** A parser whose every result is related to its input in this way. *)
Definition keeps (p : parser) : Prop :=
  forall s r s', p s = Some (r, s') -> inv s s'.


(** A loop condition that only holds at a token that is not inert. *)
Definition live (continues : state -> option pointer) : Prop :=
  forall s t, continues s = Some t -> inert (s_type s) = false.

(** [strlen(p)]: the characters before the terminating NUL. *)
Fixpoint strlen (p : string) : nat :=
  match p with
  | EmptyString => 0
  | String c r => if is_nul c then 0 else S (strlen r)
  end.

(** A string in which the only NUL is the terminator. *)
Definition no_nul (p : string) : Prop := strlen p = String.length p.

(** The number [c] that one step of the bisection computes for entry [b]. *)
Definition builtin_compare (name : string) (len : nat) (b : string) : Z :=
  let c := strncmp name b len in
  if (c =? 0)%Z then (code NUL - code (index b len))%Z else c.

(** The lexical order of names, character codes compared as numbers. *)
Definition name_lt (a b : string) : Prop := OrdersEx.String_as_OT.lt a b.

(** The entry's name is [key]. *)
Definition named (key : string) (v : te_variable) : bool :=
  String.eqb (v_name v) key.

(** The order the builtin table is kept in. *)
Definition entry_lt (a b : te_variable) : Prop := name_lt (v_name a) (v_name b).

(** The test of [find_lookup] on one entry. *)
Definition matches (name : string) (len : nat) (v : te_variable) : bool :=
  (strncmp name (v_name v) len =? 0)%Z && is_nul (index (v_name v) len).

(** The switch of [next_token] has a case for the entry's kind. *)
Definition handled (t : Z) : bool :=
  (TYPE_MASK t =? TE_VARIABLE)%Z || is_function_kind (TYPE_MASK t)
  || is_closure_kind (TYPE_MASK t).

(** A caller's variable called ["pi"], stored at address 7. *)
Definition caller_pi : te_variable := Variable_ "pi" (Addr 7) TE_VARIABLE NULL.

(** The tokenizer state at the start of ["pi*2"] with that table. *)
Definition shadow_state : state :=
  State "pi*2" "pi*2" 0 (U_bound NULL) NULL (Some [caller_pi]) 1 [].

(** The test of [optimize] on a child: [type == TE_CONSTANT]. *)
Definition is_constant (n : te_expr) : bool := (e_type n =? TE_CONSTANT)%Z.

(** A [Call] node: the kind of its type code is a function or a closure. *)
Definition is_call (type : Z) : bool :=
  is_function_kind (TYPE_MASK type) || is_closure_kind (TYPE_MASK type).

(** The four levels of binary operators. *)
Inductive level : Set := Llist | Lexpr | Lterm | Lfactor.


Definition operand_of (l : level) : nat -> parser :=
  match l with
  | Llist => Parse.expr
  | Lexpr => Parse.term
  | Lterm => Parse.factor
  | Lfactor => Parse.power
  end.

Definition operator_of (l : level) : state -> option pointer :=
  match l with
  | Llist => separator
  | Lexpr => additive
  | Lterm => multiplicative
  | Lfactor => exponent
  end.

(** The binary [Call] node that carries callable [t] over children [a], [b]. *)
Definition call2 (t : pointer) (a b : te_expr) : te_expr :=
  Expr (Z.lor TE_FUNCTION2 TE_FLAG_PURE) (U_function t) [a; b] NULL.

(** The state in which [te_compile] starts on [expression] with no table and
    an allocator that never fails. *)
Definition start_state (expression : string) : state :=
  initial_state [] expression None 0.

(** The node [base] builds for a number. *)
Definition constant (v : float) : te_expr := Expr TE_CONSTANT (U_value v) [] NULL.

(** A run of sign tokens: from [s], the tokens [ts] (each the function of a
    ['+'] or a ['-']) are read one after the other, and [s'] holds the first
    token that is not a sign. *)
Inductive sign_run : state -> list pointer -> state -> Prop :=
| sign_run_nil (s : state) :
    additive s = None -> sign_run s [] s
| sign_run_cons (s s1 s' : state) (t : pointer) (ts : list pointer) :
    additive s = Some t -> next_token s = Some s1 -> sign_run s1 ts s' ->
    sign_run s (t :: ts) s'.

(** The number of ['-'] signs among the tokens. *)
Definition minuses (ts : list pointer) : nat :=
  List.length (filter (fun t => pointer_eqb t (Cfun Fsub)) ts).

(** The unary negation node over [b]. *)
Definition negation (b : te_expr) : te_expr :=
  Expr (Z.lor TE_FUNCTION1 TE_FLAG_PURE) (U_function (Cfun Fnegate)) [b] NULL.

(** A caller's table with the one variable ["x"], stored at address 0. *)
Definition table_x : option (list te_variable) :=
  Some [Variable_ "x" (Addr 0) TE_VARIABLE NULL].

(** The fuel [base] is called with on the first token of a source: what
    [te_compile] hands to [list], less the five productions above [base]. *)
Definition base_fuel (expression : string) : nat :=
  6 * String.length expression + 7.

(** [s] is the state at the first token of the source [te_compile] is
    called on. *)
Definition first_token (heap : list bool) (expression : string)
    (variables : option (list te_variable)) (var_count : nat) (s : state) : Prop :=
  next_token (initial_state heap expression variables var_count) = Some s.

(** The node [base] builds for the call token at [s] over children [ps]. *)
Definition call_node (s : state) (ps : list te_expr) : te_expr :=
  bind_callable (Expr (s_type s) (U_bound NULL) ps NULL) (s_type s)
                (function (s_u s)) (s_context s).

(** Compilation succeeds, whatever the world: [te_compile] returns a tree
    and reports 0. *)
Definition compiles (expression : string) (variables : option (list te_variable))
    (var_count : nat) : Prop :=
  forall W, exists root,
    te_compile W [] expression variables var_count = Some (Some root, 0%Z).

(** Compilation fails, whatever the world: [te_compile] returns no tree and
    reports [error]. *)
Definition reports (expression : string) (variables : option (list te_variable))
    (var_count : nat) (error : Z) : Prop :=
  forall W, te_compile W [] expression variables var_count = Some (None, error).

(** Compilation fails, whatever the world: [te_compile] returns no tree. *)
Definition fails (expression : string) (variables : option (list te_variable))
    (var_count : nat) : Prop :=
  forall W, exists error,
    te_compile W [] expression variables var_count = Some (None, error).

(** An argument list as the loop of [base] reads it: from [s] (whose token is
    the opening parenthesis or a comma) the next token is read and an
    [operand] parsed, and so on as long as a comma follows; [k] operands [ps]
    are read, and [s'] holds the first token after an operand that is not a
    comma. *)
Inductive argument_run (operand : parser)
  : state -> nat -> list te_expr -> state -> Prop :=
| argument_run_last (s s1 s2 : state) (p : te_expr) :
    next_token s = Some s1 -> operand s1 = Some (Some p, s2) ->
    s_type s2 <> TOK_SEP ->
    argument_run operand s 1 [p] s2
| argument_run_more (s s1 s2 s3 : state) (p : te_expr) (k : nat)
    (ps : list te_expr) :
    next_token s = Some s1 -> operand s1 = Some (Some p, s2) ->
    s_type s2 = TOK_SEP -> argument_run operand s2 k ps s3 ->
    argument_run operand s (S k) (p :: ps) s3.

(** The six productions of the parser, by name. *)
Inductive production : Set := Plist | Pexpr | Pterm | Pfactor | Ppower | Pbase.

Definition run (p : production) : nat -> parser :=
  match p with
  | Plist => Parse.list
  | Pexpr => Parse.expr
  | Pterm => Parse.term
  | Pfactor => Parse.factor
  | Ppower => Parse.power
  | Pbase => Parse.base
  end.

(** The production of a level of binary operators, and that of its
    operands. *)
Definition chain_at (l : level) : production :=
  match l with
  | Llist => Plist
  | Lexpr => Pexpr
  | Lterm => Pterm
  | Lfactor => Pfactor
  end.

Definition operand_at (l : level) : production :=
  match l with
  | Llist => Pexpr
  | Lexpr => Pterm
  | Lterm => Pfactor
  | Lfactor => Ppower
  end.

(** The states on which the loop of a chain calls its operand: the loop,
    entered with [fuel], the tree [ret] and the state [s], reads the token
    after an operator and calls the operand there, in this turn or, when the
    operand and the new node come back, in a later one. *)
Inductive chain_calls (continues : state -> option pointer) (operand : parser)
  : nat -> te_expr -> state -> state -> Prop :=
| chain_calls_now (fuel : nat) (ret : te_expr) (s s1 : state) (t : pointer) :
    continues s = Some t -> next_token s = Some s1 ->
    chain_calls continues operand (S fuel) ret s s1
| chain_calls_later (fuel : nat) (ret p n : te_expr) (s s1 s2 s3 s' : state)
    (t : pointer) :
    continues s = Some t -> next_token s = Some s1 ->
    operand s1 = Some (Some p, s2) ->
    new_expr (Z.lor TE_FUNCTION2 TE_FLAG_PURE) [ret; p] s2 = (Some n, s3) ->
    chain_calls continues operand fuel (set_e_u n (U_function t)) s3 s' ->
    chain_calls continues operand (S fuel) ret s s'.

(** The states on which the argument loop of [base] calls its operand, with
    [n] turns to go from the state [s]: after the next token, in this turn
    or, when the operand comes back and a comma follows, in a later one. *)
Inductive argument_calls (operand : parser) : nat -> state -> state -> Prop :=
| argument_calls_now (n : nat) (s s1 : state) :
    next_token s = Some s1 -> argument_calls operand (S n) s s1
| argument_calls_later (n : nat) (s s1 s2 s' : state) (p : te_expr) :
    next_token s = Some s1 -> operand s1 = Some (Some p, s2) ->
    s_type s2 = TOK_SEP -> argument_calls operand n s2 s' ->
    argument_calls operand (S n) s s'.

(** One call in the descent: the production [p], run with fuel [f] on the
    state [s], calls the production [q] with fuel [g] on the state [t].  A
    chain calls its operand where it starts and after each operator;
    [power] calls [base] after the signs; [base] calls [power] after the
    token of a function of one parameter, [expr] for the arguments of a
    function of more, and [list] after an opening parenthesis. *)
Inductive enters
  : production -> nat -> state -> production -> nat -> state -> Prop :=
| enters_operand (l : level) (fuel : nat) (s : state) :
    enters (chain_at l) (S fuel) s (operand_at l) fuel s
| enters_next_operand (l : level) (fuel : nat) (s s1 s' : state) (ret : te_expr) :
    operand_of l fuel s = Some (Some ret, s1) ->
    chain_calls (operator_of l) (operand_of l fuel) fuel ret s1 s' ->
    enters (chain_at l) (S fuel) s (operand_at l) fuel s'
| enters_base (fuel : nat) (s s1 : state) (sign : Z) :
    power_signs fuel 1 s = Some (sign, s1) ->
    enters Ppower (S fuel) s Pbase fuel s1
| enters_argument (fuel : nat) (s s1 : state) :
    is_call (s_type s) = true -> ARITY (s_type s) = 1%Z ->
    next_token s = Some s1 ->
    enters Pbase (S fuel) s Ppower fuel s1
| enters_arguments (fuel : nat) (s s1 s' : state) :
    is_call (s_type s) = true -> (2 <= ARITY (s_type s))%Z ->
    next_token s = Some s1 -> s_type s1 = TOK_OPEN ->
    argument_calls (Parse.expr fuel) (Z.to_nat (ARITY (s_type s))) s1 s' ->
    enters Pbase (S fuel) s Pexpr fuel s'
| enters_group (fuel : nat) (s s1 : state) :
    TYPE_MASK (s_type s) = TOK_OPEN -> next_token s = Some s1 ->
    enters Pbase (S fuel) s Plist fuel s1.

(** The calls a production makes, itself or through the productions it
    calls. *)
Inductive reaches
  : production -> nat -> state -> production -> nat -> state -> Prop :=
| reaches_here (p : production) (f : nat) (s : state) : reaches p f s p f s
| reaches_call (p q r : production) (f g h : nat) (s t u : state) :
    enters p f s q g t -> reaches q g t r h u -> reaches p f s r h u.

(** A result that is not a tree: [NULL], or no result. *)
Definition no_tree (r : option parsed) : Prop :=
  forall n s, r <> Some (Some n, s).

(** In the compilation of [expression], the parser calls [base] with [fuel]
    on the state [s]. *)
Definition calls_base (heap : list bool) (expression : string)
    (variables : option (list te_variable)) (var_count : nat)
    (fuel : nat) (s : state) : Prop :=
  exists s0,
    first_token heap expression variables var_count s0 /\
    reaches Plist (parse_fuel expression) s0 Pbase fuel s.



(** [s->next - s->start]: the characters the tokenizer has consumed. *)
Definition consumed (s : state) : Z := Z.of_nat (ptrdiff (s_next s) (s_start s)).

(** The blanks a token is preceded by. *)
Fixpoint leading_blanks (p : string) : nat :=
  match p with
  | EmptyString => 0
  | String c r =>
      if Ascii.eqb c " " || Ascii.eqb c "009" || Ascii.eqb c "010" || Ascii.eqb c "013"
      then S (leading_blanks r) else 0
  end.

(** The characters [next_token] passes over without making a token. *)
Definition is_blank (c : ascii) : bool :=
  Ascii.eqb c " " || Ascii.eqb c "009" || Ascii.eqb c "010" || Ascii.eqb c "013".

(** A string of blanks. *)
Fixpoint blanks (p : string) : bool :=
  match p with
  | EmptyString => true
  | String c r => is_blank c && blanks r
  end.

(** [q] points into the string [p] points to, at [p] or after it. *)
Definition within (q p : string) : Prop := exists pre, p = (pre ++ q)%string.

(** A character an identifier goes on with. *)
Definition identifier_char (c : ascii) : bool :=
  isalpha c || isdigit c || Ascii.eqb c "_".

(** The caller handed in no table, or an empty one. *)
Definition no_table (s : state) : Prop := s_lookup s = None \/ s_lookup_len s = 0.

(** What the tokenizer needs of a builtin's entry to find it: a name made of
    identifier characters that starts with a letter and is the name of no
    earlier entry, and a kind the tokenizer has a case for. *)
Definition reachable (v : te_variable) : Prop :=
  isalpha (deref (v_name v)) = true /\
  (forall rest, scan_identifier (v_name v ++ rest) = scan_identifier rest) /\
  no_nul (v_name v) /\
  find (named (v_name v)) functions = Some v /\
  (forall s, identifier_token v s =
             set_u (set_type s (v_type v)) (U_function (v_address v))) /\
  (v_type v =? TOK_NULL)%Z = false.

(** A property of the tokenizer state that the tokenizer establishes again
    with every token, and that neither the error mark nor an allocation
    disturbs. *)
Definition token_invariant (P : state -> Prop) : Prop :=
  (forall s s', P s -> next_token s = Some s' -> P s') /\
  (forall s, P s -> P (set_type s TOK_ERROR)) /\
  (forall t ps s, P s -> P (snd (new_expr t ps s))).

(** A parser that leaves the state with the property it found it with. *)
Definition preserves (P : state -> Prop) (p : parser) : Prop :=
  forall s r s', P s -> p s = Some (r, s') -> P s'.

(** The cursor is inside the source, and the end token is only held at a
    NUL. *)
Definition at_end_only_at_nul (s : state) : Prop :=
  within (s_next s) (s_start s) /\
  (s_type s = TOK_END -> is_nul (deref (s_next s)) = true).

(** A tree in which every node is a constant, a variable or a call, and
    holds as many children as the arity in its type code. *)
Fixpoint well_formed (n : te_expr) : bool :=
  let 'Expr type u ps c := n in
  ((type =? TE_CONSTANT)%Z || (type =? TE_VARIABLE)%Z || is_call type)
  && Nat.eqb (List.length ps) (Z.to_nat (ARITY type))
  && forallb well_formed ps.

(** A parser whose every tree is of that form. *)
Definition builds (p : parser) : Prop :=
  forall s n s', p s = Some (Some n, s') -> well_formed n = true.

(** A parser on which allocation failures have one effect only: run on a
    state [s], it returns what it returns when every allocation succeeds,
    the remaining outcomes apart, or it returns [NULL]. *)
Definition survives (p : parser) : Prop :=
  forall s r0 s0,
    p (set_heap s []) = Some (r0, s0) ->
    exists r s',
      p s = Some (r, s') /\
      (r = None \/ (r = r0 /\ set_heap s' [] = s0)).

(** A parser whose trees are those of the run in which every allocation
    succeeds: no allocation behind a tree failed. *)
Definition steady (p : parser) : Prop :=
  forall s n s',
    p s = Some (Some n, s') ->
    p (set_heap s []) = Some (Some n, set_heap s' []).

(** A loop condition that does not look at the allocator. *)
Definition heap_blind (continues : state -> option pointer) : Prop :=
  forall s h, continues (set_heap s h) = continues s.

(** The world [W] with the caller's [double]s replaced by [m]. *)
Definition with_memory (W : world) (m : nat -> float) : world :=
  World m (extern W) (user_function W) (user_closure W)
        (INT_MAX W) (INT_MAX_least W).

(** A token code that is not a variable and, when it is a call, is a pure
    function. *)
Definition closed_type (t : Z) : bool :=
  negb (TYPE_MASK t =? TOK_VARIABLE)%Z
  && (negb (is_call t) || (is_function_kind (TYPE_MASK t) && IS_PURE t)).

(** The union holds a [double]. *)
Definition is_value (u : union) : bool :=
  match u with U_value _ => true | _ => false end.

(** A tree of constants and of pure functions over as many children as
    their arity. *)
Fixpoint foldable (n : te_expr) : bool :=
  let 'Expr type u ps c := n in
  (((type =? TE_CONSTANT)%Z && is_value u)
   || (is_function_kind (TYPE_MASK type) && IS_PURE type))
  && pointer_eqb c NULL
  && Nat.eqb (List.length ps) (Z.to_nat (ARITY type))
  && forallb foldable ps.

(** A parser that, started without a table at a token of such a code, yields
    a tree of that kind or leaves the error token. *)
Definition folds (p : parser) : Prop :=
  forall s n s',
    no_table s -> closed_type (s_type s) = true ->
    p s = Some (Some n, s') ->
    foldable n = true \/ s_type s' = TOK_ERROR.

(** A tree without a node of the kind of a variable. *)
Fixpoint variable_free (n : te_expr) : bool :=
  let 'Expr type u ps c := n in
  negb (TYPE_MASK type =? TE_VARIABLE)%Z && forallb variable_free ps.

(** The nodes of a tree. *)
Fixpoint nodes (n : te_expr) : list te_expr :=
  let 'Expr type u ps c := n in
  n :: List.concat (map nodes ps).

(** The limits every C implementation meets, on a machine where [UINT_MAX]
    is a [double] (as it is with an [unsigned int] of up to 53 bits). *)
Definition standard_limits (L : limits) : Prop :=
  (65535 <= UINT_MAX L <= ULONG_MAX L)%Z /\ (4294967295 <= ULONG_MAX L)%Z /\
  unsigned_of (double_of (UINT_MAX L)) = UINT_MAX L.

(** The limits of a 16-bit DOS compiler and of a 64-bit Unix one. *)
Definition dos_limits : limits := Limits 65535 4294967295.
Definition lp64_limits : limits := Limits 4294967295 18446744073709551615.

(** A number that is neither a NaN nor an infinity. *)
Definition finite (x : spec_float) : bool :=
  match x with
  | S754_zero _ | S754_finite _ _ _ => true
  | _ => false
  end.

(** [n!] *)
Definition factorial (n : nat) : Z := Z.of_nat (fact n).

(** The binomial coefficient, by Pascal's rule. *)
Fixpoint binomial (n k : nat) : Z :=
  match n, k with
  | _, O => 1%Z
  | O, S _ => 0%Z
  | S n', S k' => (binomial n' k' + binomial n' k)%Z
  end.

(** The product the overflow test of [ncr] looks at in round [j], for
    [un - ur = m]: [j * C(m + j, j)]. *)
Definition ncr_product (m j : nat) : Z := (Z.of_nat j * binomial (m + j) j)%Z.

(** What [fac] computes: the factorial of the integral part, as long as it
    fits an [unsigned long]. *)
Definition fac_value (L : limits) (a : float) : float :=
  if PrimFloat.ltb a 0 then NAN
  else if PrimFloat.ltb (double_of (UINT_MAX L)) a then INFINITY
  else
    let n := Z.to_nat (unsigned_of a) in
    if (factorial n <=? ULONG_MAX L)%Z then double_of (factorial n) else INFINITY.

(** What [ncr] computes: the binomial coefficient of the integral parts, as
    long as the last product that the loop forms, [k * C(n, k)] for the
    smaller [k] of [r] and [n - r], fits an [unsigned long]. *)
Definition ncr_value (L : limits) (n r : float) : float :=
  if PrimFloat.ltb n 0 || PrimFloat.ltb r 0 || PrimFloat.ltb n r then NAN
  else if PrimFloat.ltb (double_of (UINT_MAX L)) n
          || PrimFloat.ltb (double_of (UINT_MAX L)) r then INFINITY
  else
    let un := Z.to_nat (unsigned_of n) in
    let ur := Z.to_nat (unsigned_of r) in
    let k := Nat.min ur (un - ur) in
    if (Z.of_nat k * binomial un k <=? ULONG_MAX L)%Z
    then double_of (binomial un ur) else INFINITY.

(* ========================================================================= *)
(** * Properties *)

(* ------------------------------------------------------------------------- *)
(** ** Strings and the tokenizer: progress and frame *)

Ltac break_if :=
  match goal with
  | |- context [if ?b then _ else _] => destruct b eqn:?
  | H : context [if ?b then _ else _] |- _ => destruct b eqn:?
  end.

Ltac inv H := inversion H; subst; clear H.

Lemma bind_some (A B : Type) (m : option A) (k : A -> option B) (b : B) :
  bind m k = Some b -> exists a, m = Some a /\ k a = Some b.
Proof. destruct m as [a|]; simpl; intros H; [exists a; auto | discriminate]. Qed.

Lemma advance_length (p : string) :
  String.length (advance p) <= String.length p.
Proof. destruct p; simpl; lia. Qed.

Lemma deref_not_nul_length (p : string) :
  is_nul (deref p) = false -> String.length (advance p) < String.length p.
Proof. destruct p; simpl; [discriminate | lia]. Qed.

Lemma span_digits_length (p : string) :
  String.length (snd (span_digits p)) <= String.length p.
Proof.
  induction p as [|c r IH]; simpl; [lia|].
  destruct (isdigit c); simpl; [|lia].
  destruct (span_digits r) as [ds q]; simpl in *; lia.
Qed.

Lemma strtod_length (p : string) :
  String.length (snd (strtod p)) <= String.length p.
Proof.
  unfold strtod.
  pose proof (span_digits_length p) as H1.
  destruct (span_digits p) as [ip p1]; simpl in H1.
  assert (H2 : forall fp p2,
             (fp, p2) = (if Ascii.eqb (deref p1) "." then span_digits (advance p1)
                         else ([], p1)) ->
             String.length p2 <= String.length p).
  { intros fp p2 E. destruct (Ascii.eqb (deref p1) ".").
    - pose proof (span_digits_length (advance p1)) as H.
      rewrite <- E in H; simpl in H.
      pose proof (advance_length p1); lia.
    - inv E; lia. }
  destruct (if Ascii.eqb (deref p1) "." then span_digits (advance p1) else ([], p1))
    as [fp p2] eqn:E.
  specialize (H2 fp p2 eq_refl).
  destruct (ip ++ fp) as [|d ds]; simpl; [lia|].
  destruct (Ascii.eqb (deref p2) "e" || Ascii.eqb (deref p2) "E"); simpl; [|lia].
  pose proof (advance_length p2) as H3.
  pose proof (advance_length (advance p2)) as H4.
  match goal with
  | |- context [span_digits ?q] =>
      pose proof (span_digits_length q) as H5;
      assert (H6 : String.length q <= String.length p2)
        by (destruct (Ascii.eqb (deref (advance p2)) "-" ||
                      Ascii.eqb (deref (advance p2)) "+"); lia);
      destruct (span_digits q) as [[|x xs] p5]
  end; simpl in *; lia.
Qed.

Lemma scan_identifier_length (p : string) :
  String.length (scan_identifier p) <= String.length p.
Proof.
  induction p as [|c r IH]; simpl; [lia|].
  destruct (isalpha c || isdigit c || Ascii.eqb c "_"); simpl; lia.
Qed.

Lemma scan_identifier_alpha (p : string) :
  isalpha (deref p) = true ->
  String.length (scan_identifier p) < String.length p.
Proof.
  destruct p as [|c r]; simpl; [discriminate|].
  intros ->; simpl. pose proof (scan_identifier_length r); lia.
Qed.

Lemma frame_refl (s : state) : frame s s.
Proof. repeat split. Qed.

Lemma frame_trans (a b c : state) : frame a b -> frame b c -> frame a c.
Proof. unfold frame; intuition congruence. Qed.

(** The bisection ends within the fuel it is given. *)
Lemma find_builtin_loop_total (name : string) (len fuel : nat) :
  forall imin imax : Z,
    (imax - imin + 1 <= Z.of_nat fuel)%Z ->
    exists r, find_builtin_loop fuel name len imin imax = Some r.
Proof.
  induction fuel as [|fuel IH]; intros imin imax Hf; simpl.
  - destruct (imax >=? imin)%Z eqn:E; [|eauto]. lia.
  - destruct (imax >=? imin)%Z eqn:E; [|eauto].
    assert (Hq : (0 <= Z.quot (imax - imin) 2 <= imax - imin)%Z).
    { rewrite Z.quot_div_nonneg by lia.
      split; [apply Z.div_pos; lia | apply Z.div_le_upper_bound; lia]. }
    repeat break_if; eauto; apply IH; lia.
Qed.

Lemma find_builtin_total (name : string) (len : nat) :
  exists r, find_builtin name len = Some r.
Proof. apply find_builtin_loop_total. simpl. lia. Qed.

Lemma operator_token_type (c : ascii) (s : state) :
  s_type s = TOK_NULL ->
  s_type (operator_token c s) = TOK_NULL \/
  (stays (s_type (operator_token c s)) = false).
Proof.
  intros H. unfold operator_token.
  repeat break_if; simpl; auto.
Qed.

Lemma operator_token_frame (c : ascii) (s : state) :
  frame s (operator_token c s) /\ s_next (operator_token c s) = s_next s /\
  s_heap (operator_token c s) = s_heap s.
Proof. unfold operator_token, frame. repeat break_if; simpl; auto. Qed.

Lemma identifier_token_frame (v : te_variable) (s : state) :
  frame s (identifier_token v s) /\ s_next (identifier_token v s) = s_next s /\
  s_heap (identifier_token v s) = s_heap s.
Proof. unfold identifier_token, frame. repeat break_if; simpl; auto. Qed.

(** One pass of the tokenizer loop always completes; it keeps the frame and
    the heap, never moves the cursor backwards, and moves it forwards unless
    it met the end of the input or read a number. *)
Lemma next_token_body_spec (s : state) :
  exists returned s1,
    next_token_body s = Some (returned, s1) /\
    frame s s1 /\ s_heap s1 = s_heap s /\
    String.length (s_next s1) <= String.length (s_next s) /\
    (returned = true -> s_type s1 = TOK_END) /\
    (returned = false ->
       s_type s1 = TOK_NUMBER \/
       String.length (s_next s1) < String.length (s_next s)).
Proof.
  unfold next_token_body.
  destruct (is_nul (deref (s_next s))) eqn:Hnul.
  { do 2 eexists; split; [reflexivity|].
    repeat split; simpl; auto; discriminate. }
  destruct (isdigit (deref (s_next s)) || Ascii.eqb (deref (s_next s)) ".") eqn:Hnum.
  { pose proof (strtod_length (s_next s)) as Hl.
    destruct (strtod (s_next s)) as [v q]; simpl in Hl.
    do 2 eexists; split; [reflexivity|].
    repeat split; simpl; auto; discriminate. }
  destruct (isalpha (deref (s_next s))) eqn:Halpha.
  { pose proof (scan_identifier_alpha _ Halpha) as Hl.
    set (s1 := set_next s (scan_identifier (s_next s))).
    set (len := ptrdiff (s_next s1) (s_next s)).
    assert (Hv : exists var,
               match find_lookup s1 (s_next s) len with
               | Some v => Some (Some v)
               | None => find_builtin (s_next s) len
               end = Some var).
    { destruct (find_lookup s1 (s_next s) len); eauto using find_builtin_total. }
    destruct Hv as [var ->]; simpl.
    destruct var as [v|].
    - destruct (identifier_token_frame v s1) as (Hf & Hn & Hh).
      do 2 eexists; split; [reflexivity|].
      rewrite Hn, Hh. destruct Hf as (? & ? & ?).
      subst len s1; simpl in *.
      repeat split; try congruence; simpl; try lia; try discriminate;
        try (intros _; right; lia).
    - do 2 eexists; split; [reflexivity|].
      repeat split; simpl; auto; try lia; try discriminate. }
  pose proof (deref_not_nul_length _ Hnul) as Hl.
  destruct (operator_token_frame (deref (s_next s)) (set_next s (advance (s_next s))))
    as (Hf & Hn & Hh).
  do 2 eexists; split; [reflexivity|].
  rewrite Hn, Hh. destruct Hf as (? & ? & ?). simpl in *.
  repeat split; try congruence; simpl; try lia; try discriminate;
    try (intros _; right; lia).
Qed.

Lemma next_token_loop_spec (fuel : nat) :
  forall s,
    String.length (s_next s) < fuel ->
    exists s',
      next_token_loop fuel s = Some s' /\
      frame s s' /\ s_heap s' = s_heap s /\
      String.length (s_next s') <= String.length (s_next s) /\
      (stays (s_type s') = false ->
       String.length (s_next s') < String.length (s_next s)).
Proof.
  induction fuel as [|fuel IH]; intros s Hf; [lia|].
  simpl.
  destruct (next_token_body_spec s) as (returned & s1 & -> & Hfr & Hh & Hle & Hr & Hn).
  simpl.
  destruct returned.
  { exists s1; split; [reflexivity|]. split; [exact Hfr|].
    split; [exact Hh|]. split; [exact Hle|].
    rewrite (Hr eq_refl). discriminate. }
  destruct (s_type s1 =? TOK_NULL)%Z eqn:E.
  - apply Z.eqb_eq in E.
    destruct (Hn eq_refl) as [Hnum | Hlt]; [rewrite E in Hnum; discriminate|].
    destruct (IH s1) as (s' & -> & Hfr' & Hh' & Hle' & Hst'); [lia|].
    exists s'; split; [reflexivity|].
    split; [apply (frame_trans _ _ _ Hfr Hfr')|].
    split; [congruence|]. split; [lia|]. intros _; lia.
  - exists s1; split; [reflexivity|]. split; [exact Hfr|].
    split; [exact Hh|]. split; [exact Hle|].
    intros Hst. destruct (Hn eq_refl) as [Hnum | Hlt]; [|exact Hlt].
    rewrite Hnum in Hst; discriminate.
Qed.

(** [next_token] always returns. *)
Lemma next_token_spec (s : state) :
  exists s',
    next_token s = Some s' /\
    frame s s' /\ s_heap s' = s_heap s /\
    String.length (s_next s') <= String.length (s_next s) /\
    (stays (s_type s') = false ->
     String.length (s_next s') < String.length (s_next s)).
Proof.
  unfold next_token.
  destruct (next_token_loop_spec (S (String.length (s_next s)))
              (set_type s TOK_NULL)) as (s' & E & Hfr & Hh & Hle & Hst);
    [simpl; lia|].
  exists s'; split; [exact E|]. simpl in *.
  destruct Hfr as (? & ? & ?). unfold frame. auto.
Qed.

(* ------------------------------------------------------------------------- *)
(** ** What every production preserves *)

Lemma inv_refl (s : state) : inv s s.
Proof. unfold inv; auto using frame_refl. Qed.

Lemma inv_trans (a b c : state) : inv a b -> inv b c -> inv a c.
Proof.
  unfold inv; intros (F1 & M1 & H1) (F2 & M2 & H2).
  split; [eapply frame_trans; eauto|]. split; [lia | auto].
Qed.


Lemma next_token_mu (s : state) :
  exists s', next_token s = Some s' /\ frame s s' /\ s_heap s' = s_heap s /\
             mu s' <= String.length (s_next s).
Proof.
  destruct (next_token_spec s) as (s' & E & Hf & Hh & Hle & Hst).
  exists s'; repeat (split; [assumption|]).
  unfold mu, inert. destruct (stays (s_type s')); simpl.
  - lia.
  - specialize (Hst eq_refl). destruct (s_type s' =? TOK_ERROR)%Z; lia.
Qed.

Lemma next_token_inv (s s' : state) : next_token s = Some s' -> inv s s'.
Proof.
  intros E. destruct (next_token_mu s) as (s1 & E1 & Hf & Hh & Hm).
  rewrite E in E1; inv E1.
  split; [exact Hf|]. split; [unfold mu at 2; lia | congruence].
Qed.


Lemma set_type_error_inv (s : state) : inv s (set_type s TOK_ERROR).
Proof.
  split; [repeat split|]. split; [|auto].
  unfold mu; simpl. destruct (inert (s_type s)); lia.
Qed.

Lemma new_expr_state (t : Z) (ps : list te_expr) (s : state) :
  let s' := snd (new_expr t ps s) in
  s_start s' = s_start s /\ s_next s' = s_next s /\ s_type s' = s_type s /\
  s_u s' = s_u s /\ s_context s' = s_context s /\
  s_lookup s' = s_lookup s /\ s_lookup_len s' = s_lookup_len s /\
  (s_heap s = [] -> s_heap s' = []).
Proof.
  unfold new_expr, malloc. destruct (s_heap s) as [|[] h] eqn:E; simpl;
    repeat split; auto; try congruence; discriminate.
Qed.

Lemma new_expr_inv (t : Z) (ps : list te_expr) (s s' : state) (r : option te_expr) :
  new_expr t ps s = (r, s') -> inv s s'.
Proof.
  intros E. pose proof (new_expr_state t ps s) as H. rewrite E in H; simpl in H.
  destruct H as (H1 & H2 & H3 & H4 & H5 & H6 & H7 & H8).
  split; [repeat split; auto|]. split; [|auto].
  unfold mu. rewrite H2, H3. lia.
Qed.

Lemma new_expr_mu (t : Z) (ps : list te_expr) (s s' : state) (r : option te_expr) :
  new_expr t ps s = (r, s') ->
  s_next s' = s_next s /\ s_type s' = s_type s /\ s_u s' = s_u s.
Proof.
  intros E. pose proof (new_expr_state t ps s) as H. rewrite E in H; simpl in H.
  tauto.
Qed.

(** The loops keep what their operand keeps. *)
Section LoopInvariants.

Variable operand : parser.
Hypothesis operand_inv :
  forall s r s', operand s = Some (r, s') -> inv s s'.

Lemma binary_chain_inv (continues : state -> option pointer) (fuel : nat) :
  forall ret s r s',
    binary_chain continues operand fuel ret s = Some (r, s') -> inv s s'.
Proof.
  induction fuel as [|fuel IH]; intros ret s r s'; simpl;
    destruct (continues s) as [t|]; intros H; try discriminate;
    try (inv H; apply inv_refl).
  apply bind_some in H; destruct H as (s1 & E1 & H).
  apply bind_some in H; destruct H as ([p s2] & E2 & H).
  apply next_token_inv in E1. apply operand_inv in E2.
  destruct p as [p|]; [|inv H; eauto using inv_trans].
  destruct (new_expr _ _ s2) as [n s3] eqn:E3.
  apply new_expr_inv in E3.
  destruct n as [n|]; [|inv H; eauto using inv_trans].
  apply IH in H. eauto using inv_trans.
Qed.

Lemma arguments_inv (n : nat) :
  forall i params s,
    match arguments operand n i params s with
    | Some (Arguments_null s') => inv s s'
    | Some (Arguments_exit _ _ s') => inv s s'
    | None => True
    end.
Proof.
  induction n as [|n IH]; intros i params s; simpl; [apply inv_refl|].
  destruct (next_token s) as [s1|] eqn:E1; simpl; [|exact I].
  destruct (operand s1) as [[p s2]|] eqn:E2; simpl; [|exact I].
  apply next_token_inv in E1. apply operand_inv in E2.
  destruct p as [p|]; [|eauto using inv_trans].
  destruct (negb (s_type s2 =? TOK_SEP)%Z); [eauto using inv_trans|].
  specialize (IH (i + 1)%Z (params ++ [p]) s2).
  destruct (arguments operand n (i + 1) (params ++ [p]) s2) as [[s'|j ps s']|];
    eauto using inv_trans.
Qed.

End LoopInvariants.

Lemma power_signs_inv (fuel : nat) :
  forall sign s sign' s',
    power_signs fuel sign s = Some (sign', s') -> inv s s'.
Proof.
  induction fuel as [|fuel IH]; intros sign s sign' s'; simpl;
    destruct (additive s) as [t|]; intros H; try discriminate;
    try (inv H; apply inv_refl).
  apply bind_some in H; destruct H as (s1 & E1 & H).
  apply next_token_inv in E1. apply IH in H. eauto using inv_trans.
Qed.

Ltac step_bind H :=
  let x := fresh "s" in
  let E := fresh "E" in
  apply bind_some in H; destruct H as (x & E & H).

Ltac step_free H := apply bind_some in H; destruct H as ([] & _ & H).

Ltac inv_chain :=
  repeat match goal with
         | H : next_token _ = Some _ |- _ => apply next_token_inv in H
         | H : new_expr _ _ _ = (_, _) |- _ => apply new_expr_inv in H
         end;
  eauto using inv_trans, inv_refl, set_type_error_inv.

Lemma base_body_inv (power expr list_ : parser) :
  keeps power -> keeps expr -> keeps list_ -> keeps (base_body power expr list_).
Proof.
  intros Hp He Hl s r s'. unfold base_body.
  repeat break_if.
  - destruct (new_expr _ _ s) as [[n|] s1] eqn:E1; intros H.
    + step_bind H; inv H; inv_chain.
    + inv H; inv_chain.
  - destruct (new_expr _ _ s) as [[n|] s1] eqn:E1; intros H.
    + step_bind H; inv H; inv_chain.
    + inv H; inv_chain.
  - destruct (new_expr _ _ s) as [[n|] s1] eqn:E1; intros H.
    + step_bind H. destruct (s_type s0 =? TOK_OPEN)%Z.
      * step_bind H. destruct (negb (s_type s2 =? TOK_CLOSE)%Z).
        -- inv H; inv_chain.
        -- step_bind H; inv H; inv_chain.
      * inv H; inv_chain.
    + inv H; inv_chain.
  - intros H. step_bind H. step_bind H. destruct s1 as [p s2].
    apply Hp in E0.
    destruct p as [p|]; [|inv H; inv_chain].
    destruct (new_expr _ _ s2) as [[n|] s3] eqn:E3; inv H; inv_chain.
  - intros H. step_bind H. destruct (negb (s_type s0 =? TOK_OPEN)%Z).
    { inv H; inv_chain. }
    step_bind H.
    pose proof (@arguments_inv expr He (Z.to_nat (ARITY (s_type s))) 0 [] s0) as Ha.
    rewrite E0 in Ha.
    destruct s1 as [s2 | i params s2]; simpl in Ha; [inv H; inv_chain|].
    destruct (negb _ || negb _); [step_free H; inv H; inv_chain|].
    step_bind H.
    destruct (new_expr _ _ s1) as [[n|] s4] eqn:E4;
      [|step_free H]; inv H; inv_chain.
  - intros H. step_bind H. step_bind H. destruct s1 as [ret s2].
    apply Hl in E0.
    destruct ret as [n|]; [|inv H; inv_chain].
    destruct (negb (s_type s2 =? TOK_CLOSE)%Z); [inv H; inv_chain|].
    step_bind H; inv H; inv_chain.
  - destruct (new_expr _ _ s) as [[n|] s1] eqn:E1; intros H; inv H; inv_chain.
Qed.

Lemma power_body_inv (base : parser) (fuel : nat) :
  keeps base -> keeps (power_body base fuel).
Proof.
  intros Hb s r s' H. unfold power_body in H.
  step_bind H. destruct s0 as [sign s1]. apply power_signs_inv in E.
  destruct (sign =? 1)%Z; [apply Hb in H; inv_chain|].
  step_bind H. destruct s0 as [b s2]. apply Hb in E0.
  destruct b as [b|]; [|inv H; inv_chain].
  destruct (new_expr _ _ s2) as [[n|] s3] eqn:E3; inv H; inv_chain.
Qed.

Lemma chain_body_inv (continues : state -> option pointer) (operand : parser)
    (fuel : nat) :
  keeps operand -> keeps (chain_body continues operand fuel).
Proof.
  intros Ho s r s' H. unfold chain_body in H.
  step_bind H. destruct s0 as [ret s1]. pose proof (Ho _ _ _ E) as E'.
  destruct ret as [ret|]; [|inv H; inv_chain].
  apply (@binary_chain_inv operand Ho) in H. inv_chain.
Qed.

(** Every production keeps the frame, never raises the measure, and leaves
    an exhausted outcome list exhausted. *)
Lemma productions_inv (fuel : nat) :
  keeps (Parse.base fuel) /\ keeps (Parse.power fuel) /\
  keeps (Parse.factor fuel) /\ keeps (Parse.term fuel) /\
  keeps (Parse.expr fuel) /\ keeps (Parse.list fuel).
Proof.
  induction fuel as [|fuel (Hb & Hp & Hf & Ht & He & Hl)].
  - repeat match goal with |- _ /\ _ => split end;
      intros s r s' H; discriminate.
  - repeat match goal with |- _ /\ _ => split end; simpl.
    + apply base_body_inv; assumption.
    + apply power_body_inv; assumption.
    + apply chain_body_inv; assumption.
    + apply chain_body_inv; assumption.
    + apply chain_body_inv; assumption.
    + apply chain_body_inv; assumption.
Qed.

(* ------------------------------------------------------------------------- *)
(** ** The kinds of call tokens *)

Lemma new_expr_ok (type : Z) (ps : list te_expr) (s : state) :
  s_heap s = [] ->
  new_expr type ps s =
  (Some (Expr type (U_bound NULL) (firstn (Z.to_nat (ARITY type)) ps) NULL), s).
Proof. intros H. unfold new_expr, malloc. rewrite H. reflexivity. Qed.

Lemma ARITY_mask (type : Z) : ARITY type = ARITY (TYPE_MASK type).
Proof.
  unfold ARITY, TYPE_MASK.
  rewrite <- !Z.land_assoc. reflexivity.
Qed.

Lemma is_call_range (type : Z) :
  is_call type = true -> (8 <= TYPE_MASK type <= 23)%Z.
Proof.
  unfold is_call, is_function_kind, is_closure_kind. intros H.
  unfold TE_FUNCTION0, TE_FUNCTION7, TE_CLOSURE0, TE_CLOSURE7 in H.
  apply orb_true_iff in H. destruct H as [H|H];
    apply andb_true_iff in H; destruct H as [H1 H2];
    apply Z.leb_le in H1; apply Z.leb_le in H2; lia.
Qed.

(** The kind of a call token, by its arity. *)
Lemma call_kind (type : Z) :
  is_call type = true ->
  let m := TYPE_MASK type in
  (ARITY type = 0%Z /\ (m = TE_FUNCTION0 \/ m = TE_CLOSURE0)) \/
  (ARITY type = 1%Z /\ (m = TE_FUNCTION1 \/ m = TE_CLOSURE1)) \/
  ((2 <= ARITY type <= 7)%Z /\ m <> TE_FUNCTION0 /\ m <> TE_CLOSURE0 /\
   m <> TE_FUNCTION1 /\ m <> TE_CLOSURE1).
Proof.
  intros H m. pose proof (is_call_range type H) as Hr. fold m in Hr.
  rewrite ARITY_mask. fold m.
  assert (Hm : (m = 8 \/ m = 9 \/ m = 10 \/ m = 11 \/ m = 12 \/ m = 13 \/ m = 14
                \/ m = 15 \/ m = 16 \/ m = 17 \/ m = 18 \/ m = 19 \/ m = 20
                \/ m = 21 \/ m = 22 \/ m = 23)%Z) by lia.
  clearbody m.
  repeat (destruct Hm as [Hm|Hm]; [subst m; vm_compute; intuition congruence|]).
  subst m; vm_compute; intuition congruence.
Qed.

(** The branch of [base] that a call token of each arity takes. *)
Lemma base_body_arity0 (power expr list_ : parser) (s : state) :
  is_call (s_type s) = true -> ARITY (s_type s) = 0%Z -> s_heap s = [] ->
  base_body power expr list_ s =
  (let n := bind_callable (Expr (s_type s) (U_bound NULL) [] NULL) (s_type s)
                          (function (s_u s)) (s_context s) in
   s2 <- next_token s ;;
   if (s_type s2 =? TOK_OPEN)%Z then
     s3 <- next_token s2 ;;
     if negb (s_type s3 =? TOK_CLOSE)%Z
     then Some (Some n, set_type s3 TOK_ERROR)
     else s4 <- next_token s3 ;; Some (Some n, s4)
   else Some (Some n, s2)).
Proof.
  intros Hc Ha Hh. pose proof (is_call_range _ Hc) as Hr.
  destruct (call_kind _ Hc) as [(_ & Hm) | [(Ha' & _) | (Ha' & _)]]; try lia.
  unfold base_body.
  replace (TYPE_MASK (s_type s) =? TOK_NUMBER)%Z with false
    by (symmetry; apply Z.eqb_neq; unfold TOK_NUMBER, TOK_NULL, TE_CLOSURE7; lia).
  replace (TYPE_MASK (s_type s) =? TOK_VARIABLE)%Z with false
    by (symmetry; apply Z.eqb_neq; unfold TOK_VARIABLE, TOK_NULL, TE_CLOSURE7; lia).
  replace ((TYPE_MASK (s_type s) =? TE_FUNCTION0)%Z
           || (TYPE_MASK (s_type s) =? TE_CLOSURE0)%Z) with true
    by (symmetry; apply orb_true_iff; destruct Hm as [Hm|Hm]; rewrite Hm; auto).
  rewrite (new_expr_ok _ _ _ Hh). rewrite Ha. reflexivity.
Qed.

Lemma base_body_arity1 (power expr list_ : parser) (s : state) :
  is_call (s_type s) = true -> ARITY (s_type s) = 1%Z ->
  base_body power expr list_ s =
  (s1 <- next_token s ;;
   '(p, s2) <- power s1 ;;
   match p with
   | None => Some (None, s2)
   | Some p =>
       let '(ret, s3) := new_expr (s_type s) [p] s2 in
       match ret with
       | None => Some (None, s3)
       | Some n =>
           Some (Some (bind_callable n (s_type s) (function (s_u s)) (s_context s)),
                 s3)
       end
   end).
Proof.
  intros Hc Ha. pose proof (is_call_range _ Hc) as Hr.
  destruct (call_kind _ Hc) as [(Ha' & _) | [(_ & Hm) | (Ha' & _)]]; try lia.
  unfold base_body.
  replace (TYPE_MASK (s_type s) =? TOK_NUMBER)%Z with false
    by (symmetry; apply Z.eqb_neq; unfold TOK_NUMBER, TOK_NULL, TE_CLOSURE7; lia).
  replace (TYPE_MASK (s_type s) =? TOK_VARIABLE)%Z with false
    by (symmetry; apply Z.eqb_neq; unfold TOK_VARIABLE, TOK_NULL, TE_CLOSURE7; lia).
  replace ((TYPE_MASK (s_type s) =? TE_FUNCTION0)%Z
           || (TYPE_MASK (s_type s) =? TE_CLOSURE0)%Z) with false
    by (symmetry; apply orb_false_iff; destruct Hm as [Hm|Hm]; rewrite Hm; auto).
  replace ((TYPE_MASK (s_type s) =? TE_FUNCTION1)%Z
           || (TYPE_MASK (s_type s) =? TE_CLOSURE1)%Z) with true
    by (symmetry; apply orb_true_iff; destruct Hm as [Hm|Hm]; rewrite Hm; auto).
  reflexivity.
Qed.

Lemma base_body_arity2 (power expr list_ : parser) (s : state) :
  is_call (s_type s) = true -> (2 <= ARITY (s_type s))%Z ->
  base_body power expr list_ s =
  (s1 <- next_token s ;;
   if negb (s_type s1 =? TOK_OPEN)%Z then Some (None, set_type s1 TOK_ERROR)
   else
     r <- arguments expr (Z.to_nat (ARITY (s_type s))) 0 [] s1 ;;
     match r with
     | Arguments_null s2 => Some (None, s2)
     | Arguments_exit i params s2 =>
         if negb (s_type s2 =? TOK_CLOSE)%Z || negb (i =? ARITY (s_type s) - 1)%Z
         then
           'tt <- free_params (Z.to_nat (ARITY (s_type s))) params ;;
           Some (None, set_type s2 TOK_ERROR)
         else
           s3 <- next_token s2 ;;
           let '(ret, s4) := new_expr (s_type s) params s3 in
           match ret with
           | None =>
               'tt <- free_params (Z.to_nat (ARITY (s_type s))) params ;;
               Some (None, s4)
           | Some n =>
               Some (Some (bind_callable n (s_type s) (function (s_u s))
                                         (s_context s)), s4)
           end
     end).
Proof.
  intros Hc Ha. pose proof (is_call_range _ Hc) as Hr.
  destruct (call_kind _ Hc)
    as [(Ha' & _) | [(Ha' & _) | (_ & H0 & H0' & H1 & H1')]]; try lia.
  unfold base_body.
  replace (TYPE_MASK (s_type s) =? TOK_NUMBER)%Z with false
    by (symmetry; apply Z.eqb_neq; unfold TOK_NUMBER, TOK_NULL, TE_CLOSURE7; lia).
  replace (TYPE_MASK (s_type s) =? TOK_VARIABLE)%Z with false
    by (symmetry; apply Z.eqb_neq; unfold TOK_VARIABLE, TOK_NULL, TE_CLOSURE7; lia).
  replace ((TYPE_MASK (s_type s) =? TE_FUNCTION0)%Z
           || (TYPE_MASK (s_type s) =? TE_CLOSURE0)%Z) with false
    by (symmetry; apply orb_false_iff; split; apply Z.eqb_neq; assumption).
  replace ((TYPE_MASK (s_type s) =? TE_FUNCTION1)%Z
           || (TYPE_MASK (s_type s) =? TE_CLOSURE1)%Z) with false
    by (symmetry; apply orb_false_iff; split; apply Z.eqb_neq; assumption).
  unfold is_call in Hc. rewrite Hc. reflexivity.
Qed.

Lemma base_body_group (power expr list_ : parser) (s : state) :
  TYPE_MASK (s_type s) = TOK_OPEN ->
  base_body power expr list_ s =
  (s1 <- next_token s ;;
   '(ret, s2) <- list_ s1 ;;
   match ret with
   | None => Some (None, s2)
   | Some n =>
       if negb (s_type s2 =? TOK_CLOSE)%Z
       then Some (Some n, set_type s2 TOK_ERROR)
       else s3 <- next_token s2 ;; Some (Some n, s3)
   end).
Proof. intros Hm. unfold base_body. rewrite Hm. reflexivity. Qed.

Lemma kind_arity0 (t : Z) :
  (TYPE_MASK t =? TE_FUNCTION0)%Z || (TYPE_MASK t =? TE_CLOSURE0)%Z = true ->
  is_call t = true /\ ARITY t = 0%Z.
Proof.
  intros H. rewrite ARITY_mask. unfold is_call.
  apply orb_true_iff in H. destruct H as [H|H]; apply Z.eqb_eq in H; rewrite H;
    split; reflexivity.
Qed.

Lemma kind_arity1 (t : Z) :
  (TYPE_MASK t =? TE_FUNCTION1)%Z || (TYPE_MASK t =? TE_CLOSURE1)%Z = true ->
  is_call t = true /\ ARITY t = 1%Z.
Proof.
  intros H. rewrite ARITY_mask. unfold is_call.
  apply orb_true_iff in H. destruct H as [H|H]; apply Z.eqb_eq in H; rewrite H;
    split; reflexivity.
Qed.


(* ------------------------------------------------------------------------- *)
(** ** The slots of [params] *)

Lemma free_params_stored (params : list te_expr) (n : nat) :
  n <= List.length params -> free_params n params = Some tt.
Proof.
  induction n as [|n IH]; intros H; cbn [free_params]; [reflexivity|].
  destruct (nth_error params n) eqn:E.
  - apply IH. lia.
  - apply nth_error_None in E. lia.
Qed.


(** The slots the argument loop has stored to when it is left: one more
    than its counter, or as many as the turns it was allowed. *)
Lemma arguments_stored (operand : parser) (n : nat) :
  forall i acc s i' params s',
    arguments operand n i acc s = Some (Arguments_exit i' params s') ->
    (i <= i' <= i + Z.of_nat n)%Z /\
    Z.of_nat (List.length params) =
    (Z.of_nat (List.length acc) + Z.min (i' - i + 1) (Z.of_nat n))%Z.
Proof.
  induction n as [|n IH]; intros i acc s i' params s' H; cbn [arguments] in H.
  - inv H. lia.
  - apply bind_some in H. destruct H as (s1 & _ & H).
    apply bind_some in H. destruct H as ([p s2] & _ & H).
    destruct p as [p|]; [|discriminate H].
    destruct (negb (s_type s2 =? TOK_SEP)%Z).
    + inv H. rewrite length_app. simpl. lia.
    + apply IH in H. rewrite length_app in H. simpl in H. lia.
Qed.


(* ------------------------------------------------------------------------- *)
(** ** Termination: the fuel is enough *)

Lemma is_infix_live (fs : list cfun) : live (fun s => is_infix s fs).
Proof.
  intros s t. unfold is_infix.
  destruct (s_type s =? TOK_INFIX)%Z eqn:E; simpl; [|discriminate].
  apply Z.eqb_eq in E. rewrite E. reflexivity.
Qed.

Lemma separator_live : live separator.
Proof.
  intros s t. unfold separator.
  destruct (s_type s =? TOK_SEP)%Z eqn:E; [|discriminate].
  apply Z.eqb_eq in E. rewrite E. reflexivity.
Qed.















(* ------------------------------------------------------------------------- *)
(** ** The builtin registry *)

Lemma code_inj (a b : ascii) : code a = code b -> a = b.
Proof.
  unfold code. intros H. apply N2Z.inj in H.
  rewrite <- (ascii_N_embedding a), <- (ascii_N_embedding b). congruence.
Qed.

Lemma code_nonneg (a : ascii) : (0 <= code a)%Z.
Proof. unfold code. lia. Qed.

Lemma code_nul (a : ascii) : is_nul a = false -> (0 < code a)%Z.
Proof.
  intros H. pose proof (code_nonneg a).
  assert (code a <> 0%Z); [|lia].
  intros E. change 0%Z with (code NUL) in E. apply code_inj in E.
  unfold is_nul in H. rewrite E, Ascii.eqb_refl in H. discriminate.
Qed.

Lemma ascii_compare_code (a b : ascii) :
  OrdersEx.Ascii_as_OT.compare a b = (code a ?= code b)%Z.
Proof.
  unfold OrdersEx.Ascii_as_OT.compare, code.
  rewrite N2Z.inj_compare. reflexivity.
Qed.

(** The sign of [c] is the lexical order of the [len] characters of [name]
    against the entry's name. *)
Lemma builtin_compare_spec (len : nat) :
  forall name b,
    len <= strlen name -> no_nul b ->
    let key := substring 0 len name in
    let c := builtin_compare name len b in
    (c = 0%Z /\ key = b) \/ (c < 0 /\ name_lt key b)%Z \/ (c > 0 /\ name_lt b key)%Z.
Proof.
  unfold builtin_compare, name_lt, OrdersEx.String_as_OT.lt.
  induction len as [|len IH]; intros name b Hlen Hb; simpl.
  - replace (substring 0 0 name) with EmptyString by (destruct name; reflexivity).
    destruct b as [|cb r]; simpl; [auto|].
    unfold no_nul in Hb; simpl in Hb.
    destruct (is_nul cb) eqn:Hn; [discriminate|].
    pose proof (code_nul _ Hn). right; left. split; [|reflexivity].
    change (code NUL) with 0%Z. lia.
  - destruct name as [|cn rn]; simpl in Hlen; [lia|].
    destruct (is_nul cn) eqn:Hcn; [lia|].
    pose proof (code_nul _ Hcn) as Hpos.
    destruct b as [|cb rb]; simpl.
    + assert (E : Ascii.eqb cn NUL = false) by exact Hcn.
      rewrite E; simpl.
      change (code NUL) with 0%Z.
      destruct (code cn - 0 =? 0)%Z eqn:E0; [apply Z.eqb_eq in E0; lia|].
      right; right. split; [lia | reflexivity].
    + unfold no_nul in Hb; simpl in Hb.
      destruct (is_nul cb) eqn:Hcb; [discriminate|].
      rewrite ascii_compare_code, (ascii_compare_code cb cn).
      destruct (Ascii.eqb cn cb) eqn:Ecb; simpl.
      * apply Ascii.eqb_eq in Ecb; subst cb. rewrite Hcn, Z.compare_refl.
        destruct (IH rn rb) as [(H1 & H2) | [(H1 & H2) | (H1 & H2)]];
          [lia | unfold no_nul; lia | | |].
        -- left. split; [exact H1 | congruence].
        -- right; left. auto.
        -- right; right. auto.
      * assert (Hne : code cn <> code cb).
        { intros E. apply code_inj in E. subst cb.
          rewrite Ascii.eqb_refl in Ecb. discriminate. }
        destruct (code cn - code cb =? 0)%Z eqn:E0; [apply Z.eqb_eq in E0; lia|].
        destruct (Z.compare_spec (code cn) (code cb)) as [E|E|E]; [lia | |].
        -- right; left. split; [lia | reflexivity].
        -- right; right. split; [lia|].
           destruct (Z.compare_spec (code cb) (code cn)); [lia | reflexivity | lia].
Qed.

Lemma name_lt_irrefl (a : string) : ~ name_lt a a.
Proof. apply (StrictOrder_Irreflexive (R := OrdersEx.String_as_OT.lt)). Qed.

Lemma name_lt_trans (a b c : string) : name_lt a b -> name_lt b c -> name_lt a c.
Proof. apply (StrictOrder_Transitive (R := OrdersEx.String_as_OT.lt)). Qed.

(** The table is in strictly increasing order of name, as its comment asks,
    and no name holds a NUL. *)
Lemma functions_sorted : StronglySorted entry_lt functions.
Proof. unfold functions. repeat constructor. Qed.

Lemma functions_no_nul : Forall (fun v => no_nul (v_name v)) functions.
Proof. unfold functions. repeat constructor. Qed.

Lemma sorted_nth (d : te_variable) (tbl : list te_variable) :
  StronglySorted entry_lt tbl ->
  forall i j, i < j < List.length tbl -> entry_lt (nth i tbl d) (nth j tbl d).
Proof.
  induction 1 as [|a l Hs IH Ha]; intros i j Hij; simpl in *; [lia|].
  destruct j as [|j]; [lia|].
  destruct i as [|i].
  - rewrite Forall_forall in Ha. apply Ha. apply nth_In. lia.
  - apply IH. lia.
Qed.

Lemma find_named_at (key : string) (d : te_variable) (tbl : list te_variable) :
  StronglySorted entry_lt tbl ->
  forall i, i < List.length tbl -> v_name (nth i tbl d) = key ->
            find (named key) tbl = Some (nth i tbl d).
Proof.
  induction 1 as [|a l Hs IH Ha]; intros i Hi Hk; simpl in *; [lia|].
  destruct i as [|i].
  - unfold named at 1. rewrite Hk, String.eqb_refl. reflexivity.
  - unfold named at 1.
    destruct (String.eqb_spec (v_name a) key) as [E|E].
    + exfalso. rewrite Forall_forall in Ha.
      assert (Hin : In (nth i l d) l) by (apply nth_In; lia).
      specialize (Ha _ Hin). unfold entry_lt in Ha. rewrite Hk, E in Ha.
      exact (name_lt_irrefl _ Ha).
    + apply IH; [lia | exact Hk].
Qed.

Lemma find_named_none (key : string) (d : te_variable) (tbl : list te_variable) :
  (forall i, i < List.length tbl -> v_name (nth i tbl d) <> key) ->
  find (named key) tbl = None.
Proof.
  induction tbl as [|a l IH]; intros H; simpl; [reflexivity|].
  unfold named at 1.
  destruct (String.eqb_spec (v_name a) key) as [E|E].
  - exfalso. apply (H 0); simpl; [lia | exact E].
  - apply IH. intros i Hi. apply (H (S i)). simpl; lia.
Qed.

Lemma functions_at_nth (i : Z) (d : te_variable) :
  (0 <= i < Z.of_nat (List.length functions))%Z ->
  functions_at i = nth (Z.to_nat i) functions d.
Proof. intros H. unfold functions_at. apply nth_indep. lia. Qed.

#[local] Opaque functions functions_at.

(** The invariant of the bisection: every entry below [imin] is smaller than
    the key and every entry above [imax] is larger, so the loop ends on the
    entry of that name or with none left. *)
Lemma find_builtin_loop_spec (name : string) (len : nat) :
  len <= strlen name ->
  forall fuel imin imax,
    (0 <= imin)%Z -> (imax < Z.of_nat (List.length functions))%Z ->
    (imax - imin + 1 <= Z.of_nat fuel)%Z ->
    (forall j, (0 <= j < imin)%Z ->
               name_lt (v_name (functions_at j)) (substring 0 len name)) ->
    (forall j, (imax < j < Z.of_nat (List.length functions))%Z ->
               name_lt (substring 0 len name) (v_name (functions_at j))) ->
    find_builtin_loop fuel name len imin imax =
    Some (find (named (substring 0 len name)) functions).
Proof.
  intros Hlen. set (key := substring 0 len name).
  set (N := Z.of_nat (List.length functions)).
  assert (Hat : forall i j, (0 <= i < j)%Z -> (j < N)%Z ->
                  name_lt (v_name (functions_at i)) (v_name (functions_at j))).
  { intros i j Hij Hj.
    rewrite (functions_at_nth i (functions_at (-1))) by (subst N; lia).
    rewrite (functions_at_nth j (functions_at (-1))) by (subst N; lia).
    apply (sorted_nth _ _ functions_sorted). subst N. lia. }
  induction fuel as [|fuel IH]; intros imin imax Hmin Hmax Hf Hlo Hhi; simpl.
  - destruct (imax >=? imin)%Z eqn:E; [lia|].
    f_equal. symmetry. apply find_named_none with (d := functions_at (-1)).
    intros i Hi Hk.
    assert (Hj : functions_at (Z.of_nat i) = nth i functions (functions_at (-1))).
    { rewrite (functions_at_nth _ (functions_at (-1))) by lia.
      rewrite Nat2Z.id. reflexivity. }
    rewrite <- Hj in Hk.
    destruct (Z_lt_ge_dec (Z.of_nat i) imin) as [Hc|Hc].
    + specialize (Hlo (Z.of_nat i)). rewrite Hk in Hlo.
      apply (name_lt_irrefl key), Hlo. lia.
    + specialize (Hhi (Z.of_nat i)). rewrite Hk in Hhi.
      apply (name_lt_irrefl key), Hhi. subst N. lia.
  - destruct (imax >=? imin)%Z eqn:E.
    + set (i := (imin + Z.quot (imax - imin) 2)%Z).
      assert (Hq : (0 <= Z.quot (imax - imin) 2 <= imax - imin)%Z).
      { rewrite Z.quot_div_nonneg by lia.
        split; [apply Z.div_pos; lia | apply Z.div_le_upper_bound; lia]. }
      assert (Hi : (imin <= i <= imax)%Z) by (subst i; lia).
      assert (Hnn : no_nul (v_name (functions_at i))).
      { pose proof functions_no_nul as Hn. rewrite Forall_forall in Hn.
        apply Hn. rewrite (functions_at_nth _ (functions_at (-1))) by (subst N; lia).
        apply nth_In. subst N. lia. }
      pose proof (@builtin_compare_spec len name (v_name (functions_at i)) Hlen Hnn) as Hc.
      cbv zeta in Hc. unfold builtin_compare in Hc. fold key in Hc.
      change (code NUL) with 0%Z in Hc. rewrite Z.sub_0_l in Hc.
      set (c := if (strncmp name (v_name (functions_at i)) len =? 0)%Z
                then (- code (index (v_name (functions_at i)) len))%Z
                else strncmp name (v_name (functions_at i)) len) in *.
      destruct Hc as [(Hc & Hk) | [(Hc & Hk) | (Hc & Hk)]].
      * rewrite Hc; simpl. f_equal. symmetry.
        rewrite (functions_at_nth _ (functions_at (-1))) in * by (subst N; lia).
        apply (find_named_at _ _ _ functions_sorted); [subst N; lia|].
        symmetry; exact Hk.
      * destruct (c =? 0)%Z eqn:E0; [apply Z.eqb_eq in E0; lia|].
        destruct (c >? 0)%Z eqn:E1; [lia|].
        apply IH; try lia; [exact Hlo|].
        intros j Hj.
        destruct (Z.eq_dec j i) as [->|Hne]; [exact Hk|].
        apply (name_lt_trans _ _ _ Hk). apply Hat; lia.
      * destruct (c =? 0)%Z eqn:E0; [apply Z.eqb_eq in E0; lia|].
        destruct (c >? 0)%Z eqn:E1; [|lia].
        apply IH; try lia; [|exact Hhi].
        intros j Hj.
        destruct (Z.eq_dec j i) as [->|Hne]; [exact Hk|].
        apply (fun H => name_lt_trans _ _ _ H Hk). apply Hat; lia.
    + f_equal. symmetry. apply find_named_none with (d := functions_at (-1)).
      intros j Hj Hk.
      assert (Hjj : functions_at (Z.of_nat j) = nth j functions (functions_at (-1))).
      { rewrite (functions_at_nth _ (functions_at (-1))) by lia.
        rewrite Nat2Z.id. reflexivity. }
      rewrite <- Hjj in Hk.
      destruct (Z_lt_ge_dec (Z.of_nat j) imin) as [Hc|Hc].
      * specialize (Hlo (Z.of_nat j)). rewrite Hk in Hlo.
        apply (name_lt_irrefl key), Hlo. lia.
      * specialize (Hhi (Z.of_nat j)). rewrite Hk in Hhi.
        apply (name_lt_irrefl key), Hhi. subst N. lia.
Qed.

#[local] Transparent functions functions_at.

Lemma find_builtin_find (name : string) (len : nat) :
  len <= strlen name ->
  find_builtin name len = Some (find (named (substring 0 len name)) functions).
Proof.
  intros Hlen. unfold find_builtin.
  apply find_builtin_loop_spec; try lia; intros j Hj; lia.
Qed.

(** C9: [find_builtin(name, len)] returns the entry of the builtin table whose
    name is exactly the [len] characters at [name] when the table has one,
    and no entry otherwise; it is a bisection of a table that is sorted by
    name, and a function of its arguments alone. *)
Theorem find_builtin_exact (name : string) (len : nat) :
  len <= strlen name ->
  StronglySorted entry_lt functions /\
  exists r,
    find_builtin name len = Some r /\
    forall v, r = Some v <-> In v functions /\ v_name v = substring 0 len name.
Proof.
  intros Hlen. split; [exact functions_sorted|].
  exists (find (named (substring 0 len name)) functions).
  split; [apply find_builtin_find; exact Hlen|].
  intros v; split.
  - intros H. apply find_some in H. destruct H as (Hin & Hn).
    split; [exact Hin|]. apply String.eqb_eq. exact Hn.
  - intros (Hin & Hn).
    destruct (In_nth _ _ v Hin) as (i & Hi & Hv).
    rewrite <- Hv.
    apply (find_named_at _ v _ functions_sorted _ Hi). rewrite Hv. exact Hn.
Qed.

Lemma find_builtin_exact_witness :
  3 <= strlen "sin(1,2)" /\
  StronglySorted entry_lt functions /\
  exists r,
    find_builtin "sin(1,2)" 3 = Some r /\
    forall v, r = Some v <-> In v functions /\ v_name v = substring 0 3 "sin(1,2)".
Proof.
  assert (H : 3 <= strlen "sin(1,2)") by (simpl; lia).
  split; [exact H | exact (find_builtin_exact "sin(1,2)" 3 H)].
Defined.

(* ------------------------------------------------------------------------- *)
(** ** The evaluator on a null tree *)

(** C10: [te_eval] applied to a null tree returns [NAN], a NaN, in every
    world; it has no other way out on that input. *)
Theorem te_eval_null (W : world) :
  te_eval W None = NAN /\ PrimFloat.is_nan (te_eval W None) = true.
Proof. split; reflexivity. Qed.

(* ------------------------------------------------------------------------- *)
(** ** Identifier resolution *)

Lemma find_lookup_loop_find (name : string) (len : nat) :
  forall iters var,
    find_lookup_loop var iters name len = find (matches name len) (firstn iters var).
Proof.
  induction iters as [|iters IH]; intros [|v var]; simpl; try reflexivity.
  fold (matches name len v). destruct (matches name len v); [reflexivity | apply IH].
Qed.

Lemma matches_exact (name : string) (len : nat) (v : te_variable) :
  len <= strlen name -> no_nul (v_name v) ->
  matches name len v = named (substring 0 len name) v.
Proof.
  intros Hlen Hv.
  pose proof (@builtin_compare_spec len name (v_name v) Hlen Hv) as H.
  cbv zeta in H. unfold builtin_compare in H. unfold matches, named.
  change (code NUL) with 0%Z in H. rewrite Z.sub_0_l in H.
  destruct (strncmp name (v_name v) len =? 0)%Z eqn:E0; simpl;
    try rewrite E0 in H.
  - destruct (is_nul (index (v_name v) len)) eqn:En.
    + unfold is_nul in En. apply Ascii.eqb_eq in En. rewrite En in H.
      change (- code NUL)%Z with 0%Z in H.
      destruct H as [(_ & Hk) | [(Hc & _) | (Hc & _)]]; try lia.
      rewrite Hk. symmetry. apply String.eqb_refl.
    + pose proof (code_nul _ En) as Hp.
      destruct H as [(Hc & _) | [(_ & Hk) | (Hc & _)]]; try lia.
      symmetry. apply String.eqb_neq. intros Heq. rewrite Heq in Hk.
      exact (name_lt_irrefl _ Hk).
  - apply Z.eqb_neq in E0.
    destruct H as [(Hc & _) | [(_ & Hk) | (_ & Hk)]]; try lia;
      symmetry; apply String.eqb_neq; intros Heq; rewrite Heq in Hk;
      exact (name_lt_irrefl _ Hk).
Qed.

Lemma scan_identifier_strlen (p : string) :
  ptrdiff (scan_identifier p) p <= strlen p.
Proof.
  unfold ptrdiff.
  assert (H : String.length p <= String.length (scan_identifier p) + strlen p);
    [|lia].
  induction p as [|c r IH]; simpl; [lia|].
  destruct (isalpha c || isdigit c || Ascii.eqb c "_") eqn:E; simpl; [|lia].
  assert (Hn : is_nul c = false).
  { destruct (is_nul c) eqn:En; [|reflexivity].
    unfold is_nul in En. apply Ascii.eqb_eq in En. subst c. discriminate. }
  rewrite Hn. lia.
Qed.

Lemma find_ext_in (A : Type) (f g : A -> bool) (l : list A) :
  Forall (fun x => f x = g x) l -> find f l = find g l.
Proof.
  induction 1 as [|x l Hx _ IH]; simpl; [reflexivity|].
  rewrite Hx, IH. reflexivity.
Qed.

Lemma Forall_firstn (A : Type) (P : A -> Prop) (n : nat) (l : list A) :
  Forall P l -> Forall P (firstn n l).
Proof.
  intros H. revert n. induction H as [|x l Hx _ IH]; intros [|n]; simpl; auto.
Qed.

Lemma identifier_token_type (v : te_variable) (s : state) :
  handled (v_type v) = true -> (s_type (identifier_token v s) =? TOK_NULL)%Z = false.
Proof.
  unfold handled, identifier_token. intros H.
  destruct (TYPE_MASK (v_type v) =? TE_VARIABLE)%Z; simpl; [reflexivity|].
  assert (Hne : is_function_kind (TYPE_MASK (v_type v))
                || is_closure_kind (TYPE_MASK (v_type v)) = true ->
                (v_type v =? TOK_NULL)%Z = false).
  { intros Hk. destruct (v_type v =? TOK_NULL)%Z eqn:E; [|reflexivity].
    apply Z.eqb_eq in E. rewrite E in Hk. discriminate. }
  simpl in H.
  destruct (is_closure_kind (TYPE_MASK (v_type v))) eqn:Ec; simpl.
  - apply Hne. apply orb_true_r.
  - destruct (is_function_kind (TYPE_MASK (v_type v))) eqn:Ef; simpl.
    + apply Hne. reflexivity.
    + discriminate.
Qed.

(** C6: at an identifier, the caller's table is scanned first, in order, and
    its first entry of that name makes the token whatever the builtin table
    holds; the builtin table is consulted only when the caller's table has no
    entry of that name. *)
Theorem lookup_shadows_builtins (s : state) (vars : list te_variable) :
  let s1 := set_next s (scan_identifier (s_next s)) in
  let key := substring 0 (ptrdiff (s_next s1) (s_next s)) (s_next s) in
  isalpha (deref (s_next s)) = true ->
  s_lookup s = Some vars ->
  Forall (fun v => no_nul (v_name v)) vars ->
  (forall v,
      find (named key) (firstn (s_lookup_len s) vars) = Some v ->
      next_token_body s = Some (false, identifier_token v s1) /\
      (handled (v_type v) = true ->
       next_token s = Some (identifier_token v (set_type s1 TOK_NULL)))) /\
  (find (named key) (firstn (s_lookup_len s) vars) = None ->
   next_token_body s =
   Some (false, match find (named key) functions with
                | Some b => identifier_token b s1
                | None => set_type s1 TOK_ERROR
                end)).
Proof.
  intros s1 key Halpha Hl Hnn.
  set (len := ptrdiff (s_next s1) (s_next s)).
  assert (Hlen : len <= strlen (s_next s)) by apply scan_identifier_strlen.
  assert (Hnum : isdigit (deref (s_next s)) || Ascii.eqb (deref (s_next s)) "." = false).
  { destruct (s_next s) as [|c r]; simpl in *; [discriminate|].
    unfold isalpha in Halpha. unfold isdigit.
    destruct (Ascii.eqb_spec c "."); [subst c; discriminate|].
    destruct (48 <=? code c)%Z eqn:E1, (code c <=? 57)%Z eqn:E2; simpl; auto.
    exfalso. apply Z.leb_le in E1, E2.
    apply orb_true_iff in Halpha.
    destruct Halpha as [H|H]; apply andb_true_iff in H; destruct H as [H1 H2];
      apply Z.leb_le in H1, H2; lia. }
  assert (Hnul : is_nul (deref (s_next s)) = false).
  { destruct (is_nul (deref (s_next s))) eqn:E; [|reflexivity].
    unfold is_nul in E. apply Ascii.eqb_eq in E. rewrite E in Halpha. discriminate. }
  assert (Hfind : forall t, find_lookup (set_type s1 t) (s_next s) len =
                       find (named key) (firstn (s_lookup_len s) vars)).
  { intros t. unfold find_lookup; simpl. rewrite Hl, find_lookup_loop_find.
    apply find_ext_in. apply Forall_firstn.
    rewrite Forall_forall in *. intros v Hv.
    apply matches_exact; auto. }
  assert (Hbody : forall t,
             next_token_body (set_type s t) =
             match find (named key) (firstn (s_lookup_len s) vars) with
             | Some v => Some (false, identifier_token v (set_type s1 t))
             | None =>
                 var <- find_builtin (s_next s) len ;;
                 match var with
                 | None => Some (false, set_type (set_type s1 t) TOK_ERROR)
                 | Some v => Some (false, identifier_token v (set_type s1 t))
                 end
             end).
  { intros t. unfold next_token_body; simpl.
    rewrite Hnul, Hnum, Halpha.
    change (set_next (set_type s t) (scan_identifier (s_next s)))
      with (set_type s1 t).
    change (ptrdiff (s_next (set_type s1 t)) (s_next s)) with len.
    rewrite Hfind.
    destruct (find (named key) (firstn (s_lookup_len s) vars)); reflexivity. }
  assert (Hs : forall x : state, set_type x (s_type x) = x) by (intros []; reflexivity).
  split.
  - intros v Hv. split.
    + rewrite <- (Hs s) at 1. rewrite Hbody, Hv.
      change (set_type s1 (s_type s)) with (set_type s1 (s_type s1)).
      rewrite Hs. reflexivity.
    + intros Hh. unfold next_token. simpl. rewrite Hbody, Hv. simpl.
      rewrite (@identifier_token_type v _ Hh). reflexivity.
  - intros Hn. rewrite <- (Hs s) at 1. rewrite Hbody, Hn.
    rewrite (find_builtin_find _ _ Hlen). unfold bind.
    change (substring 0 len (s_next s)) with key.
    change (set_type s1 (s_type s))
      with (set_type s1 (s_type s1)).
    rewrite Hs.
    destruct (find (named key) functions); reflexivity.
Qed.

Lemma lookup_shadows_builtins_witness :
  isalpha (deref (s_next shadow_state)) = true /\
  find (named "pi") (firstn 1 [caller_pi]) = Some caller_pi /\
  find (named "pi") functions = Some (builtin "pi" Fpi (Z.lor TE_FUNCTION0 TE_FLAG_PURE)) /\
  next_token shadow_state =
  Some (State "pi*2" "*2" TOK_VARIABLE (U_bound (Addr 7)) NULL (Some [caller_pi]) 1 []).
Proof.
  assert (Ha : isalpha (deref (s_next shadow_state)) = true) by reflexivity.
  assert (Hn : Forall (fun v => no_nul (v_name v)) [caller_pi])
    by (repeat constructor).
  destruct (@lookup_shadows_builtins shadow_state [caller_pi] Ha eq_refl Hn)
    as [H _].
  destruct (H caller_pi eq_refl) as [_ H2].
  split; [exact Ha|]. split; [reflexivity|]. split; [reflexivity|].
  exact (H2 eq_refl).
Defined.

(** With the caller's ["pi"] in the table, ["pi"] compiles to a reference to
    the caller's storage, not to the builtin constant. *)
Example shadowing_pi_compiles (W : world) :
  te_compile W [] "pi" (Some [caller_pi]) 1 =
  Some (Some (Expr TE_VARIABLE (U_bound (Addr 7)) [] NULL), 0%Z) /\
  te_compile W [] "pi" None 0 =
  Some (Some (Expr TE_CONSTANT (U_value pi) [] NULL), 0%Z).
Proof. split; vm_compute; reflexivity. Qed.

(* ------------------------------------------------------------------------- *)
(** ** The optimizer *)

Lemma te_expr_forall_ind (P : te_expr -> Prop) :
  (forall type u ps c, Forall P ps -> P (Expr type u ps c)) ->
  forall n, P n.
Proof.
  intros H. fix IH 1. intros [type u ps c]. apply H.
  induction ps as [|p ps IHps]; constructor; [apply IH | exact IHps].
Qed.

Lemma map_first_all (A : Type) (f : A -> A) (l : list A) :
  forall k, List.length l <= k -> map_first f k l = map f l.
Proof.
  induction l as [|x l IH]; intros k Hk; simpl in *; [reflexivity|].
  destruct k as [|k]; [lia|]. rewrite IH by lia. reflexivity.
Qed.

Lemma first_values_map_first (W : world) (f : te_expr -> te_expr) (ps : list te_expr) :
  Forall (fun p => eval W (f p) = eval W p) ps ->
  forall k,
    first_values k (map (eval W) (map_first f k ps)) =
    first_values k (map (eval W) ps).
Proof.
  induction 1 as [|p ps Hp _ IH]; intros k; simpl; [reflexivity|].
  destruct k as [|k]; simpl; [reflexivity|]. rewrite Hp, IH. reflexivity.
Qed.

Lemma eval_parameters (W : world) (type : Z) (u : union) (c : pointer)
    (ps ps' : list te_expr) :
  first_values (Z.to_nat (ARITY type)) (map (eval W) ps') =
  first_values (Z.to_nat (ARITY type)) (map (eval W) ps) ->
  eval W (Expr type u ps' c) = eval W (Expr type u ps c).
Proof. intros H. simpl. rewrite H. reflexivity. Qed.

(** Folding does not change what a tree evaluates to. *)
Lemma eval_optimize (W : world) (n : te_expr) :
  eval W (optimize W n) = eval W n.
Proof.
  induction n as [type u ps c IH] using te_expr_forall_ind.
  cbn [optimize].
  destruct (type =? TE_CONSTANT)%Z; [reflexivity|].
  destruct (type =? TE_VARIABLE)%Z; [reflexivity|].
  destruct (IS_PURE type); [|reflexivity].
  pose proof (@first_values_map_first W (optimize W) ps IH (Z.to_nat (ARITY type))) as Hv.
  apply (eval_parameters W type u c) in Hv.
  destruct (forallb _ _); [|exact Hv].
  rewrite <- Hv. reflexivity.
Qed.

Lemma is_call_not_leaf (type : Z) :
  is_call type = true ->
  (type =? TE_CONSTANT)%Z = false /\ (type =? TE_VARIABLE)%Z = false.
Proof.
  intros H. split.
  - destruct (type =? TE_CONSTANT)%Z eqn:E; [|reflexivity].
    apply Z.eqb_eq in E. subst type. discriminate.
  - destruct (type =? TE_VARIABLE)%Z eqn:E; [|reflexivity].
    apply Z.eqb_eq in E. subst type. discriminate.
Qed.

(** C5: on a [Call] node with its [ARITY] children, [optimize] first
    optimizes every child when the node is flagged pure, and then puts a
    [Constant] that holds the node's value in its place exactly when every
    optimized child is a [Constant]; a [Call] node that is not flagged pure
    is returned as it is, children included.  Compiling ["1+2*3"] therefore
    yields the single node [Constant 7]. *)
Theorem optimize_folds_pure_calls (W : world) (type : Z) (u : union)
    (ps : list te_expr) (c : pointer) :
  is_call type = true ->
  List.length ps = Z.to_nat (ARITY type) ->
  (IS_PURE type = true ->
   optimize W (Expr type u ps c) =
   if forallb is_constant (map (optimize W) ps)
   then Expr TE_CONSTANT (U_value (eval W (Expr type u ps c))) [] c
   else Expr type u (map (optimize W) ps) c) /\
  (IS_PURE type = false -> optimize W (Expr type u ps c) = Expr type u ps c) /\
  te_compile W [] "1+2*3" None 0 =
  Some (Some (Expr TE_CONSTANT (U_value 7) [] NULL), 0%Z).
Proof.
  intros Hcall Hlen.
  destruct (is_call_not_leaf _ Hcall) as (Hc & Hv).
  split; [|split].
  - intros Hp. cbn [optimize]. rewrite Hc, Hv, Hp.
    rewrite map_first_all by lia.
    rewrite firstn_all2 by (rewrite length_map; lia).
    fold is_constant.
    destruct (forallb is_constant (map (optimize W) ps)) eqn:E; [|reflexivity].
    f_equal. f_equal. apply eval_parameters.
    rewrite <- (map_first_all _ (optimize W) ps (Z.to_nat (ARITY type))) by lia.
    apply first_values_map_first.
    rewrite Forall_forall. intros p _. apply eval_optimize.
  - intros Hp. cbn [optimize]. rewrite Hc, Hv, Hp. reflexivity.
  - vm_compute. reflexivity.
Qed.

Lemma optimize_folds_pure_calls_witness :
  optimize bare_world
    (Expr (Z.lor TE_FUNCTION2 TE_FLAG_PURE) (U_function (Cfun Fadd))
          [Expr TE_CONSTANT (U_value 1) [] NULL;
           Expr (Z.lor TE_FUNCTION2 TE_FLAG_PURE) (U_function (Cfun Fmul))
                [Expr TE_CONSTANT (U_value 2) [] NULL;
                 Expr TE_CONSTANT (U_value 3) [] NULL] NULL] NULL) =
  Expr TE_CONSTANT (U_value 7) [] NULL.
Proof.
  destruct (@optimize_folds_pure_calls bare_world
              (Z.lor TE_FUNCTION2 TE_FLAG_PURE) (U_function (Cfun Fadd))
              [Expr TE_CONSTANT (U_value 1) [] NULL;
               Expr (Z.lor TE_FUNCTION2 TE_FLAG_PURE) (U_function (Cfun Fmul))
                    [Expr TE_CONSTANT (U_value 2) [] NULL;
                     Expr TE_CONSTANT (U_value 3) [] NULL] NULL] NULL
              eq_refl eq_refl) as (H & _ & _).
  rewrite (H eq_refl). vm_compute. reflexivity.
Defined.

(** A constant expression below a call that is not flagged pure stays as it
    was parsed. *)
Example impure_call_not_folded (W : world) :
  te_compile W [] "f(1+2)" (Some [Variable_ "f" (Addr 3) TE_FUNCTION1 NULL]) 1 =
  Some (Some (Expr TE_FUNCTION1 (U_function (Addr 3))
                [Expr (Z.lor TE_FUNCTION2 TE_FLAG_PURE) (U_function (Cfun Fadd))
                   [Expr TE_CONSTANT (U_value 1) [] NULL;
                    Expr TE_CONSTANT (U_value 2) [] NULL] NULL] NULL), 0%Z).
Proof. vm_compute. reflexivity. Qed.

(* ------------------------------------------------------------------------- *)
(** ** Binary chains *)


Lemma binary_chain_step (continues : state -> option pointer) (operand : parser)
    (fuel : nat) (a b : te_expr) (t : pointer) (s s1 s2 : state) :
  continues s = Some t -> next_token s = Some s1 ->
  operand s1 = Some (Some b, s2) -> s_heap s2 = [] ->
  binary_chain continues operand (S fuel) a s =
  binary_chain continues operand fuel (call2 t a b) s2.
Proof.
  intros Hc Hn Ho Hh. cbn [binary_chain]. rewrite Hc, Hn. cbn [bind].
  rewrite Ho. cbn [bind]. rewrite (new_expr_ok _ _ _ Hh). reflexivity.
Qed.

Lemma binary_chain_stop (continues : state -> option pointer) (operand : parser)
    (fuel : nat) (a : te_expr) (s : state) :
  continues s = None ->
  binary_chain continues operand fuel a s = Some (Some a, s).
Proof. intros Hc. destruct fuel; cbn [binary_chain]; rewrite Hc; reflexivity. Qed.



(** The other levels on concrete sources, before folding: [*], [/] and [%]
    share a level, [^] associates to the left in the default build, and the
    comma chain does too. *)
Example chains_on_sources :
  (exists s0, next_token (start_state "8/4*2") = Some s0 /\
     option_map fst (Parse.list 40 s0) =
     Some (Some (call2 (Cfun Fmul) (call2 (Cfun Fdivide) (constant 8) (constant 4))
                       (constant 2)))) /\
  (exists s0, next_token (start_state "2^3^2") = Some s0 /\
     option_map fst (Parse.list 40 s0) =
     Some (Some (call2 (Cfun Fpow) (call2 (Cfun Fpow) (constant 2) (constant 3))
                       (constant 2)))) /\
  (exists s0, next_token (start_state "1,2,3") = Some s0 /\
     option_map fst (Parse.list 40 s0) =
     Some (Some (call2 (Cfun Fcomma) (call2 (Cfun Fcomma) (constant 1) (constant 2))
                       (constant 3)))).
Proof.
  repeat split; eexists; (split; [vm_compute; reflexivity|]); vm_compute; reflexivity.
Qed.

(* ------------------------------------------------------------------------- *)
(** ** Unary signs *)

Lemma power_signs_run (s s' : state) (ts : list pointer) :
  sign_run s ts s' ->
  forall fuel sign,
    List.length ts <= fuel ->
    power_signs fuel sign s =
    Some (if Nat.odd (minuses ts) then (- sign)%Z else sign, s').
Proof.
  induction 1 as [s Hs | s s1 s' t ts Ht Hn Hrun IH]; intros fuel sign Hf.
  - destruct fuel; cbn [power_signs]; rewrite Hs; reflexivity.
  - destruct fuel as [|fuel]; [simpl in Hf; lia|].
    cbn [power_signs]. rewrite Ht, Hn. cbn [bind].
    rewrite IH by (simpl in Hf; lia).
    unfold minuses. cbn [filter].
    destruct (pointer_eqb t (Cfun Fsub)); cbn [List.length]; [|reflexivity].
    rewrite Nat.odd_succ, <- Nat.negb_odd.
    destruct (Nat.odd _); cbn [negb]; [rewrite Z.opp_involutive|]; reflexivity.
Qed.

(** C8: after any run of leading signs, [power] yields the base itself when
    the number of ['-'] signs is even, and one negation node over the base
    when it is odd; a base that is [NULL] stays [NULL].  The base is parsed
    after the signs are counted, so ["-sin(x)"] is the negation of the call
    [sin(x)]. *)
Theorem power_collapses_signs (fuel : nat) (s s' : state) (ts : list pointer) :
  sign_run s ts s' ->
  List.length ts <= fuel ->
  (Nat.even (minuses ts) = true -> Parse.power (S fuel) s = Parse.base fuel s') /\
  (Nat.odd (minuses ts) = true ->
   forall s'',
     (forall b, Parse.base fuel s' = Some (Some b, s'') -> s_heap s'' = [] ->
                Parse.power (S fuel) s = Some (Some (negation b), s'')) /\
     (Parse.base fuel s' = Some (None, s'') ->
      Parse.power (S fuel) s = Some (None, s''))) /\
  forall W,
    te_compile W [] "-sin(x)" (Some [Variable_ "x" (Addr 0) TE_VARIABLE NULL]) 1 =
    Some (Some (negation
                  (Expr (Z.lor TE_FUNCTION1 TE_FLAG_PURE) (U_function (Cfun Fsin))
                        [Expr TE_VARIABLE (U_bound (Addr 0)) [] NULL] NULL)), 0%Z).
Proof.
  intros Hrun Hf.
  pose proof (power_signs_run s s' ts Hrun fuel 1%Z Hf) as Hs.
  split; [|split].
  - intros He. rewrite <- Nat.negb_odd in He. apply negb_true_iff in He.
    rewrite He in Hs. cbn [Parse.power]. unfold power_body. rewrite Hs.
    reflexivity.
  - intros Ho s''. rewrite Ho in Hs. split.
    + intros b Hb Hh. cbn [Parse.power]. unfold power_body. rewrite Hs.
      cbn [bind]. change (- (1) =? 1)%Z with false. cbv iota. rewrite Hb.
      cbn [bind]. rewrite (new_expr_ok _ _ _ Hh). reflexivity.
    + intros Hb. cbn [Parse.power]. unfold power_body. rewrite Hs.
      cbn [bind]. change (- (1) =? 1)%Z with false. cbv iota. rewrite Hb.
      reflexivity.
  - intros W. vm_compute. reflexivity.
Qed.

Lemma power_collapses_signs_witness :
  Parse.power 21
    (State "-sin(x)" "sin(x)" TOK_INFIX (U_function (Cfun Fsub)) NULL table_x 1 []) =
  Some (Some (negation
                (Expr (Z.lor TE_FUNCTION1 TE_FLAG_PURE) (U_function (Cfun Fsin))
                      [Expr TE_VARIABLE (U_bound (Addr 0)) [] NULL] NULL)),
        State "-sin(x)" "" TOK_END (U_bound (Addr 0)) NULL table_x 1 []).
Proof.
  assert (Hrun : sign_run
            (State "-sin(x)" "sin(x)" TOK_INFIX (U_function (Cfun Fsub)) NULL table_x 1 [])
            [Cfun Fsub]
            (State "-sin(x)" "(x)" (Z.lor TE_FUNCTION1 TE_FLAG_PURE)
                   (U_function (Cfun Fsin)) NULL table_x 1 [])).
  { eapply sign_run_cons; [vm_compute; reflexivity | vm_compute; reflexivity |].
    apply sign_run_nil. vm_compute; reflexivity. }
  assert (Hlen : List.length [Cfun Fsub] <= 20) by (simpl; lia).
  destruct (power_collapses_signs 20 _ _ _ Hrun Hlen) as (_ & Hodd & _).
  destruct (Hodd eq_refl
              (State "-sin(x)" "" TOK_END (U_bound (Addr 0)) NULL table_x 1 []))
    as (H & _).
  apply H; vm_compute; reflexivity.
Defined.

(** Two ['-'] signs cancel, and ['+'] signs count for nothing. *)
Example signs_on_sources (W : world) :
  te_compile W [] "--x" table_x 1 =
  Some (Some (Expr TE_VARIABLE (U_bound (Addr 0)) [] NULL), 0%Z) /\
  te_compile W [] "-+-+-x" table_x 1 =
  Some (Some (negation (Expr TE_VARIABLE (U_bound (Addr 0)) [] NULL)), 0%Z).
Proof. split; vm_compute; reflexivity. Qed.

(* ------------------------------------------------------------------------- *)
(** ** What a production passes up from the productions it calls *)

Lemma chain_calls_no_tree (continues : state -> option pointer) (operand : parser)
    (fuel : nat) (ret : te_expr) (s s' : state) :
  chain_calls continues operand fuel ret s s' ->
  no_tree (operand s') ->
  binary_chain continues operand fuel ret s = operand s'.
Proof.
  induction 1 as [fuel ret s s1 t Hc Hn
                 | fuel ret p n s s1 s2 s3 s' t Hc Hn Ho He Hcalls IH];
    intros Hx; cbn [binary_chain]; rewrite Hc, Hn; cbn [bind].
  - destruct (operand s1) as [[[n|] x]|];
      [exfalso; exact (Hx n x eq_refl) | reflexivity | reflexivity].
  - rewrite Ho. cbn [bind]. rewrite He. apply IH. exact Hx.
Qed.

Lemma argument_calls_no_tree (operand : parser) (n : nat) (s s' : state) :
  argument_calls operand n s s' ->
  no_tree (operand s') ->
  forall i acc,
    arguments operand n i acc s =
    match operand s' with
    | Some (_, x) => Some (Arguments_null x)
    | None => None
    end.
Proof.
  induction 1 as [n s s1 Hn | n s s1 s2 s' p Hn Ho Hs Hcalls IH];
    intros Hx i acc; cbn [arguments]; rewrite Hn; cbn [bind].
  - destruct (operand s1) as [[[m|] x]|];
      [exfalso; exact (Hx m x eq_refl) | reflexivity | reflexivity].
  - rewrite Ho. cbn [bind]. rewrite Hs.
    change (negb (TOK_SEP =? TOK_SEP)%Z) with false. cbv iota.
    apply IH. exact Hx.
Qed.

(** A production that gets no tree from a production it calls returns what
    it got: [NULL] with the state as it was left, or nothing. *)
Lemma enters_no_tree (p q : production) (f g : nat) (s t : state) :
  enters p f s q g t -> no_tree (run q g t) -> run p f s = run q g t.
Proof.
  intros H.
  destruct H as [l fuel s | l fuel s s1 s' ret Ho Hcalls | fuel s s1 sign Hsigns
                | fuel s s1 Hc Ha Hn | fuel s s1 s' Hc Ha Hn Hopen Hcalls
                | fuel s s1 Hm Hn]; intros Hx.
  - destruct l; cbn [run chain_at operand_at] in *;
      cbn [Parse.list Parse.expr Parse.term Parse.factor]; unfold chain_body;
      match goal with
      | |- context [bind ?m _] =>
          destruct m as [[[n|] x]|];
          [exfalso; exact (Hx n x eq_refl) | reflexivity | reflexivity]
      end.
  - destruct l; cbn [run chain_at operand_at operand_of operator_of] in *;
      cbn [Parse.list Parse.expr Parse.term Parse.factor]; unfold chain_body;
      rewrite Ho; cbn [bind]; apply chain_calls_no_tree; assumption.
  - cbn [run] in *. cbn [Parse.power]. unfold power_body.
    rewrite Hsigns. cbn [bind].
    destruct (sign =? 1)%Z; [reflexivity|].
    destruct (Parse.base fuel s1) as [[[n|] x]|];
      [exfalso; exact (Hx n x eq_refl) | reflexivity | reflexivity].
  - cbn [run] in *. cbn [Parse.base].
    rewrite (base_body_arity1 _ _ _ s Hc Ha), Hn. cbn [bind].
    destruct (Parse.power fuel s1) as [[[n|] x]|];
      [exfalso; exact (Hx n x eq_refl) | reflexivity | reflexivity].
  - cbn [run] in *. cbn [Parse.base].
    rewrite (base_body_arity2 _ _ _ s Hc Ha), Hn. cbn [bind].
    rewrite Hopen. change (negb (TOK_OPEN =? TOK_OPEN)%Z) with false. cbv iota.
    rewrite (argument_calls_no_tree _ _ _ _ Hcalls Hx).
    destruct (Parse.expr fuel s') as [[[n|] x]|];
      [exfalso; exact (Hx n x eq_refl) | reflexivity | reflexivity].
  - cbn [run] in *. cbn [Parse.base].
    rewrite (base_body_group _ _ _ s Hm), Hn. cbn [bind].
    destruct (Parse.list fuel s1) as [[[n|] x]|];
      [exfalso; exact (Hx n x eq_refl) | reflexivity | reflexivity].
Qed.

Lemma reaches_no_tree (p q : production) (f g : nat) (s t : state) :
  reaches p f s q g t -> no_tree (run q g t) -> run p f s = run q g t.
Proof.
  induction 1 as [p f s | p q r f g h s t u He Hr IH]; intros Hx; [reflexivity|].
  specialize (IH Hx). rewrite <- IH.
  apply (enters_no_tree _ _ _ _ _ _ He). rewrite IH. exact Hx.
Qed.

(** So a call of [base] that gives no tree decides the compilation: [NULL]
    from it is [NULL] from [te_compile], and no result is no result. *)
Lemma te_compile_no_tree (W : world) (heap : list bool) (expression : string)
    (variables : option (list te_variable)) (var_count : nat) (fuel : nat)
    (s : state) :
  calls_base heap expression variables var_count fuel s ->
  no_tree (Parse.base fuel s) ->
  te_compile W heap expression variables var_count =
  match Parse.base fuel s with
  | Some _ => Some (None, (-1)%Z)
  | None => None
  end.
Proof.
  intros (s0 & Hf & Hr) Hx. unfold te_compile. unfold first_token in Hf.
  rewrite Hf. cbn [bind].
  change (Parse.list (parse_fuel expression) s0)
    with (run Plist (parse_fuel expression) s0).
  rewrite (reaches_no_tree _ _ _ _ _ _ Hr Hx). cbn [run] in *.
  destruct (Parse.base fuel s) as [[[n|] x]|];
    [exfalso; exact (Hx n x eq_refl) | reflexivity | reflexivity].
Qed.

Lemma no_tree_null (s : state) : no_tree (Some (None, s)).
Proof. intros n x H. discriminate H. Qed.


(* ------------------------------------------------------------------------- *)
(** ** The error code *)

Lemma to_int_fits (W : world) (d : Z) : (d <= INT_MAX W)%Z -> to_int W d = d.
Proof. intros H. unfold to_int. apply Z.leb_le in H. rewrite H. reflexivity. Qed.

Lemma to_int_small (W : world) (d : Z) : (d <= 32767)%Z -> to_int W d = d.
Proof. intros H. apply to_int_fits. pose proof (INT_MAX_least W). lia. Qed.

(** With the [int] of 16 bits of a DOS compiler, 40000 consumed characters
    are reported as a negative number, and 65536 as none. *)
Example to_int_wraps :
  to_int bare_world 40000 = (-25536)%Z /\ to_int bare_world 65536 = 0%Z.
Proof. split; reflexivity. Qed.

(** What [te_compile] does with what the parser returns. *)
Lemma te_compile_tree (W : world) (heap : list bool) (expression : string)
    (variables : option (list te_variable)) (var_count : nat)
    (s0 s' : state) (tree : te_expr) :
  first_token heap expression variables var_count s0 ->
  Parse.list (parse_fuel expression) s0 = Some (Some tree, s') ->
  te_compile W heap expression variables var_count =
  if (s_type s' =? TOK_END)%Z then Some (Some (optimize W tree), 0%Z)
  else Some (None, if (to_int W (consumed s') =? 0)%Z then 1%Z
                   else to_int W (consumed s')).
Proof.
  intros Hf Hl. unfold te_compile. unfold first_token in Hf.
  rewrite Hf. cbn [bind]. rewrite Hl. cbn [bind].
  destruct (s_type s' =? TOK_END)%Z; reflexivity.
Qed.

(** The cursor a production leaves is inside the source. *)
Lemma consumed_bounds (heap : list bool) (expression : string)
    (variables : option (list te_variable)) (var_count : nat)
    (s0 s' : state) (r : option te_expr) :
  first_token heap expression variables var_count s0 ->
  Parse.list (parse_fuel expression) s0 = Some (r, s') ->
  (0 <= consumed s' <= Z.of_nat (String.length expression))%Z.
Proof.
  intros Hf Hl. unfold first_token in Hf.
  apply next_token_inv in Hf. destruct Hf as ((Hs0 & _) & _).
  destruct (productions_inv (parse_fuel expression)) as (_ & _ & _ & _ & _ & Hk).
  apply Hk in Hl. destruct Hl as ((Hs & _) & _).
  unfold consumed, ptrdiff. rewrite Hs, Hs0. cbn [s_start initial_state]. lia.
Qed.

(** A position that an [int] of 16 bits holds is reported as it is. *)
Lemma te_compile_reports (W : world) (heap : list bool) (expression : string)
    (variables : option (list te_variable)) (var_count : nat)
    (s0 s' : state) (tree : te_expr) :
  first_token heap expression variables var_count s0 ->
  Parse.list (parse_fuel expression) s0 = Some (Some tree, s') ->
  s_type s' <> TOK_END -> (consumed s' <= 32767)%Z ->
  te_compile W heap expression variables var_count =
  Some (None, Z.max 1 (consumed s')).
Proof.
  intros Hf Hl Ht Hc.
  pose proof (consumed_bounds _ _ _ _ _ _ _ Hf Hl) as Hb.
  rewrite (te_compile_tree W _ _ _ _ _ _ _ Hf Hl).
  apply Z.eqb_neq in Ht. rewrite Ht. rewrite to_int_small by exact Hc.
  destruct (consumed s' =? 0)%Z eqn:Ez;
    [apply Z.eqb_eq in Ez | apply Z.eqb_neq in Ez]; do 2 f_equal; lia.
Qed.

(** The position [te_compile] reports on a source, from a run of the
    tokenizer and of the parser on it. *)
Ltac position :=
  intros;
  eapply eq_trans;
  [eapply te_compile_reports;
   [vm_compute; reflexivity | vm_compute; reflexivity
    | vm_compute; intros E; discriminate E
    | vm_compute; intros E; discriminate E]
  | reflexivity].

(* ------------------------------------------------------------------------- *)
(** ** Function calls *)

(** C4, as the code has it: a call token of arity two or more must be
    followed by an opening parenthesis, or the compilation fails, wherever
    in the source the call stands; a call token of arity one takes the
    [power] production that follows as its argument, parenthesis or not; a
    call token of arity zero stands alone or is followed by an empty pair of
    parentheses. *)
Theorem call_parentheses (fuel : nat) (s s1 : state) :
  is_call (s_type s) = true ->
  next_token s = Some s1 ->
  ((2 <= ARITY (s_type s))%Z -> s_type s1 <> TOK_OPEN ->
   forall W heap expression variables var_count,
     calls_base heap expression variables var_count (S fuel) s ->
     exists error,
       te_compile W heap expression variables var_count = Some (None, error)) /\
  (ARITY (s_type s) = 1%Z ->
   forall p s2,
     Parse.power fuel s1 = Some (Some p, s2) -> s_heap s2 = [] ->
     Parse.base (S fuel) s = Some (Some (call_node s [p]), s2)) /\
  (ARITY (s_type s) = 0%Z -> s_heap s = [] ->
   (s_type s1 <> TOK_OPEN ->
    Parse.base (S fuel) s = Some (Some (call_node s []), s1)) /\
   (s_type s1 = TOK_OPEN ->
    forall s2 s3,
      next_token s1 = Some s2 -> s_type s2 = TOK_CLOSE ->
      next_token s2 = Some s3 ->
      Parse.base (S fuel) s = Some (Some (call_node s []), s3))) /\
  fails "pow 1" None 0 /\ fails "2*pow 1" None 0 /\ compiles "sin 1" None 0 /\
  compiles "pi" None 0 /\ compiles "pi()" None 0.
Proof.
  intros Hc Hn.
  split; [|split; [|split]].
  - intros Ha Ho W heap expression variables var_count Hcalls.
    assert (Hb : Parse.base (S fuel) s = Some (None, set_type s1 TOK_ERROR)).
    { cbn [Parse.base].
      rewrite (base_body_arity2 _ _ _ s Hc Ha), Hn. cbn [bind].
      apply Z.eqb_neq in Ho. rewrite Ho. reflexivity. }
    exists (-1)%Z.
    rewrite (te_compile_no_tree W _ _ _ _ _ _ Hcalls);
      rewrite Hb; [reflexivity | apply no_tree_null].
  - intros Ha p s2 Hp Hh. cbn [Parse.base].
    rewrite (base_body_arity1 _ _ _ s Hc Ha), Hn. cbn [bind].
    rewrite Hp. cbn [bind]. rewrite (new_expr_ok _ _ _ Hh).
    rewrite Ha. reflexivity.
  - intros Ha Hh. split.
    + intros Ho. cbn [Parse.base].
      rewrite (base_body_arity0 _ _ _ s Hc Ha Hh). cbv zeta. rewrite Hn.
      cbn [bind]. apply Z.eqb_neq in Ho. rewrite Ho. reflexivity.
    + intros Ho s2 s3 Hn2 Hcl Hn3. cbn [Parse.base].
      rewrite (base_body_arity0 _ _ _ s Hc Ha Hh). cbv zeta. rewrite Hn.
      cbn [bind]. rewrite Ho. change (TOK_OPEN =? TOK_OPEN)%Z with true.
      cbv iota. rewrite Hn2. cbn [bind]. rewrite Hcl.
      change (negb (TOK_CLOSE =? TOK_CLOSE)%Z) with false. cbv iota.
      rewrite Hn3. reflexivity.
  - repeat split; intros W; eexists; vm_compute; reflexivity.
Qed.

(** The claim C4 fails for arity one: [sin] is a builtin of arity one, the
    token after it in ["sin 1"] is a number and not an opening parenthesis,
    and the source compiles. *)
Lemma unary_call_without_parenthesis :
  find (named "sin") functions =
  Some (builtin "sin" Fsin (Z.lor TE_FUNCTION1 TE_FLAG_PURE)) /\
  ARITY (Z.lor TE_FUNCTION1 TE_FLAG_PURE) = 1%Z /\
  (exists s s1,
      next_token (start_state "sin 1") = Some s /\ next_token s = Some s1 /\
      s_type s = Z.lor TE_FUNCTION1 TE_FLAG_PURE /\ s_type s1 = TOK_NUMBER) /\
  compiles "sin 1" None 0.
Proof.
  split; [reflexivity|]. split; [reflexivity|]. split.
  - do 2 eexists. split; [vm_compute; reflexivity|].
    split; [vm_compute; reflexivity|]. split; reflexivity.
  - intros W. eexists. vm_compute. reflexivity.
Qed.

(** The descent to the second operand of a product: from [list] through
    [expr] to [term], whose loop reads the token after the operator, and
    from there through [factor] and [power] to [base]. *)
Ltac second_operand :=
  eexists; split; [vm_compute; reflexivity|];
  eapply reaches_call; [apply (enters_operand Llist)|];
  eapply reaches_call; [apply (enters_operand Lexpr)|];
  eapply reaches_call;
    [eapply (enters_next_operand Lterm);
     [vm_compute; reflexivity | eapply chain_calls_now; vm_compute; reflexivity]|];
  eapply reaches_call; [apply (enters_operand Lfactor)|];
  eapply reaches_call; [eapply enters_base; vm_compute; reflexivity|];
  apply reaches_here.

Lemma call_parentheses_witness :
  (exists error, te_compile bare_world [] "2*pow 1" None 0 = Some (None, error)) /\
  Parse.base 9 (State "pi()" "()" (Z.lor TE_FUNCTION0 TE_FLAG_PURE)
                      (U_function (Cfun Fpi)) NULL None 0 []) =
  Some (Some (Expr (Z.lor TE_FUNCTION0 TE_FLAG_PURE) (U_function (Cfun Fpi)) [] NULL),
        State "pi()" "" TOK_END (U_function (Cfun Fpi)) NULL None 0 []).
Proof.
  split.
  - destruct (call_parentheses 48
                (State "2*pow 1" " 1" (Z.lor TE_FUNCTION2 TE_FLAG_PURE)
                       (U_function (Cfun Fpow)) NULL None 0 [])
                (State "2*pow 1" "" TOK_NUMBER (U_value 1) NULL None 0 [])
                eq_refl ltac:(vm_compute; reflexivity)) as (H & _).
    apply H.
    + vm_compute. intros E; discriminate E.
    + vm_compute. intros E; discriminate E.
    + second_operand.
  - destruct (call_parentheses 8
                (State "pi()" "()" (Z.lor TE_FUNCTION0 TE_FLAG_PURE)
                       (U_function (Cfun Fpi)) NULL None 0 [])
                (State "pi()" ")" TOK_OPEN (U_function (Cfun Fpi)) NULL None 0 [])
                eq_refl ltac:(vm_compute; reflexivity)) as (_ & _ & H & _).
    destruct (H eq_refl eq_refl) as (_ & H2).
    apply (H2 eq_refl
              (State "pi()" "" TOK_CLOSE (U_function (Cfun Fpi)) NULL None 0 []));
      vm_compute; reflexivity.
Defined.

(* ------------------------------------------------------------------------- *)
(** ** The number of arguments *)

Lemma argument_run_positive (operand : parser) (s s' : state) (k : nat)
    (ps : list te_expr) :
  argument_run operand s k ps s' -> 1 <= k /\ s_type s' <> TOK_SEP.
Proof. induction 1; split; try lia; tauto. Qed.

Lemma argument_run_length (operand : parser) (s s' : state) (k : nat)
    (ps : list te_expr) :
  argument_run operand s k ps s' -> List.length ps = k.
Proof. induction 1; simpl; congruence. Qed.

(** With at most as many arguments as iterations, the loop leaves through
    [break] after the last one, its counter one short of their number. *)
Lemma arguments_run_short (operand : parser) (s s' : state) (k : nat)
    (ps : list te_expr) :
  argument_run operand s k ps s' ->
  forall n i acc,
    k <= n ->
    arguments operand n i acc s =
    Some (Arguments_exit (i + Z.of_nat k - 1) (acc ++ ps) s').
Proof.
  induction 1 as [s s1 s2 p Hn Ho Hs | s s1 s2 s3 p k ps Hn Ho Hs Hrun IH];
    intros n i acc Hk.
  - destruct n as [|n]; [lia|]. cbn [arguments]. rewrite Hn. cbn [bind].
    rewrite Ho. cbn [bind]. apply Z.eqb_neq in Hs. rewrite Hs. cbn [negb].
    do 2 f_equal. lia.
  - destruct n as [|n]; [lia|]. cbn [arguments]. rewrite Hn. cbn [bind].
    rewrite Ho. cbn [bind]. rewrite Hs.
    change (negb (TOK_SEP =? TOK_SEP)%Z) with false. cbv iota.
    rewrite IH by lia. rewrite <- app_assoc. do 2 f_equal. lia.
Qed.

(** With more arguments than iterations, the loop runs out at a comma. *)
Lemma arguments_run_long (operand : parser) (s s' : state) (k : nat)
    (ps : list te_expr) :
  argument_run operand s k ps s' ->
  forall n i acc,
    n < k ->
    exists params s'',
      arguments operand n i acc s =
      Some (Arguments_exit (i + Z.of_nat n) params s'') /\
      (1 <= n -> s_type s'' = TOK_SEP).
Proof.
  induction 1 as [s s1 s2 p Hn Ho Hs | s s1 s2 s3 p k ps Hn Ho Hs Hrun IH];
    intros n i acc Hk.
  - assert (n = 0) by lia. subst n. cbn [arguments].
    do 2 eexists. split; [do 2 f_equal; lia | lia].
  - destruct n as [|n].
    + cbn [arguments]. do 2 eexists. split; [do 2 f_equal; lia | lia].
    + cbn [arguments]. rewrite Hn. cbn [bind]. rewrite Ho. cbn [bind].
      rewrite Hs. change (negb (TOK_SEP =? TOK_SEP)%Z) with false. cbv iota.
      destruct (IH n (i + 1)%Z (acc ++ [p])) as (params & s'' & E & Ht); [lia|].
      exists params, s''. split.
      * rewrite E. do 2 f_equal. lia.
      * intros _. destruct n as [|n].
        -- cbn [arguments] in E. inv E. exact Hs.
        -- apply Ht. lia.
Qed.

(** [base] after the opening parenthesis of a call of arity two or more. *)
Lemma base_arguments (fuel : nat) (s s1 : state) :
  is_call (s_type s) = true -> (2 <= ARITY (s_type s))%Z ->
  next_token s = Some s1 -> s_type s1 = TOK_OPEN ->
  Parse.base (S fuel) s =
  (r <- arguments (Parse.expr fuel) (Z.to_nat (ARITY (s_type s))) 0 [] s1 ;;
   match r with
   | Arguments_null s2 => Some (None, s2)
   | Arguments_exit i params s2 =>
       if negb (s_type s2 =? TOK_CLOSE)%Z || negb (i =? ARITY (s_type s) - 1)%Z
       then
         'tt <- free_params (Z.to_nat (ARITY (s_type s))) params ;;
         Some (None, set_type s2 TOK_ERROR)
       else
         s3 <- next_token s2 ;;
         let '(ret, s4) := new_expr (s_type s) params s3 in
         match ret with
         | None =>
             'tt <- free_params (Z.to_nat (ARITY (s_type s))) params ;;
             Some (None, s4)
         | Some n =>
             Some (Some (bind_callable n (s_type s) (function (s_u s))
                                       (s_context s)), s4)
         end
   end).
Proof.
  intros Hc Ha Hn Ho. cbn [Parse.base].
  rewrite (base_body_arity2 _ _ _ s Hc Ha), Hn. cbn [bind].
  rewrite Ho. reflexivity.
Qed.


(** C1, as the code has it: for a call token of arity [N >= 2] followed by an
    opening parenthesis and [k] comma-separated arguments, the compilation
    fails, wherever in the source the call stands, when [k] is more than
    [N], and when [k] is [N] and the token after the arguments is not the
    closing parenthesis; with [N] arguments and the closing parenthesis
    [base] returns the call node over these arguments.  So a call of the
    two-argument [pow] with three arguments fails to compile, and with two
    it compiles. *)
Theorem call_argument_count (fuel : nat) (s s1 s' : state) (k : nat)
    (ps : list te_expr) :
  is_call (s_type s) = true ->
  (2 <= ARITY (s_type s))%Z ->
  next_token s = Some s1 -> s_type s1 = TOK_OPEN ->
  argument_run (Parse.expr fuel) s1 k ps s' ->
  ((ARITY (s_type s) < Z.of_nat k)%Z \/
   (Z.of_nat k = ARITY (s_type s) /\ s_type s' <> TOK_CLOSE) ->
   forall W heap expression variables var_count,
     calls_base heap expression variables var_count (S fuel) s ->
     exists error,
       te_compile W heap expression variables var_count = Some (None, error)) /\
  (Z.of_nat k = ARITY (s_type s) -> s_type s' = TOK_CLOSE ->
   forall s3,
     next_token s' = Some s3 -> s_heap s3 = [] ->
     Parse.base (S fuel) s = Some (Some (call_node s ps), s3) /\
     List.length ps = k) /\
  fails "pow(1,2,3)" None 0 /\ fails "2*pow(1,2,3)" None 0 /\
  compiles "pow(1,2)" None 0.
Proof.
  intros Hc Ha Hn Ho Hrun.
  pose proof (base_arguments fuel s s1 Hc Ha Hn Ho) as Hbody.
  destruct (argument_run_positive _ _ _ _ _ Hrun) as (Hk1 & Hsep).
  pose proof (argument_run_length _ _ _ _ _ Hrun) as Hl.
  split; [|split].
  - intros Hmany W heap expression variables var_count Hcalls.
    assert (Hnull : exists s'', Parse.base (S fuel) s = Some (None, s'')).
    { rewrite Hbody. destruct Hmany as [Hlt | (Hk & Hcl)].
      - destruct (arguments_run_long _ _ _ _ _ Hrun (Z.to_nat (ARITY (s_type s)))
                    0%Z []) as (params & s'' & E & Ht); [lia|].
        pose proof (arguments_stored _ _ _ _ _ _ _ _ E) as (_ & Hlen).
        cbn [List.length] in Hlen.
        rewrite E. cbn [bind]. rewrite Ht by lia.
        change (negb (TOK_SEP =? TOK_CLOSE)%Z) with true. cbn [orb].
        rewrite free_params_stored by lia. cbn [bind]. eauto.
      - rewrite (arguments_run_short _ _ _ _ _ Hrun _ 0%Z []) by lia.
        cbn [bind app]. apply Z.eqb_neq in Hcl. rewrite Hcl. cbn [negb orb].
        rewrite free_params_stored by lia. cbn [bind]. eauto. }
    destruct Hnull as (s'' & Hnull). exists (-1)%Z.
    rewrite (te_compile_no_tree W _ _ _ _ _ _ Hcalls);
      rewrite Hnull; [reflexivity | apply no_tree_null].
  - intros Hk Hcl s3 Hn3 Hh. split; [|exact Hl].
    rewrite Hbody.
    rewrite (arguments_run_short _ _ _ _ _ Hrun _ 0%Z []) by lia. cbn [bind].
    rewrite Hcl. change (negb (TOK_CLOSE =? TOK_CLOSE)%Z) with false.
    replace (0 + Z.of_nat k - 1 =? ARITY (s_type s) - 1)%Z with true
      by (symmetry; apply Z.eqb_eq; lia).
    cbn [negb orb app]. rewrite Hn3. cbn [bind]. rewrite (new_expr_ok _ _ _ Hh).
    rewrite firstn_all2 by lia.
    reflexivity.
  - repeat split; intros W; eexists; vm_compute; reflexivity.
Qed.

(** The claim C1 fails for arity one: [sin] is a builtin of arity one, the
    parenthesized list after it in ["sin(1,2)"] holds two [expr] arguments,
    and the source compiles, to [sin] over the comma node of the two. *)
Lemma unary_call_with_two_arguments :
  ARITY (Z.lor TE_FUNCTION1 TE_FLAG_PURE) = 1%Z /\
  (exists s s1 s',
      next_token (start_state "sin(1,2)") = Some s /\
      s_type s = Z.lor TE_FUNCTION1 TE_FLAG_PURE /\
      function (s_u s) = Cfun Fsin /\
      next_token s = Some s1 /\ s_type s1 = TOK_OPEN /\
      argument_run (Parse.expr 20) s1 2 [constant 1; constant 2] s' /\
      s_type s' = TOK_CLOSE /\
      option_map fst (Parse.base 30 s) =
      Some (Some (Expr (Z.lor TE_FUNCTION1 TE_FLAG_PURE) (U_function (Cfun Fsin))
                       [call2 (Cfun Fcomma) (constant 1) (constant 2)] NULL))) /\
  compiles "sin(1,2)" None 0.
Proof.
  split; [reflexivity|]. split.
  - exists (State "sin(1,2)" "(1,2)" (Z.lor TE_FUNCTION1 TE_FLAG_PURE)
                  (U_function (Cfun Fsin)) NULL None 0 []).
    exists (State "sin(1,2)" "1,2)" TOK_OPEN (U_function (Cfun Fsin)) NULL None 0 []).
    exists (State "sin(1,2)" "" TOK_CLOSE (U_value 2) NULL None 0 []).
    split; [vm_compute; reflexivity|]. split; [reflexivity|].
    split; [reflexivity|]. split; [vm_compute; reflexivity|].
    split; [reflexivity|]. split; [|split; [reflexivity | vm_compute; reflexivity]].
    apply argument_run_more
      with (s1 := State "sin(1,2)" ",2)" TOK_NUMBER (U_value 1) NULL None 0 [])
           (s2 := State "sin(1,2)" "2)" TOK_SEP (U_value 1) NULL None 0 []);
      [vm_compute; reflexivity | vm_compute; reflexivity | reflexivity |].
    apply argument_run_last
      with (s1 := State "sin(1,2)" ")" TOK_NUMBER (U_value 2) NULL None 0 [])
    ;
      [vm_compute; reflexivity | vm_compute; reflexivity |].
    vm_compute. intros E; discriminate E.
  - intros W. eexists. vm_compute. reflexivity.
Qed.

Lemma call_argument_count_witness :
  exists error,
    te_compile bare_world [] "2*pow(1,2,3)" None 0 = Some (None, error).
Proof.
  assert (Hrun : argument_run (Parse.expr 78)
            (State "2*pow(1,2,3)" "1,2,3)" TOK_OPEN (U_function (Cfun Fpow))
                   NULL None 0 [])
            3 [constant 1; constant 2; constant 3]
            (State "2*pow(1,2,3)" "" TOK_CLOSE (U_value 3) NULL None 0 [])).
  { apply argument_run_more
      with (s1 := State "2*pow(1,2,3)" ",2,3)" TOK_NUMBER (U_value 1) NULL None 0 [])
           (s2 := State "2*pow(1,2,3)" "2,3)" TOK_SEP (U_value 1) NULL None 0 []);
      [vm_compute; reflexivity | vm_compute; reflexivity | reflexivity |].
    apply argument_run_more
      with (s1 := State "2*pow(1,2,3)" ",3)" TOK_NUMBER (U_value 2) NULL None 0 [])
           (s2 := State "2*pow(1,2,3)" "3)" TOK_SEP (U_value 2) NULL None 0 []);
      [vm_compute; reflexivity | vm_compute; reflexivity | reflexivity |].
    apply argument_run_last
      with (s1 := State "2*pow(1,2,3)" ")" TOK_NUMBER (U_value 3) NULL None 0 []);
      [vm_compute; reflexivity | vm_compute; reflexivity |].
    vm_compute. intros E; discriminate E. }
  destruct (call_argument_count 78
              (State "2*pow(1,2,3)" "(1,2,3)" (Z.lor TE_FUNCTION2 TE_FLAG_PURE)
                     (U_function (Cfun Fpow)) NULL None 0 [])
              _ _ 3 [constant 1; constant 2; constant 3] eq_refl
              ltac:(vm_compute; intros E; discriminate E)
              ltac:(vm_compute; reflexivity) eq_refl Hrun) as (H & _).
  apply H.
  - left. vm_compute. reflexivity.
  - second_operand.
Defined.

(* ------------------------------------------------------------------------- *)
(** ** Error codes *)

(** C2 at a failing input: with an allocator that never fails, a call of
    [pow] with three arguments, or without its parenthesis, makes
    [te_compile] report -1, the code it reports when an allocation fails; a
    missing argument of the unary [sin] is reported by position. *)
Theorem grammar_failure_reported_as_allocation_failure (W : world) :
  te_compile W [] "pow(1,2,3)" None 0 = Some (None, (-1)%Z) /\
  te_compile W [] "pow 1" None 0 = Some (None, (-1)%Z) /\
  te_compile W [false] "1" None 0 = Some (None, (-1)%Z) /\
  te_compile W [] "sin()" None 0 = Some (None, 5%Z).
Proof.
  split; [vm_compute; reflexivity|]. split; [vm_compute; reflexivity|].
  split; [vm_compute; reflexivity|]. position.
Qed.

(** The claim C3 fails on where the position points: in ["abc"] the
    unexpected token is the first one and begins at the first character, and
    in ["2 34"] it begins at the third, yet the codes are 3 and 4, the
    offsets just past these tokens. *)
Lemma error_position_is_past_the_token :
  (exists s, next_token (start_state "abc") = Some s /\ s_type s = TOK_ERROR) /\
  leading_blanks "abc" = 0 /\
  reports "abc" None 0 3 /\
  (exists s s1,
      next_token (start_state "2 34") = Some s /\ s_next s = " 34"%string /\
      leading_blanks " 34" = 1 /\
      Parse.list 20 s = Some (Some (constant 2), s1) /\ s_type s1 = TOK_NUMBER) /\
  reports "2 34" None 0 4.
Proof.
  split; [eexists; split; [vm_compute; reflexivity | reflexivity]|].
  split; [reflexivity|].
  split; [unfold reports; position|].
  split; [|unfold reports; position].
  do 2 eexists. split; [vm_compute; reflexivity|].
  split; [reflexivity|]. split; [reflexivity|].
  split; [vm_compute; reflexivity | reflexivity].
Qed.

(** C3, as the code has it.  When the parser comes back with a tree at the
    end of the input, [te_compile] returns the tree and reports 0, and it
    reports 0 with a tree only.  When the parser comes back with a tree but
    not at the end of the input, [te_compile] returns no tree and reports
    the number of characters the tokenizer has consumed by then, as an
    [int], with 0 replaced by 1: for a source that is not longer than
    [INT_MAX] a number between 1 and the length of the source.  For ["2+"]
    that number is 2, the offset of the end of the input. *)
Theorem error_code (W : world) (heap : list bool) (expression : string)
    (variables : option (list te_variable)) (var_count : nat)
    (s0 s' : state) (tree : te_expr) :
  first_token heap expression variables var_count s0 ->
  Parse.list (parse_fuel expression) s0 = Some (Some tree, s') ->
  (s_type s' = TOK_END ->
   te_compile W heap expression variables var_count =
   Some (Some (optimize W tree), 0%Z)) /\
  (s_type s' <> TOK_END ->
   te_compile W heap expression variables var_count =
   Some (None, if (to_int W (consumed s') =? 0)%Z then 1%Z
               else to_int W (consumed s')) /\
   (0 <= consumed s' <= Z.of_nat (String.length expression))%Z /\
   ((Z.of_nat (String.length expression) <= INT_MAX W)%Z ->
    te_compile W heap expression variables var_count =
    Some (None, Z.max 1 (consumed s')) /\
    (1 <= Z.max 1 (consumed s')
     <= Z.max 1 (Z.of_nat (String.length expression)))%Z)) /\
  (forall root error,
      te_compile W heap expression variables var_count = Some (Some root, error) ->
      error = 0%Z) /\
  reports "2+" None 0 2 /\ reports "" None 0 1.
Proof.
  intros Hf Hl.
  pose proof (te_compile_tree W _ _ _ _ _ _ _ Hf Hl) as Hc.
  pose proof (consumed_bounds _ _ _ _ _ _ _ Hf Hl) as Hb.
  split; [|split; [|split; [|split; unfold reports; position]]].
  - intros Ht. rewrite Hc, Ht. reflexivity.
  - intros Ht. apply Z.eqb_neq in Ht. rewrite Ht in Hc.
    split; [exact Hc|]. split; [exact Hb|].
    intros Hfit. split; [|lia].
    rewrite Hc, to_int_fits by lia.
    destruct (consumed s' =? 0)%Z eqn:Ez;
      [apply Z.eqb_eq in Ez | apply Z.eqb_neq in Ez]; do 2 f_equal; lia.
  - intros root error H. rewrite Hc in H.
    destruct (s_type s' =? TOK_END)%Z; inv H. reflexivity.
Qed.

Lemma error_code_witness :
  te_compile bare_world [] "2+" None 0 = Some (None, 2%Z).
Proof.
  destruct (error_code bare_world [] "2+" None 0
              (State "2+" "+" TOK_NUMBER (U_value 2) NULL None 0 [])
              (State "2+" "" TOK_ERROR (U_function (Cfun Fadd)) NULL None 0 [])
              (call2 (Cfun Fadd) (constant 2) (Expr 0 (U_value NAN) [] NULL))
              ltac:(vm_compute; reflexivity) ltac:(vm_compute; reflexivity))
    as (_ & H & _).
  destruct H as (_ & _ & H); [vm_compute; intros E; discriminate E|].
  destruct H as (H & _); [vm_compute; intros E; discriminate E|].
  exact H.
Defined.

(* ========================================================================= *)
(** * Further properties *)

#[local] Open Scope string_scope.

(* ------------------------------------------------------------------------- *)
(** ** The tokenizer: progress, blanks and the end of the input *)

Lemma within_refl (p : string) : within p p.
Proof. exists "". reflexivity. Qed.

Lemma within_trans (a b c : string) : within a b -> within b c -> within a c.
Proof.
  intros [p1 H1] [p2 H2]. exists (p2 ++ p1). subst.
  induction p2 as [|x p2 IH]; simpl; [reflexivity | rewrite IH; reflexivity].
Qed.

Lemma within_advance (p : string) : within (advance p) p.
Proof. destruct p as [|c r]; [apply within_refl|]. exists (String c ""). reflexivity. Qed.

Lemma within_cons (c : ascii) (q p : string) : within q p -> within q (String c p).
Proof. intros [pre H]. exists (String c pre). simpl. rewrite H. reflexivity. Qed.

Lemma span_digits_within (p : string) : within (snd (span_digits p)) p.
Proof.
  induction p as [|c r IH]; simpl; [apply within_refl|].
  destruct (isdigit c); [|apply within_refl].
  destruct (span_digits r) as [ds q]; simpl in *. apply within_cons, IH.
Qed.

Lemma strtod_within (p : string) : within (snd (strtod p)) p.
Proof.
  unfold strtod.
  pose proof (span_digits_within p) as H1.
  destruct (span_digits p) as [ip p1]; simpl in H1.
  assert (H2 : within (snd (if Ascii.eqb (deref p1) "." then span_digits (advance p1)
                            else ([], p1))) p).
  { destruct (Ascii.eqb (deref p1) "."); simpl; [|exact H1].
    eapply within_trans; [apply span_digits_within|].
    eapply within_trans; [apply within_advance | exact H1]. }
  destruct (if Ascii.eqb (deref p1) "." then span_digits (advance p1) else ([], p1))
    as [fp p2]; simpl in H2.
  destruct (ip ++ fp)%list as [|d ds]; simpl; [apply within_refl|].
  destruct (Ascii.eqb (deref p2) "e" || Ascii.eqb (deref p2) "E"); simpl; [|exact H2].
  match goal with
  | |- context [span_digits ?q] =>
      assert (H6 : within q p2)
        by (destruct (Ascii.eqb (deref (advance p2)) "-" ||
                      Ascii.eqb (deref (advance p2)) "+");
            [eapply within_trans; apply within_advance | apply within_advance]);
      pose proof (span_digits_within q) as H5;
      destruct (span_digits q) as [[|x xs] p5]
  end; simpl in *; [exact H2|].
  eapply within_trans; [exact H5|]. eapply within_trans; [exact H6 | exact H2].
Qed.

Lemma scan_identifier_within (p : string) : within (scan_identifier p) p.
Proof.
  induction p as [|c r IH]; simpl; [apply within_refl|].
  destruct (isalpha c || isdigit c || Ascii.eqb c "_"); [|apply within_refl].
  apply within_cons, IH.
Qed.

Lemma identifier_token_not_end (v : te_variable) (s : state) :
  s_type s = TOK_NULL -> s_type (identifier_token v s) <> TOK_END.
Proof.
  intros Hs. unfold identifier_token.
  destruct (TYPE_MASK (v_type v) =? TE_VARIABLE)%Z; simpl; [discriminate|].
  destruct (is_closure_kind (TYPE_MASK (v_type v))) eqn:Ec; simpl.
  { intros E. rewrite E in Ec. discriminate. }
  destruct (is_function_kind (TYPE_MASK (v_type v))) eqn:Ef; simpl.
  { intros E. rewrite E in Ef. discriminate. }
  rewrite Hs. discriminate.
Qed.

Lemma operator_token_not_end (c : ascii) (s : state) :
  s_type s = TOK_NULL -> s_type (operator_token c s) <> TOK_END.
Proof.
  intros Hs. unfold operator_token.
  repeat break_if; simpl; try rewrite Hs; discriminate.
Qed.

Lemma next_token_body_within (s : state) :
  s_type s = TOK_NULL ->
  forall returned s1,
    next_token_body s = Some (returned, s1) ->
    within (s_next s1) (s_next s) /\
    (returned = true -> is_nul (deref (s_next s1)) = true) /\
    (returned = false -> s_type s1 <> TOK_END).
Proof.
  intros Hs returned s1. unfold next_token_body.
  destruct (is_nul (deref (s_next s))) eqn:Hnul.
  { intros H; inv H. simpl. split; [apply within_refl|]. split; [auto | discriminate]. }
  destruct (isdigit (deref (s_next s)) || Ascii.eqb (deref (s_next s)) ".") eqn:Hnum.
  { pose proof (strtod_within (s_next s)) as Hw.
    destruct (strtod (s_next s)) as [v q]; simpl in Hw.
    intros H; inv H. simpl. split; [exact Hw|]. split; discriminate. }
  destruct (isalpha (deref (s_next s))) eqn:Halpha.
  { intros H. apply bind_some in H. destruct H as (var & _ & H).
    pose proof (scan_identifier_within (s_next s)) as Hw.
    destruct var as [v|]; inv H.
    - destruct (identifier_token_frame v (set_next s (scan_identifier (s_next s))))
        as (_ & Hn & _).
      rewrite Hn. simpl. split; [exact Hw|]. split; [discriminate|].
      intros _. apply identifier_token_not_end. exact Hs.
    - simpl. split; [exact Hw|]. split; discriminate. }
  intros H; inv H.
  destruct (operator_token_frame (deref (s_next s)) (set_next s (advance (s_next s))))
    as (_ & Hn & _).
  rewrite Hn. simpl. split; [apply within_advance|]. split; [discriminate|].
  intros _. apply operator_token_not_end. exact Hs.
Qed.

Lemma next_token_loop_within (fuel : nat) :
  forall s s',
    s_type s = TOK_NULL ->
    next_token_loop fuel s = Some s' ->
    within (s_next s') (s_next s) /\ s_type s' <> TOK_NULL /\
    (s_type s' = TOK_END -> is_nul (deref (s_next s')) = true).
Proof.
  induction fuel as [|fuel IH]; intros s s' Hs H; [discriminate|].
  simpl in H. apply bind_some in H. destruct H as ([returned s1] & Eb & H).
  destruct (next_token_body_within s Hs _ _ Eb) as (Hw & Hr & Hn).
  destruct (next_token_body_spec s) as (r' & s1' & Eb' & _ & _ & _ & Hend & _).
  rewrite Eb in Eb'. inv Eb'.
  destruct r'.
  { inv H. split; [exact Hw|]. rewrite (Hend eq_refl).
    split; [discriminate | auto]. }
  destruct (s_type s1' =? TOK_NULL)%Z eqn:E.
  - apply Z.eqb_eq in E. destruct (IH _ _ E H) as (Hw' & Hn' & He').
    split; [eapply within_trans; eauto | auto].
  - inv H. apply Z.eqb_neq in E. split; [exact Hw|]. split; [exact E|].
    intros He. exfalso. exact (Hn eq_refl He).
Qed.

(** X1: the tokenizer always returns; the token is never [TOK_NULL]; the
    cursor stays inside the string it was in and never moves backwards, and
    moves forwards unless the token is the end of the input or a number; the
    end of the input is only reported at the terminating NUL; the start
    pointer, the lookup table and the allocator are left alone. *)
Theorem next_token_progress (s : state) :
  exists s',
    next_token s = Some s' /\
    s_type s' <> TOK_NULL /\
    within (s_next s') (s_next s) /\
    (s_type s' <> TOK_END -> s_type s' <> TOK_NUMBER -> s_next s' <> s_next s) /\
    (s_type s' = TOK_END -> is_nul (deref (s_next s')) = true) /\
    s_start s' = s_start s /\ s_lookup s' = s_lookup s /\
    s_lookup_len s' = s_lookup_len s /\ s_heap s' = s_heap s.
Proof.
  destruct (next_token_spec s) as (s' & E & (F1 & F2 & F3) & Hh & Hle & Hst).
  exists s'. split; [exact E|].
  unfold next_token in E.
  destruct (next_token_loop_within _ (set_type s TOK_NULL) s' eq_refl E)
    as (Hw & Hn & He).
  split; [exact Hn|]. split; [exact Hw|].
  split; [|repeat split; assumption].
  intros H1 H2 Heq.
  assert (Hs : stays (s_type s') = false).
  { unfold stays. apply Z.eqb_neq in H1, H2. rewrite H1, H2. reflexivity. }
  specialize (Hst Hs). rewrite Heq in Hst. lia.
Qed.

Lemma is_blank_cases (c : ascii) :
  is_blank c = true -> c = " "%char \/ c = "009"%char \/ c = "010"%char \/ c = "013"%char.
Proof.
  unfold is_blank. intros H.
  repeat (apply orb_true_iff in H; destruct H as [H|H]);
    apply Ascii.eqb_eq in H; auto.
Qed.

Lemma next_token_skips_blank (s : state) (b : ascii) (p : string) :
  is_blank b = true ->
  next_token (set_next s (String b p)) = next_token (set_next s p).
Proof.
  intros Hb. unfold next_token.
  change (s_next (set_next s (String b p))) with (String b p).
  change (s_next (set_next s p)) with p.
  change (String.length (String b p)) with (S (String.length p)).
  cbn [next_token_loop].
  destruct (is_blank_cases b Hb) as [-> | [-> | [-> | ->]]]; reflexivity.
Qed.

(** X2: blanks before a token are passed over: the token found after a run of
    blanks, and the state the tokenizer is left in, are those found without
    the blanks. *)
Theorem next_token_skips_blanks (s : state) (bs p : string) :
  blanks bs = true ->
  next_token (set_next s (bs ++ p)) = next_token (set_next s p).
Proof.
  induction bs as [|b bs IH]; simpl; intros H; [reflexivity|].
  apply andb_true_iff in H. destruct H as (Hb & Hbs).
  rewrite (next_token_skips_blank s b (bs ++ p) Hb). apply IH. exact Hbs.
Qed.

Lemma next_token_skips_blanks_witness :
  next_token (set_next (start_state "2  +1") ("  " ++ "+1")) =
  next_token (set_next (start_state "2  +1") "+1").
Proof. apply next_token_skips_blanks. reflexivity. Defined.

(** On a string of blanks the tokenizer finds what it finds at its end. *)
Lemma next_token_blank_source (s : state) (bs : string) :
  blanks bs = true ->
  next_token (set_next s bs) = next_token (set_next s "").
Proof.
  induction bs as [|b bs IH]; cbn [blanks]; intros H; [reflexivity|].
  apply andb_true_iff in H. destruct H as (Hb & Hbs).
  rewrite (next_token_skips_blank s b bs Hb). apply IH. exact Hbs.
Qed.

(** A tree from [base] on the token a production starts at, with no
    operator after it, is what every production above it returns. *)
Lemma leading_base_tree (fuel : nat) (s s' : state) (n : te_expr) :
  additive s = None ->
  Parse.base fuel s = Some (Some n, s') ->
  exponent s' = None -> multiplicative s' = None -> additive s' = None ->
  separator s' = None ->
  Parse.list (5 + fuel) s = Some (Some n, s').
Proof.
  intros Hs Hb He Hm Ha Hc.
  assert (Hp : Parse.power (S fuel) s = Some (Some n, s')).
  { cbn [Parse.power]. unfold power_body.
    assert (E : power_signs fuel 1 s = Some (1%Z, s))
      by (destruct fuel; cbn [power_signs]; rewrite Hs; reflexivity).
    rewrite E. cbn [bind]. exact Hb. }
  assert (Hf : Parse.factor (S (S fuel)) s = Some (Some n, s')).
  { cbn [Parse.factor]. unfold chain_body. rewrite Hp. cbn [bind].
    apply binary_chain_stop. exact He. }
  assert (Ht : Parse.term (S (S (S fuel))) s = Some (Some n, s')).
  { cbn [Parse.term]. unfold chain_body. rewrite Hf. cbn [bind].
    apply binary_chain_stop. exact Hm. }
  assert (Hx : Parse.expr (S (S (S (S fuel)))) s = Some (Some n, s')).
  { cbn [Parse.expr]. unfold chain_body. rewrite Ht. cbn [bind].
    apply binary_chain_stop. exact Ha. }
  change (5 + fuel) with (S (S (S (S (S fuel))))).
  cbn [Parse.list]. unfold chain_body. rewrite Hx. cbn [bind].
  apply binary_chain_stop. exact Hc.
Qed.

(** X3: a source that holds nothing but blanks (the empty source among them)
    does not compile, when the one node the parser asks for is granted; the
    position reported is its length as an [int], with 0 replaced by 1: the
    length itself for a source that is not longer than [INT_MAX], and 1 for
    the empty source. *)
Theorem blank_source_is_an_error (W : world) (heap : list bool) (expression : string)
    (variables : option (list te_variable)) (var_count : nat) :
  blanks expression = true ->
  hd true heap = true ->
  let length := Z.of_nat (String.length expression) in
  te_compile W heap expression variables var_count =
  Some (None, if (to_int W length =? 0)%Z then 1%Z else to_int W length) /\
  ((length <= INT_MAX W)%Z ->
   te_compile W heap expression variables var_count = Some (None, Z.max 1 length)).
Proof.
  intros Hb Hh length.
  assert (H : te_compile W heap expression variables var_count =
              Some (None, if (to_int W length =? 0)%Z then 1%Z else to_int W length));
    [|split; [exact H|]; intros Hfit; rewrite H, to_int_fits by exact Hfit;
      destruct (length =? 0)%Z eqn:Ez;
      [apply Z.eqb_eq in Ez | apply Z.eqb_neq in Ez]; do 2 f_equal; lia].
  unfold te_compile.
  set (s1 := State expression "" TOK_END (U_bound NULL) NULL variables var_count heap).
  set (s2 := State expression "" TOK_ERROR (U_bound NULL) NULL variables var_count
                   (tl heap)).
  assert (E : next_token (initial_state heap expression variables var_count) = Some s1).
  { change (initial_state heap expression variables var_count)
      with (set_next (initial_state heap expression variables var_count) expression).
    rewrite (next_token_blank_source _ expression Hb). reflexivity. }
  rewrite E. cbn [bind].
  assert (Hbase : Parse.base (base_fuel expression) s1 =
                  Some (Some (Expr 0 (U_value NAN) [] NULL), s2)).
  { unfold base_fuel. rewrite Nat.add_succ_r. cbn [Parse.base].
    unfold base_body, new_expr, malloc, s1, s2. cbn [s_type s_heap].
    change (TYPE_MASK TOK_END) with 26%Z.
    destruct heap as [|[] h]; [reflexivity | reflexivity | discriminate Hh]. }
  replace (parse_fuel expression) with (5 + base_fuel expression)
    by (unfold parse_fuel, base_fuel; lia).
  rewrite (leading_base_tree _ s1 s2 _ eq_refl Hbase eq_refl eq_refl eq_refl eq_refl).
  cbn [bind]. unfold s2. cbn [s_type s_next s_start].
  change (negb (TOK_ERROR =? TOK_END)%Z) with true. cbv iota.
  unfold ptrdiff. cbn [String.length]. rewrite Nat.sub_0_r. reflexivity.
Qed.

Lemma blank_source_is_an_error_witness :
  te_compile bare_world [] "   " None 0 = Some (None, 3%Z).
Proof.
  apply (blank_source_is_an_error bare_world [] "   " None 0);
    [reflexivity | reflexivity | vm_compute; intros E; discriminate E].
Defined.

(* ------------------------------------------------------------------------- *)
(** ** The names of the builtins *)

Lemma find_lookup_no_table (s : state) (name : string) (len : nat) :
  no_table s -> find_lookup s name len = None.
Proof.
  unfold find_lookup. intros [H|H]; rewrite H; [reflexivity|].
  destruct (s_lookup s) as [[|v l]|]; reflexivity.
Qed.

Lemma scan_identifier_stop (rest : string) :
  identifier_char (deref rest) = false -> scan_identifier rest = rest.
Proof.
  destruct rest as [|c r]; [reflexivity|]. unfold identifier_char. simpl.
  intros ->. reflexivity.
Qed.

Lemma ptrdiff_append (name rest : string) :
  ptrdiff rest (name ++ rest) = String.length name.
Proof.
  unfold ptrdiff.
  assert (H : String.length (name ++ rest) = String.length name + String.length rest)
    by (induction name as [|c name IH]; simpl; [reflexivity | rewrite IH; reflexivity]).
  rewrite H. lia.
Qed.

Lemma builtins_reachable : Forall reachable functions.
Proof. repeat constructor. Qed.

Lemma isalpha_starts_identifier (c : ascii) :
  isalpha c = true ->
  is_nul c = false /\ isdigit c = false /\ Ascii.eqb c "." = false.
Proof.
  destruct c as [[] [] [] [] [] [] [] []]; intros H; try discriminate H;
    repeat split; reflexivity.
Qed.

Lemma strlen_append (name rest : string) :
  no_nul name -> String.length name <= strlen (name ++ rest).
Proof.
  unfold no_nul. induction name as [|c name IH]; cbn [append strlen String.length];
    [lia|].
  destruct (is_nul c); [discriminate|]. intros H. specialize (IH ltac:(lia)). lia.
Qed.

Lemma substring_append (name rest : string) :
  substring 0 (String.length name) (name ++ rest) = name.
Proof.
  induction name as [|c name IH]; cbn [append String.length substring].
  - destruct rest; reflexivity.
  - rewrite IH. reflexivity.
Qed.

(** X4: every builtin can be reached from a source.  At the name of an entry
    of the builtin table, followed by a character that does not go on with
    an identifier, and with no table of the caller's, the tokenizer takes
    the whole name and returns the token of that entry: its type code and
    its function. *)
Theorem builtin_names_tokenize (v : te_variable) (s : state) (rest : string) :
  In v functions ->
  no_table s -> identifier_char (deref rest) = false ->
  s_next s = v_name v ++ rest ->
  next_token s =
  Some (set_u (set_type (set_next s rest) (v_type v)) (U_function (v_address v))).
Proof.
  intros Hin Hno Hrest Hs.
  pose proof builtins_reachable as Hall. rewrite Forall_forall in Hall.
  destruct (Hall v Hin) as (Halpha & Hscan & Hnul & Hfind & Htoken & Htype).
  assert (Hhead : deref (v_name v ++ rest) = deref (v_name v)).
  { destruct (v_name v); [discriminate Halpha | reflexivity]. }
  destruct (isalpha_starts_identifier _ Halpha) as (H1 & H2 & H3).
  assert (Hbody : next_token_body (set_type s TOK_NULL) =
                  Some (false, set_u (set_type (set_next s rest) (v_type v))
                                     (U_function (v_address v)))).
  { unfold next_token_body. cbn [s_next set_type]. rewrite Hs, Hhead.
    rewrite H1, H2, H3, Halpha. cbn [orb].
    rewrite Hscan, (scan_identifier_stop rest Hrest).
    cbn [s_next set_next]. rewrite ptrdiff_append.
    rewrite find_lookup_no_table by exact Hno.
    rewrite find_builtin_find by (apply strlen_append; exact Hnul).
    rewrite substring_append, Hfind. cbn [bind]. rewrite Htoken. reflexivity. }
  unfold next_token. cbn [next_token_loop]. rewrite Hbody. cbn [bind].
  cbn [s_type set_u set_type]. rewrite Htype. reflexivity.
Qed.

Lemma builtin_names_tokenize_witness :
  next_token (start_state "atan2(1,2)") =
  Some (set_u (set_type (set_next (start_state "atan2(1,2)") "(1,2)")
                        (Z.lor TE_FUNCTION2 TE_FLAG_PURE))
              (U_function (Cfun Fatan2))).
Proof.
  apply (builtin_names_tokenize (builtin "atan2" Fatan2 (Z.lor TE_FUNCTION2 TE_FLAG_PURE))
           (start_state "atan2(1,2)") "(1,2)").
  - simpl. auto 10.
  - left. reflexivity.
  - reflexivity.
  - reflexivity.
Defined.

(* ------------------------------------------------------------------------- *)
(** ** What the tokenizer state keeps through a parse *)

Section StateInvariant.

Variable P : state -> Prop.
Hypothesis HP : token_invariant P.

Lemma invariant_token (s s' : state) : P s -> next_token s = Some s' -> P s'.
Proof. destruct HP as (H & _). apply H. Qed.

Lemma invariant_error (s : state) : P s -> P (set_type s TOK_ERROR).
Proof. destruct HP as (_ & H & _). apply H. Qed.

Lemma invariant_node (t : Z) (ps : list te_expr) (s s' : state) (r : option te_expr) :
  P s -> new_expr t ps s = (r, s') -> P s'.
Proof.
  destruct HP as (_ & _ & H). intros Hs E.
  specialize (H t ps s Hs). rewrite E in H. exact H.
Qed.

Ltac tok H t :=
  let E := fresh "E" in
  apply bind_some in H; destruct H as (t & E & H);
  match type of E with
  | next_token ?s = _ =>
      match goal with Hs : P s |- _ => pose proof (invariant_token s t Hs E) end
  end.

Ltac sub H Hop p t :=
  let E := fresh "E" in
  apply bind_some in H; destruct H as ([p t] & E & H);
  match type of E with
  | _ ?s = _ =>
      match goal with Hs : P s |- _ => pose proof (Hop _ _ _ Hs E) end
  end.

Ltac node H n t :=
  match type of H with
  | context [new_expr ?ty ?ps ?s] =>
      let E := fresh "E" in
      destruct (new_expr ty ps s) as [[n|] t] eqn:E;
      match goal with Hs : P s |- _ => pose proof (invariant_node ty ps s t _ Hs E) end
  end.

Ltac close H := inv H; first [assumption | apply invariant_error; assumption].

Lemma binary_chain_preserves (continues : state -> option pointer)
    (operand : parser) (fuel : nat) :
  preserves P operand ->
  forall ret, preserves P (binary_chain continues operand fuel ret).
Proof.
  intros Ho.
  induction fuel as [|fuel IH]; intros ret s r s' Hs; simpl;
    destruct (continues s) as [t|]; intros H; try discriminate;
    try (inv H; assumption).
  tok H t1. sub H Ho p t2.
  destruct p as [p|]; [|close H].
  node H n t3; [|close H].
  eapply IH; eassumption.
Qed.

Lemma arguments_preserves (operand : parser) (n : nat) :
  preserves P operand ->
  forall i params s,
    P s ->
    match arguments operand n i params s with
    | Some (Arguments_null s') => P s'
    | Some (Arguments_exit _ _ s') => P s'
    | None => True
    end.
Proof.
  intros Ho.
  induction n as [|n IH]; intros i params s Hs; simpl; [exact Hs|].
  destruct (next_token s) as [s1|] eqn:E1; simpl; [|exact I].
  pose proof (invariant_token _ _ Hs E1) as H1.
  destruct (operand s1) as [[p s2]|] eqn:E2; simpl; [|exact I].
  pose proof (Ho _ _ _ H1 E2) as H2.
  destruct p as [p|]; [|exact H2].
  destruct (negb (s_type s2 =? TOK_SEP)%Z); [exact H2|].
  exact (IH _ _ _ H2).
Qed.

Lemma power_signs_preserves (fuel : nat) :
  forall sign s sign' s',
    P s -> power_signs fuel sign s = Some (sign', s') -> P s'.
Proof.
  induction fuel as [|fuel IH]; intros sign s sign' s' Hs; simpl;
    destruct (additive s) as [t|]; intros H; try discriminate;
    try (inv H; assumption).
  tok H t1. eapply IH; eassumption.
Qed.

Lemma base_body_preserves (power expr list_ : parser) :
  preserves P power -> preserves P expr -> preserves P list_ ->
  preserves P (base_body power expr list_).
Proof.
  intros Hp He Hl s r s' Hs. unfold base_body.
  destruct (TYPE_MASK (s_type s) =? TOK_NUMBER)%Z.
  { intros H. node H n t1; [|close H]. tok H t2. close H. }
  destruct (TYPE_MASK (s_type s) =? TOK_VARIABLE)%Z.
  { intros H. node H n t1; [|close H]. tok H t2. close H. }
  destruct ((TYPE_MASK (s_type s) =? TE_FUNCTION0)%Z
            || (TYPE_MASK (s_type s) =? TE_CLOSURE0)%Z).
  { intros H. node H n t1; [|close H]. tok H t2.
    destruct (s_type t2 =? TOK_OPEN)%Z; [|close H].
    tok H t3. destruct (negb (s_type t3 =? TOK_CLOSE)%Z); [close H|].
    tok H t4. close H. }
  destruct ((TYPE_MASK (s_type s) =? TE_FUNCTION1)%Z
            || (TYPE_MASK (s_type s) =? TE_CLOSURE1)%Z).
  { intros H. tok H t1. sub H Hp p t2.
    destruct p as [p|]; [|close H].
    node H n t3; close H. }
  destruct (is_function_kind (TYPE_MASK (s_type s))
            || is_closure_kind (TYPE_MASK (s_type s))).
  { intros H. tok H t1.
    destruct (negb (s_type t1 =? TOK_OPEN)%Z); [close H|].
    apply bind_some in H. destruct H as (ra & Ea & H).
    pose proof (arguments_preserves expr (Z.to_nat (ARITY (s_type s))) He 0%Z [] t1
                  ltac:(assumption)) as Ha.
    rewrite Ea in Ha.
    destruct ra as [t2 | i params t2]; [close H|].
    destruct (negb _ || negb _); [step_free H; close H|].
    tok H t3. node H n t4; [close H | step_free H; close H]. }
  destruct (TYPE_MASK (s_type s) =? TOK_OPEN)%Z.
  { intros H. tok H t1. sub H Hl p t2.
    destruct p as [p|]; [|close H].
    destruct (negb (s_type t2 =? TOK_CLOSE)%Z); [close H|].
    tok H t3. close H. }
  intros H. node H n t1; close H.
Qed.

Lemma power_body_preserves (base : parser) (fuel : nat) :
  preserves P base -> preserves P (power_body base fuel).
Proof.
  intros Hb s r s' Hs H. unfold power_body in H.
  apply bind_some in H. destruct H as ([sign t1] & E & H).
  pose proof (power_signs_preserves _ _ _ _ _ Hs E) as H1.
  destruct (sign =? 1)%Z; [exact (Hb _ _ _ H1 H)|].
  sub H Hb b t2.
  destruct b as [b|]; [|close H].
  node H n t3; close H.
Qed.

Lemma chain_body_preserves (continues : state -> option pointer) (operand : parser)
    (fuel : nat) :
  preserves P operand -> preserves P (chain_body continues operand fuel).
Proof.
  intros Ho s r s' Hs H. unfold chain_body in H.
  sub H Ho ret t1.
  destruct ret as [ret|]; [|close H].
  eapply (binary_chain_preserves continues operand fuel Ho ret); eassumption.
Qed.

Lemma productions_preserve (fuel : nat) :
  preserves P (Parse.base fuel) /\ preserves P (Parse.power fuel) /\
  preserves P (Parse.factor fuel) /\ preserves P (Parse.term fuel) /\
  preserves P (Parse.expr fuel) /\ preserves P (Parse.list fuel).
Proof.
  induction fuel as [|fuel (Hb & Hp & Hf & Ht & He & Hl)].
  - repeat match goal with |- _ /\ _ => split end;
      intros s r s' _ H; discriminate.
  - repeat match goal with |- _ /\ _ => split end; simpl.
    + apply base_body_preserves; assumption.
    + apply power_body_preserves; assumption.
    + apply chain_body_preserves; assumption.
    + apply chain_body_preserves; assumption.
    + apply chain_body_preserves; assumption.
    + apply chain_body_preserves; assumption.
Qed.

End StateInvariant.

Lemma next_token_within (s s' : state) :
  next_token s = Some s' ->
  within (s_next s') (s_next s) /\ s_type s' <> TOK_NULL /\
  (s_type s' = TOK_END -> is_nul (deref (s_next s')) = true).
Proof.
  unfold next_token. intros E.
  exact (next_token_loop_within _ (set_type s TOK_NULL) s' eq_refl E).
Qed.

Lemma at_end_only_at_nul_invariant : token_invariant at_end_only_at_nul.
Proof.
  unfold at_end_only_at_nul. split; [|split].
  - intros s s' (Hw & _) E.
    destruct (next_token_within _ _ E) as (Hw' & _ & He).
    destruct (next_token_inv _ _ E) as ((Hs & _) & _).
    rewrite Hs. split; [eapply within_trans; eassumption | exact He].
  - intros s (Hw & _). split; [exact Hw | discriminate].
  - intros t ps s (Hw & He).
    destruct (new_expr_state t ps s) as (H1 & H2 & H3 & _).
    rewrite H1, H2, H3. split; assumption.
Qed.

Lemma no_nul_within (p q : string) :
  no_nul p -> within q p -> is_nul (deref q) = true -> q = "".
Proof.
  intros Hp (pre & ->) Hq. revert Hp.
  induction pre as [|c pre IH]; unfold no_nul; cbn [append].
  - destruct q as [|d q]; [reflexivity|]. cbn [deref] in Hq.
    cbn [strlen String.length]. rewrite Hq. discriminate.
  - cbn [strlen String.length]. destruct (is_nul c); [discriminate|].
    intros H. apply IH. unfold no_nul. lia.
Qed.

(** X5: a tree is returned only when, after its last token, the tokenizer
    stands on the terminating NUL of the source: nothing that follows an
    expression is passed over. *)
Theorem compiled_source_is_consumed (W : world) (heap : list bool)
    (expression : string) (variables : option (list te_variable))
    (var_count : nat) (root : te_expr) (error : Z) :
  te_compile W heap expression variables var_count = Some (Some root, error) ->
  exists s tree s',
    first_token heap expression variables var_count s /\
    Parse.list (parse_fuel expression) s = Some (Some tree, s') /\
    root = optimize W tree /\
    s_type s' = TOK_END /\
    within (s_next s') expression /\ is_nul (deref (s_next s')) = true /\
    (no_nul expression -> s_next s' = "").
Proof.
  unfold te_compile, first_token. intros H.
  apply bind_some in H. destruct H as (s & E & H).
  apply bind_some in H. destruct H as ([r s'] & E' & H).
  destruct r as [tree|]; [|discriminate].
  destruct (s_type s' =? TOK_END)%Z eqn:Ee; [|discriminate].
  simpl in H. inv H. apply Z.eqb_eq in Ee.
  exists s, tree, s'. split; [exact E|]. split; [exact E'|]. split; [reflexivity|].
  split; [exact Ee|].
  assert (H0 : at_end_only_at_nul (initial_state heap expression variables var_count)).
  { split; [apply within_refl | discriminate]. }
  destruct at_end_only_at_nul_invariant as (Ht & _).
  pose proof (Ht _ _ H0 E) as H1.
  destruct (productions_preserve _ at_end_only_at_nul_invariant (parse_fuel expression))
    as (_ & _ & _ & _ & _ & Hl).
  destruct (Hl _ _ _ H1 E') as (Hw & He).
  destruct (productions_inv (parse_fuel expression)) as (_ & _ & _ & _ & _ & Kl).
  destruct (Kl _ _ _ E') as ((Hs & _) & _).
  destruct (next_token_inv _ _ E) as ((Hs0 & _) & _).
  rewrite Hs, Hs0 in Hw. simpl in Hw.
  split; [exact Hw|]. split; [exact (He Ee)|].
  intros Hn. exact (no_nul_within _ _ Hn Hw (He Ee)).
Qed.

Lemma compiled_source_is_consumed_witness :
  exists s tree s',
    first_token [] "2*(3+4)" None 0 s /\
    Parse.list (parse_fuel "2*(3+4)") s = Some (Some tree, s') /\
    Expr TE_CONSTANT (U_value 14) [] NULL = optimize bare_world tree /\
    s_type s' = TOK_END /\
    within (s_next s') "2*(3+4)" /\ is_nul (deref (s_next s')) = true /\
    (no_nul "2*(3+4)" -> s_next s' = "").
Proof.
  apply (compiled_source_is_consumed bare_world [] "2*(3+4)" None 0
           (Expr TE_CONSTANT (U_value 14) [] NULL) 0%Z).
  vm_compute. reflexivity.
Defined.

#[local] Close Scope string_scope.

(* ------------------------------------------------------------------------- *)
(** ** The shape of the trees *)

Lemma new_expr_node (t : Z) (ps : list te_expr) (s s1 : state) (n : te_expr) :
  new_expr t ps s = (Some n, s1) ->
  n = Expr t (U_bound NULL) (firstn (Z.to_nat (ARITY t)) ps) NULL.
Proof.
  unfold new_expr. destruct (malloc s) as [[] s2]; intros H; inv H. reflexivity.
Qed.

Lemma well_formed_node (t : Z) (u : union) (ps : list te_expr) (c : pointer) :
  (t =? TE_CONSTANT)%Z || (t =? TE_VARIABLE)%Z || is_call t = true ->
  List.length ps = Z.to_nat (ARITY t) ->
  forallb well_formed ps = true ->
  well_formed (Expr t u ps c) = true.
Proof.
  intros Ht Hl Hp. cbn [well_formed]. rewrite Ht, Hp, Hl, Nat.eqb_refl. reflexivity.
Qed.

Lemma well_formed_set_e_u (n : te_expr) (u : union) :
  well_formed (set_e_u n u) = well_formed n.
Proof. destruct n; reflexivity. Qed.

Lemma well_formed_bind_callable (n : te_expr) (t : Z) (f c : pointer) :
  well_formed (bind_callable n t f c) = well_formed n.
Proof. destruct n. unfold bind_callable. destruct (IS_PURE t), (IS_CLOSURE t); reflexivity. Qed.

Section LoopShapes.

Variable operand : parser.
Hypothesis operand_builds : builds operand.

Lemma binary_chain_builds (continues : state -> option pointer) (fuel : nat) :
  forall ret s n s',
    well_formed ret = true ->
    binary_chain continues operand fuel ret s = Some (Some n, s') ->
    well_formed n = true.
Proof.
  induction fuel as [|fuel IH]; intros ret s n s' Hret; simpl;
    destruct (continues s) as [t|]; intros H; try discriminate;
    try (inv H; assumption).
  step_bind H. step_bind H. destruct s1 as [p s2].
  destruct p as [p|]; [|discriminate].
  apply operand_builds in E0.
  destruct (new_expr _ _ s2) as [[m|] s3] eqn:E3; [|discriminate].
  apply new_expr_node in E3. subst m.
  apply IH in H; [exact H|].
  rewrite well_formed_set_e_u. apply well_formed_node; [reflexivity | reflexivity|].
  simpl. rewrite Hret, E0. reflexivity.
Qed.

Lemma arguments_builds (n : nat) :
  forall i params s j ps s',
    forallb well_formed params = true ->
    Z.of_nat (List.length params) = i ->
    arguments operand n i params s = Some (Arguments_exit j ps s') ->
    forallb well_formed ps = true /\
    (Z.of_nat (List.length ps) = (j + 1)%Z \/ j = (i + Z.of_nat n)%Z).
Proof.
  induction n as [|n IH]; intros i params s j ps s' Hw Hl; simpl; intros H.
  { inv H. split; [exact Hw | right; lia]. }
  step_bind H. step_bind H. destruct s1 as [p s2].
  destruct p as [p|]; [|discriminate].
  apply operand_builds in E0.
  assert (Hw' : forallb well_formed (params ++ [p]) = true).
  { rewrite forallb_app, Hw. simpl. rewrite E0. reflexivity. }
  assert (Hl' : Z.of_nat (List.length (params ++ [p])) = (i + 1)%Z).
  { rewrite length_app. simpl. lia. }
  destruct (negb (s_type s2 =? TOK_SEP)%Z).
  - inv H. split; [exact Hw' | left; exact Hl'].
  - destruct (IH _ _ _ _ _ _ Hw' Hl' H) as (Hps & Hj).
    split; [exact Hps|]. destruct Hj as [Hj|Hj]; [left; exact Hj | right; lia].
Qed.

End LoopShapes.

Lemma well_formed_call (t : Z) (u : union) (ps : list te_expr) (c : pointer) :
  is_call t = true ->
  List.length ps = Z.to_nat (ARITY t) ->
  forallb well_formed ps = true ->
  well_formed (Expr t u ps c) = true.
Proof.
  intros Ht. apply well_formed_node. rewrite Ht. apply orb_true_r.
Qed.

Lemma base_body_builds (power expr list_ : parser) :
  builds power -> builds expr -> builds list_ -> builds (base_body power expr list_).
Proof.
  intros Hp He Hl s n s'. unfold base_body.
  destruct (TYPE_MASK (s_type s) =? TOK_NUMBER)%Z.
  { destruct (new_expr _ _ s) as [[m|] s1] eqn:E1; intros H; [|discriminate].
    apply new_expr_node in E1. subst m. step_bind H. inv H. reflexivity. }
  destruct (TYPE_MASK (s_type s) =? TOK_VARIABLE)%Z.
  { destruct (new_expr _ _ s) as [[m|] s1] eqn:E1; intros H; [|discriminate].
    apply new_expr_node in E1. subst m. step_bind H. inv H. reflexivity. }
  destruct ((TYPE_MASK (s_type s) =? TE_FUNCTION0)%Z
            || (TYPE_MASK (s_type s) =? TE_CLOSURE0)%Z) eqn:K0.
  { destruct (kind_arity0 _ K0) as (Hc & Ha).
    destruct (new_expr _ _ s) as [[m|] s1] eqn:E1; intros H; [|discriminate].
    apply new_expr_node in E1. subst m.
    assert (Hw : well_formed
                   (bind_callable
                      (Expr (s_type s) (U_bound NULL)
                            (firstn (Z.to_nat (ARITY (s_type s))) []) NULL)
                      (s_type s) (function (s_u s)) (s_context s)) = true).
    { rewrite well_formed_bind_callable.
      apply well_formed_call; [exact Hc | |]; rewrite Ha; reflexivity. }
    step_bind H. destruct (s_type s0 =? TOK_OPEN)%Z; [|inv H; exact Hw].
    step_bind H. destruct (negb (s_type s2 =? TOK_CLOSE)%Z); [inv H; exact Hw|].
    step_bind H. inv H. exact Hw. }
  destruct ((TYPE_MASK (s_type s) =? TE_FUNCTION1)%Z
            || (TYPE_MASK (s_type s) =? TE_CLOSURE1)%Z) eqn:K1.
  { destruct (kind_arity1 _ K1) as (Hc & Ha).
    intros H. step_bind H. step_bind H. destruct s1 as [p s2].
    destruct p as [p|]; [|discriminate]. apply Hp in E0.
    destruct (new_expr _ _ s2) as [[m|] s3] eqn:E3; [|discriminate].
    apply new_expr_node in E3. subst m. inv H.
    rewrite well_formed_bind_callable. rewrite Ha.
    apply well_formed_call; [exact Hc | rewrite Ha; reflexivity|].
    simpl. rewrite E0. reflexivity. }
  destruct (is_function_kind (TYPE_MASK (s_type s))
            || is_closure_kind (TYPE_MASK (s_type s))) eqn:KN.
  { assert (Hc : is_call (s_type s) = true) by exact KN.
    intros H. step_bind H.
    destruct (negb (s_type s0 =? TOK_OPEN)%Z); [discriminate|].
    step_bind H. destruct s1 as [s2 | i params s2]; [discriminate|].
    destruct (negb (s_type s2 =? TOK_CLOSE)%Z) eqn:Ecl;
      [cbn [orb] in H; step_free H; discriminate H|].
    destruct (i =? ARITY (s_type s) - 1)%Z eqn:Ei;
      [|cbn [negb orb] in H; step_free H; discriminate H].
    cbn [negb orb] in H. apply Z.eqb_eq in Ei.
    step_bind H.
    destruct (new_expr _ _ s1) as [[m|] s4] eqn:E4; [|step_free H; discriminate H].
    apply new_expr_node in E4. subst m. inv H.
    destruct (arguments_builds expr He (Z.to_nat (ARITY (s_type s))) 0%Z [] s0 _ _ _ eq_refl eq_refl E0) as (Hps & Hj).
    assert (Ha : (0 <= ARITY (s_type s))%Z).
    { destruct (call_kind _ Hc) as [(Ha & _) | [(Ha & _) | (Ha & _)]]; lia. }
    rewrite well_formed_bind_callable.
    apply well_formed_call; [exact Hc | |].
    - rewrite firstn_all2; lia.
    - rewrite firstn_all2 by lia. exact Hps. }
  destruct (TYPE_MASK (s_type s) =? TOK_OPEN)%Z.
  { intros H. step_bind H. step_bind H. destruct s1 as [ret s2].
    destruct ret as [m|]; [|discriminate]. apply Hl in E0.
    destruct (negb (s_type s2 =? TOK_CLOSE)%Z); [inv H; exact E0|].
    step_bind H. inv H. exact E0. }
  destruct (new_expr _ _ s) as [[m|] s1] eqn:E1; intros H; [|discriminate].
  apply new_expr_node in E1. subst m. inv H. reflexivity.
Qed.

Lemma power_body_builds (base : parser) (fuel : nat) :
  builds base -> builds (power_body base fuel).
Proof.
  intros Hb s n s' H. unfold power_body in H.
  step_bind H. destruct s0 as [sign s1].
  destruct (sign =? 1)%Z; [apply Hb in H; exact H|].
  step_bind H. destruct s0 as [b s2].
  destruct b as [b|]; [|discriminate]. apply Hb in E0.
  destruct (new_expr _ _ s2) as [[m|] s3] eqn:E3; [|discriminate].
  apply new_expr_node in E3. subst m. inv H.
  apply well_formed_node; [reflexivity | reflexivity|].
  simpl. rewrite E0. reflexivity.
Qed.

Lemma chain_body_builds (continues : state -> option pointer) (operand : parser)
    (fuel : nat) :
  builds operand -> builds (chain_body continues operand fuel).
Proof.
  intros Ho s n s' H. unfold chain_body in H.
  step_bind H. destruct s0 as [ret s1].
  destruct ret as [ret|]; [|discriminate].
  apply Ho in E. exact (binary_chain_builds operand Ho continues fuel _ _ _ _ E H).
Qed.

Lemma productions_build (fuel : nat) :
  builds (Parse.base fuel) /\ builds (Parse.power fuel) /\
  builds (Parse.factor fuel) /\ builds (Parse.term fuel) /\
  builds (Parse.expr fuel) /\ builds (Parse.list fuel).
Proof.
  induction fuel as [|fuel (Hb & Hp & Hf & Ht & He & Hl)].
  - repeat match goal with |- _ /\ _ => split end;
      intros s n s' H; discriminate.
  - repeat match goal with |- _ /\ _ => split end; simpl.
    + apply base_body_builds; assumption.
    + apply power_body_builds; assumption.
    + apply chain_body_builds; assumption.
    + apply chain_body_builds; assumption.
    + apply chain_body_builds; assumption.
    + apply chain_body_builds; assumption.
Qed.

Lemma map_first_length (A : Type) (f : A -> A) (l : list A) :
  forall k, List.length (map_first f k l) = List.length l.
Proof.
  induction l as [|x l IH]; intros k; simpl; [reflexivity|].
  destruct k; simpl; [reflexivity | rewrite IH; reflexivity].
Qed.

Lemma map_first_forallb (A : Type) (P : A -> bool) (f : A -> A) (l : list A) :
  Forall (fun x => P x = true -> P (f x) = true) l ->
  forallb P l = true ->
  forall k, forallb P (map_first f k l) = true.
Proof.
  induction 1 as [|x l Hx _ IH]; intros Hl k; simpl; [reflexivity|].
  simpl in Hl. apply andb_true_iff in Hl. destruct Hl as (Hpx & Hpl).
  destruct k; simpl; [rewrite Hpx, Hpl; reflexivity|].
  rewrite (Hx Hpx), (IH Hpl). reflexivity.
Qed.

Lemma optimize_well_formed (W : world) (n : te_expr) :
  well_formed n = true -> well_formed (optimize W n) = true.
Proof.
  induction n as [type u ps c IH] using te_expr_forall_ind. intros Hw.
  cbn [optimize].
  destruct (type =? TE_CONSTANT)%Z; [exact Hw|].
  destruct (type =? TE_VARIABLE)%Z; [exact Hw|].
  destruct (IS_PURE type); [|exact Hw].
  destruct (forallb _ _); [reflexivity|].
  cbn [well_formed] in *.
  apply andb_true_iff in Hw. destruct Hw as (Hw & Hps).
  rewrite map_first_length, Hw. apply (map_first_forallb _ _ _ _ IH Hps).
Qed.

(** X6: every tree [te_compile] returns is made of constants, variables and
    calls, and each of its nodes holds exactly as many children as the arity
    in its type code. *)
Theorem compiled_tree_is_well_formed (W : world) (heap : list bool)
    (expression : string) (variables : option (list te_variable))
    (var_count : nat) (root : te_expr) (error : Z) :
  te_compile W heap expression variables var_count = Some (Some root, error) ->
  well_formed root = true.
Proof.
  unfold te_compile. intros H. step_bind H. step_bind H. destruct s0 as [r s1].
  destruct r as [tree|]; [|discriminate].
  destruct (negb (s_type s1 =? TOK_END)%Z); [discriminate|]. inv H.
  apply optimize_well_formed.
  destruct (productions_build (parse_fuel expression)) as (_ & _ & _ & _ & _ & Hl).
  exact (Hl _ _ _ E0).
Qed.

Lemma compiled_tree_is_well_formed_witness :
  well_formed
    (call2 (Cfun Fadd) (Expr TE_VARIABLE (U_bound (Addr 0)) [] NULL) (constant 1)) =
  true.
Proof.
  apply (compiled_tree_is_well_formed bare_world [] "x+1" table_x 1 _ 0%Z).
  vm_compute. reflexivity.
Defined.

(* ------------------------------------------------------------------------- *)
(** ** Allocation failures *)

Lemma identifier_token_set_heap (v : te_variable) (s : state) (h : list bool) :
  identifier_token v (set_heap s h) = set_heap (identifier_token v s) h.
Proof. unfold identifier_token. repeat break_if; reflexivity. Qed.

Lemma operator_token_set_heap (c : ascii) (s : state) (h : list bool) :
  operator_token c (set_heap s h) = set_heap (operator_token c s) h.
Proof. unfold operator_token. repeat break_if; reflexivity. Qed.

Lemma next_token_body_set_heap (s : state) (h : list bool) :
  next_token_body (set_heap s h) =
  match next_token_body s with
  | Some (returned, s1) => Some (returned, set_heap s1 h)
  | None => None
  end.
Proof.
  unfold next_token_body. cbn [s_next set_heap].
  destruct (is_nul (deref (s_next s))); [reflexivity|].
  destruct (isdigit (deref (s_next s)) || Ascii.eqb (deref (s_next s)) ".").
  { destruct (strtod (s_next s)) as [v q]. reflexivity. }
  destruct (isalpha (deref (s_next s))).
  { change (find_lookup (set_next (State (s_start s) (s_next s) (s_type s) (s_u s)
                                         (s_context s) (s_lookup s) (s_lookup_len s) h)
                                  (scan_identifier (s_next s))))
      with (find_lookup (set_next s (scan_identifier (s_next s)))).
    cbn [s_next set_next].
    destruct (match find_lookup _ _ _ with Some v => Some (Some v) | None => _ end)
      as [[v|]|]; cbn [bind]; [|reflexivity | reflexivity].
    f_equal. f_equal. apply (identifier_token_set_heap v (set_next s _) h). }
  f_equal. f_equal.
  apply (operator_token_set_heap _ (set_next s (advance (s_next s))) h).
Qed.

Lemma next_token_loop_set_heap (fuel : nat) (h : list bool) :
  forall s,
    next_token_loop fuel (set_heap s h) =
    match next_token_loop fuel s with
    | Some s' => Some (set_heap s' h)
    | None => None
    end.
Proof.
  induction fuel as [|fuel IH]; intros s; [reflexivity|].
  cbn [next_token_loop]. rewrite next_token_body_set_heap.
  destruct (next_token_body s) as [[returned s1]|]; cbn [bind]; [|reflexivity].
  destruct returned; [reflexivity|].
  cbn [s_type set_heap]. destruct (s_type s1 =? TOK_NULL)%Z; [apply IH | reflexivity].
Qed.

(** The tokenizer does not look at the allocator. *)
Lemma next_token_set_heap (s : state) (h : list bool) :
  next_token (set_heap s h) =
  match next_token s with
  | Some s' => Some (set_heap s' h)
  | None => None
  end.
Proof.
  unfold next_token. cbn [s_next set_heap].
  apply (next_token_loop_set_heap _ h (set_type s TOK_NULL)).
Qed.

Lemma next_token_exhausted (s s0 : state) :
  next_token (set_heap s []) = Some s0 ->
  exists s1, next_token s = Some s1 /\ set_heap s1 [] = s0.
Proof.
  rewrite next_token_set_heap. destruct (next_token s) as [s1|]; intros H; inv H.
  exists s1. split; reflexivity.
Qed.

Lemma new_expr_exhausted (t : Z) (ps : list te_expr) (s : state) :
  new_expr t ps (set_heap s []) =
  (Some (Expr t (U_bound NULL) (firstn (Z.to_nat (ARITY t)) ps) NULL), set_heap s []).
Proof. reflexivity. Qed.

Lemma new_expr_either (t : Z) (ps : list te_expr) (s : state) :
  exists r s1,
    new_expr t ps s = (r, s1) /\ set_heap s1 [] = set_heap s [] /\
    s_type s1 = s_type s /\
    (r = None \/ r = Some (Expr t (U_bound NULL) (firstn (Z.to_nat (ARITY t)) ps) NULL)).
Proof.
  unfold new_expr, malloc. destruct (s_heap s) as [|[] h]; do 2 eexists;
    (split; [reflexivity|]); repeat split; auto.
Qed.

Ltac same_token H :=
  change (s_type (set_heap ?s [])) with (s_type s) in H;
  change (s_u (set_heap ?s [])) with (s_u s) in H;
  change (s_context (set_heap ?s [])) with (s_context s) in H.

(** The next step of a run in which every allocation succeeds is a call of
    the tokenizer: the same call is the next step of the run on [s]. *)
Ltac token_step H t E :=
  let x := fresh "x" in
  let Ex := fresh "Ex" in
  apply bind_some in H; destruct H as (x & Ex & H);
  apply next_token_exhausted in Ex; destruct Ex as (t & E & <-);
  rewrite E; cbn [bind].

Ltac give_null := do 2 eexists; split; [reflexivity | left; reflexivity].

Section LoopSurvival.

Variable operand : parser.
Hypothesis operand_survives : survives operand.

Lemma binary_chain_survives (continues : state -> option pointer) (fuel : nat) :
  heap_blind continues ->
  forall ret, survives (binary_chain continues operand fuel ret).
Proof.
  intros Hblind.
  induction fuel as [|fuel IH]; intros ret s r0 s0 H; cbn [binary_chain] in *;
    rewrite Hblind in H; destruct (continues s) as [t|]; try discriminate;
    try (inv H; do 2 eexists; split; [reflexivity | right; split; reflexivity]).
  token_step H t1 E1.
  apply bind_some in H. destruct H as ([p0 t2_0] & E & H).
  destruct (operand_survives _ _ _ E) as (p & t2 & E2 & Hp).
  rewrite E2. cbn [bind].
  destruct Hp as [-> | (-> & <-)]; [give_null|].
  destruct p0 as [q|]; [|give_null].
  rewrite new_expr_exhausted in H.
  destruct (new_expr_either (Z.lor TE_FUNCTION2 TE_FLAG_PURE) [ret; q] t2)
    as (r & t3 & E3 & Hs3 & _ & Hr).
  rewrite E3. rewrite <- Hs3 in H.
  destruct Hr as [-> | ->]; [give_null|].
  exact (IH _ _ _ _ H).
Qed.

Lemma arguments_survives (n : nat) :
  forall i params s rB,
    arguments operand n i params (set_heap s []) = Some rB ->
    exists rA,
      arguments operand n i params s = Some rA /\
      ((exists s', rA = Arguments_null s') \/
       (exists j ps s',
           rA = Arguments_exit j ps s' /\ rB = Arguments_exit j ps (set_heap s' []))).
Proof.
  induction n as [|n IH]; intros i params s rB H; cbn [arguments] in *.
  { inv H. eexists; split; [reflexivity|]. right. do 3 eexists. split; reflexivity. }
  token_step H t1 E1.
  apply bind_some in H. destruct H as ([p0 t2_0] & E & H).
  destruct (operand_survives _ _ _ E) as (p & t2 & E2 & Hp).
  rewrite E2. cbn [bind].
  destruct Hp as [-> | (-> & <-)];
    [eexists; split; [reflexivity | left; eexists; reflexivity]|].
  destruct p0 as [q|];
    [|eexists; split; [reflexivity | left; eexists; reflexivity]].
  same_token H.
  destruct (negb (s_type t2 =? TOK_SEP)%Z).
  - inv H. eexists; split; [reflexivity|]. right. do 3 eexists. split; reflexivity.
  - exact (IH _ _ _ _ H).
Qed.

End LoopSurvival.

Lemma power_signs_survives (fuel : nat) :
  forall sign s sign' s0,
    power_signs fuel sign (set_heap s []) = Some (sign', s0) ->
    exists s', power_signs fuel sign s = Some (sign', s') /\ set_heap s' [] = s0.
Proof.
  induction fuel as [|fuel IH]; intros sign s sign' s0 H; cbn [power_signs] in *;
    change (additive (set_heap s [])) with (additive s) in H;
    destruct (additive s) as [t|]; try discriminate;
    try (inv H; eexists; split; reflexivity).
  token_step H t1 E1. exact (IH _ _ _ _ H).
Qed.

Ltac give_same := do 2 eexists; split; [reflexivity | right; split; reflexivity].

(** The allocation that is the next step of both runs: it fails on [s], or
    it gives the node it gives when every allocation succeeds. *)
Ltac node_step H t :=
  rewrite new_expr_exhausted in H;
  match goal with
  | |- context [new_expr ?ty ?ps ?s] =>
      let r := fresh "r" in
      let E := fresh "E" in
      let Hs := fresh "Hs" in
      let Hr := fresh "Hr" in
      destruct (new_expr_either ty ps s) as (r & t & E & Hs & _ & Hr);
      rewrite E; try rewrite <- Hs in H;
      destruct Hr as [-> | ->]; [give_null|]
  end.

Ltac call_step H Hop p0 t :=
  let E := fresh "E" in
  let E' := fresh "E" in
  let p := fresh "p" in
  let Hp := fresh "Hp" in
  let t0 := fresh "t0" in
  apply bind_some in H; destruct H as ([p0 t0] & E & H);
  destruct (Hop _ _ _ E) as (p & t & E' & Hp);
  rewrite E'; cbn [bind];
  destruct Hp as [-> | (-> & <-)]; [give_null|];
  destruct p0 as [p0|]; [|give_null].

Lemma base_body_survives (power expr list_ : parser) :
  survives power -> survives expr -> survives list_ ->
  survives (base_body power expr list_).
Proof.
  intros Hp He Hl s r0 s0 H. unfold base_body in *. same_token H.
  destruct (TYPE_MASK (s_type s) =? TOK_NUMBER)%Z.
  { node_step H t1. token_step H t2 E2. inv H. give_same. }
  destruct (TYPE_MASK (s_type s) =? TOK_VARIABLE)%Z.
  { node_step H t1. token_step H t2 E2. inv H. give_same. }
  destruct ((TYPE_MASK (s_type s) =? TE_FUNCTION0)%Z
            || (TYPE_MASK (s_type s) =? TE_CLOSURE0)%Z).
  { node_step H t1. token_step H t2 E2. same_token H.
    destruct (s_type t2 =? TOK_OPEN)%Z; [|inv H; give_same].
    token_step H t3 E3. same_token H.
    destruct (negb (s_type t3 =? TOK_CLOSE)%Z); [inv H; give_same|].
    token_step H t4 E4. inv H. give_same. }
  destruct ((TYPE_MASK (s_type s) =? TE_FUNCTION1)%Z
            || (TYPE_MASK (s_type s) =? TE_CLOSURE1)%Z).
  { token_step H t1 E1. call_step H Hp p0 t2.
    node_step H t3. inv H. give_same. }
  destruct (is_function_kind (TYPE_MASK (s_type s))
            || is_closure_kind (TYPE_MASK (s_type s))).
  { token_step H t1 E1. same_token H.
    destruct (negb (s_type t1 =? TOK_OPEN)%Z); [inv H; give_null|].
    apply bind_some in H. destruct H as (rB & Ea & H).
    destruct (arguments_survives expr He _ _ _ _ _ Ea)
      as (rA & Ea' & [(t2 & ->) | (j & ps & t2 & -> & ->)]);
      rewrite Ea'; cbn [bind]; [give_null|].
    same_token H.
    destruct (negb (s_type t2 =? TOK_CLOSE)%Z || negb (j =? ARITY (s_type s) - 1)%Z)
      eqn:Ecount;
      [destruct (free_params _ ps) as [[]|]; [give_null | discriminate H]|].
    apply orb_false_iff in Ecount. destruct Ecount as (_ & Ej).
    apply negb_false_iff in Ej. apply Z.eqb_eq in Ej.
    pose proof (arguments_stored _ _ _ _ _ _ _ _ Ea') as (_ & Hlen).
    cbn [List.length] in Hlen.
    rewrite (free_params_stored ps (Z.to_nat (ARITY (s_type s)))) by lia.
    token_step H t3 E3. node_step H t4. inv H. give_same. }
  destruct (TYPE_MASK (s_type s) =? TOK_OPEN)%Z.
  { token_step H t1 E1. call_step H Hl p0 t2. same_token H.
    destruct (negb (s_type t2 =? TOK_CLOSE)%Z); [inv H; give_same|].
    token_step H t3 E3. inv H. give_same. }
  node_step H t1. inv H.
  do 2 eexists; split; [reflexivity | right; split; [reflexivity|]].
  change (set_heap (set_type t1 TOK_ERROR) [])
    with (set_type (set_heap t1 []) TOK_ERROR).
  reflexivity.
Qed.

Lemma power_body_survives (base : parser) (fuel : nat) :
  survives base -> survives (power_body base fuel).
Proof.
  intros Hb s r0 s0 H. unfold power_body in *.
  apply bind_some in H. destruct H as ([sign t0] & E & H).
  destruct (power_signs_survives _ _ _ _ _ E) as (t1 & E1 & <-).
  rewrite E1. cbn [bind].
  destruct (sign =? 1)%Z; [exact (Hb _ _ _ H)|].
  call_step H Hb p0 t2. node_step H t3. inv H. give_same.
Qed.

Lemma chain_body_survives (continues : state -> option pointer) (operand : parser)
    (fuel : nat) :
  heap_blind continues -> survives operand ->
  survives (chain_body continues operand fuel).
Proof.
  intros Hblind Ho s r0 s0 H. unfold chain_body in *.
  call_step H Ho p0 t1.
  exact (binary_chain_survives operand Ho continues fuel Hblind p0 _ _ _ H).
Qed.

Lemma is_infix_heap_blind (fs : list cfun) : heap_blind (fun s => is_infix s fs).
Proof. intros s h. reflexivity. Qed.

Lemma separator_heap_blind : heap_blind separator.
Proof. intros s h. reflexivity. Qed.

Lemma productions_survive (fuel : nat) :
  survives (Parse.base fuel) /\ survives (Parse.power fuel) /\
  survives (Parse.factor fuel) /\ survives (Parse.term fuel) /\
  survives (Parse.expr fuel) /\ survives (Parse.list fuel).
Proof.
  induction fuel as [|fuel (Hb & Hp & Hf & Ht & He & Hl)].
  - repeat match goal with |- _ /\ _ => split end;
      intros s r0 s0 H; discriminate.
  - repeat match goal with |- _ /\ _ => split end; simpl.
    + apply base_body_survives; assumption.
    + apply power_body_survives; assumption.
    + apply chain_body_survives; [apply is_infix_heap_blind | assumption].
    + apply chain_body_survives; [apply is_infix_heap_blind | assumption].
    + apply chain_body_survives; [apply is_infix_heap_blind | assumption].
    + apply chain_body_survives; [apply separator_heap_blind | assumption].
Qed.

(** A tree is the tree of the run in which every allocation succeeds: no
    allocation behind it failed. *)
Lemma new_expr_steady (t : Z) (ps : list te_expr) (s s1 : state) (n : te_expr) :
  new_expr t ps s = (Some n, s1) ->
  new_expr t ps (set_heap s []) = (Some n, set_heap s1 []).
Proof.
  unfold new_expr, malloc. cbn [s_heap set_heap].
  destruct (s_heap s) as [|[] h]; intros H; inv H; reflexivity.
Qed.

Ltac same_goal :=
  change (s_type (set_heap ?s [])) with (s_type s);
  change (s_u (set_heap ?s [])) with (s_u s);
  change (s_context (set_heap ?s [])) with (s_context s).

Ltac steady_token H t E :=
  apply bind_some in H; destruct H as (t & E & H);
  rewrite next_token_set_heap, E; cbn [bind].

Ltac steady_call H Hop p t E :=
  apply bind_some in H; destruct H as ([[p|] t] & E & H); [|discriminate H];
  rewrite (Hop _ _ _ E); cbn [bind].

Ltac steady_node H m t E :=
  match type of H with
  | context [new_expr ?ty ?ps ?s] =>
      destruct (new_expr ty ps s) as [[m|] t] eqn:E;
      [rewrite (new_expr_steady _ _ _ _ _ E) | try discriminate H]
  end.

Section LoopSteadiness.

Variable operand : parser.
Hypothesis operand_steady : steady operand.

Lemma binary_chain_steady (continues : state -> option pointer) (fuel : nat) :
  heap_blind continues ->
  forall ret, steady (binary_chain continues operand fuel ret).
Proof.
  intros Hblind.
  induction fuel as [|fuel IH]; intros ret s n s' H; cbn [binary_chain] in *;
    rewrite Hblind; destruct (continues s) as [t|]; try discriminate H;
    try (inv H; reflexivity).
  steady_token H t1 E1. steady_call H operand_steady p t2 E2.
  steady_node H m t3 E3. exact (IH _ _ _ _ H).
Qed.

Lemma arguments_steady (n : nat) :
  forall i acc s j ps s',
    arguments operand n i acc s = Some (Arguments_exit j ps s') ->
    arguments operand n i acc (set_heap s []) =
    Some (Arguments_exit j ps (set_heap s' [])).
Proof.
  induction n as [|n IH]; intros i acc s j ps s' H; cbn [arguments] in *.
  { inv H. reflexivity. }
  steady_token H t1 E1. steady_call H operand_steady p t2 E2. same_goal.
  destruct (negb (s_type t2 =? TOK_SEP)%Z); [inv H; reflexivity|].
  exact (IH _ _ _ _ _ _ H).
Qed.

End LoopSteadiness.

Lemma power_signs_steady (fuel : nat) :
  forall sign s sign' s',
    power_signs fuel sign s = Some (sign', s') ->
    power_signs fuel sign (set_heap s []) = Some (sign', set_heap s' []).
Proof.
  induction fuel as [|fuel IH]; intros sign s sign' s' H; cbn [power_signs] in *;
    change (additive (set_heap s [])) with (additive s);
    destruct (additive s) as [t|]; try discriminate H;
    try (inv H; reflexivity).
  steady_token H t1 E1. exact (IH _ _ _ _ H).
Qed.

Lemma base_body_steady (power expr list_ : parser) :
  steady power -> steady expr -> steady list_ ->
  steady (base_body power expr list_).
Proof.
  intros Hp He Hl s n s' H. unfold base_body in *. same_goal.
  destruct (TYPE_MASK (s_type s) =? TOK_NUMBER)%Z.
  { steady_node H m t1 E1. steady_token H t2 E2. inv H. reflexivity. }
  destruct (TYPE_MASK (s_type s) =? TOK_VARIABLE)%Z.
  { steady_node H m t1 E1. steady_token H t2 E2. inv H. reflexivity. }
  destruct ((TYPE_MASK (s_type s) =? TE_FUNCTION0)%Z
            || (TYPE_MASK (s_type s) =? TE_CLOSURE0)%Z).
  { steady_node H m t1 E1. steady_token H t2 E2. same_goal.
    destruct (s_type t2 =? TOK_OPEN)%Z; [|inv H; reflexivity].
    steady_token H t3 E3. same_goal.
    destruct (negb (s_type t3 =? TOK_CLOSE)%Z); [inv H; reflexivity|].
    steady_token H t4 E4. inv H. reflexivity. }
  destruct ((TYPE_MASK (s_type s) =? TE_FUNCTION1)%Z
            || (TYPE_MASK (s_type s) =? TE_CLOSURE1)%Z).
  { steady_token H t1 E1. steady_call H Hp p t2 E2.
    steady_node H m t3 E3. inv H. reflexivity. }
  destruct (is_function_kind (TYPE_MASK (s_type s))
            || is_closure_kind (TYPE_MASK (s_type s))).
  { steady_token H t1 E1. same_goal.
    destruct (negb (s_type t1 =? TOK_OPEN)%Z); [discriminate H|].
    apply bind_some in H. destruct H as ([t2 | j ps t2] & Ea & H);
      [discriminate H|].
    rewrite (arguments_steady expr He _ _ _ _ _ _ _ Ea). cbn [bind]. same_goal.
    destruct (negb (s_type t2 =? TOK_CLOSE)%Z || negb (j =? ARITY (s_type s) - 1)%Z);
      [step_free H; discriminate H|].
    steady_token H t3 E3. steady_node H m t4 E4; [|step_free H; discriminate H].
    inv H. reflexivity. }
  destruct (TYPE_MASK (s_type s) =? TOK_OPEN)%Z.
  { steady_token H t1 E1. steady_call H Hl p t2 E2. same_goal.
    destruct (negb (s_type t2 =? TOK_CLOSE)%Z); [inv H; reflexivity|].
    steady_token H t3 E3. inv H. reflexivity. }
  steady_node H m t1 E1. inv H. reflexivity.
Qed.

Lemma power_body_steady (base : parser) (fuel : nat) :
  steady base -> steady (power_body base fuel).
Proof.
  intros Hb s n s' H. unfold power_body in *.
  apply bind_some in H. destruct H as ([sign t1] & E & H).
  rewrite (power_signs_steady _ _ _ _ _ E). cbn [bind].
  destruct (sign =? 1)%Z; [exact (Hb _ _ _ H)|].
  steady_call H Hb p t2 E2. steady_node H m t3 E3. inv H. reflexivity.
Qed.

Lemma chain_body_steady (continues : state -> option pointer) (operand : parser)
    (fuel : nat) :
  heap_blind continues -> steady operand ->
  steady (chain_body continues operand fuel).
Proof.
  intros Hblind Ho s n s' H. unfold chain_body in *.
  steady_call H Ho p t1 E1.
  exact (binary_chain_steady operand Ho continues fuel Hblind p _ _ _ H).
Qed.

Lemma productions_steady (fuel : nat) :
  steady (Parse.base fuel) /\ steady (Parse.power fuel) /\
  steady (Parse.factor fuel) /\ steady (Parse.term fuel) /\
  steady (Parse.expr fuel) /\ steady (Parse.list fuel).
Proof.
  induction fuel as [|fuel (Hb & Hp & Hf & Ht & He & Hl)].
  - repeat match goal with |- _ /\ _ => split end;
      intros s n s' H; discriminate.
  - repeat match goal with |- _ /\ _ => split end; simpl.
    + apply base_body_steady; assumption.
    + apply power_body_steady; assumption.
    + apply chain_body_steady; [apply is_infix_heap_blind | assumption].
    + apply chain_body_steady; [apply is_infix_heap_blind | assumption].
    + apply chain_body_steady; [apply is_infix_heap_blind | assumption].
    + apply chain_body_steady; [apply separator_heap_blind | assumption].
Qed.

(** X7: an allocation failure has one effect only.  Whatever allocations
    fail, [te_compile] returns what it returns when none fails, or it returns
    [NULL] and reports -1: a failed allocation never yields a tree and never
    shows as an error position. *)
Theorem allocation_failure_reports_minus_one (W : world) (heap : list bool)
    (expression : string) (variables : option (list te_variable))
    (var_count : nat) :
  te_compile W heap expression variables var_count =
  te_compile W [] expression variables var_count \/
  te_compile W heap expression variables var_count = Some (None, (-1)%Z).
Proof.
  unfold te_compile.
  change (initial_state [] expression variables var_count)
    with (set_heap (initial_state heap expression variables var_count) []).
  rewrite next_token_set_heap.
  destruct (next_token (initial_state heap expression variables var_count))
    as [s1|]; cbn [bind]; [|left; reflexivity].
  destruct (productions_survive (parse_fuel expression)) as (_ & _ & _ & _ & _ & Hl).
  destruct (productions_steady (parse_fuel expression)) as (_ & _ & _ & _ & _ & Hs).
  destruct (Parse.list (parse_fuel expression) s1) as [[[n|] s']|] eqn:E.
  - rewrite (Hs _ _ _ E). left. reflexivity.
  - right. reflexivity.
  - destruct (Parse.list (parse_fuel expression) (set_heap s1 [])) as [[r0 s0]|]
      eqn:E0; [|left; reflexivity].
    destruct (Hl _ _ _ E0) as (r & s' & E' & _). rewrite E in E'. discriminate E'.
Qed.

(* ------------------------------------------------------------------------- *)
(** ** Signs and powers *)

(** X8: in the default build a run of signs belongs to the base and not to
    the power: with an odd number of ['-'] signs before [b ^ c], [factor]
    returns the power of the negated base, [(-b) ^ c], as the comment at the
    head of the file announces; so [-2^2] is [pow(-2, 2)]. *)
Theorem sign_binds_tighter_than_power (fuel : nat) (s s1 s2 s3 s4 : state)
    (ts : list pointer) (b c : te_expr) (t : pointer) :
  sign_run s ts s1 -> List.length ts <= fuel ->
  Nat.odd (minuses ts) = true ->
  Parse.base fuel s1 = Some (Some b, s2) -> s_heap s2 = [] ->
  exponent s2 = Some t -> next_token s2 = Some s3 ->
  Parse.power (S fuel) s3 = Some (Some c, s4) -> s_heap s4 = [] ->
  exponent s4 = None ->
  Parse.factor (S (S fuel)) s = Some (Some (call2 t (negation b) c), s4) /\
  forall W, te_interp W [] "-2^2" = Some (extern W Fpow [(-2)%float; 2%float], 0%Z).
Proof.
  intros Hrun Hlen Hodd Hb Hh2 Ht Hn Hc Hh4 Hstop.
  split; [|intros W; vm_compute; reflexivity].
  assert (Hp : Parse.power (S fuel) s = Some (Some (negation b), s2)).
  { cbn [Parse.power]. unfold power_body.
    rewrite (power_signs_run s s1 ts Hrun fuel 1%Z Hlen), Hodd. cbn [bind].
    change (- (1) =? 1)%Z with false. cbv iota. rewrite Hb. cbn [bind].
    rewrite (new_expr_ok _ _ _ Hh2). reflexivity. }
  cbn [Parse.factor]. unfold chain_body. rewrite Hp. cbn [bind].
  rewrite (binary_chain_step _ _ _ (negation b) c t s2 s3 s4 Ht Hn Hc Hh4).
  apply binary_chain_stop. exact Hstop.
Qed.

Lemma sign_binds_tighter_than_power_witness :
  Parse.factor 22
    (State "-2^2" "2^2" TOK_INFIX (U_function (Cfun Fsub)) NULL None 0 []) =
  Some (Some (call2 (Cfun Fpow) (negation (constant 2)) (constant 2)),
        State "-2^2" "" TOK_END (U_value 2) NULL None 0 []).
Proof.
  assert (Hrun : sign_run
            (State "-2^2" "2^2" TOK_INFIX (U_function (Cfun Fsub)) NULL None 0 [])
            [Cfun Fsub]
            (State "-2^2" "^2" TOK_NUMBER (U_value 2) NULL None 0 [])).
  { eapply sign_run_cons; [vm_compute; reflexivity | vm_compute; reflexivity |].
    apply sign_run_nil. vm_compute; reflexivity. }
  apply (proj1 (sign_binds_tighter_than_power 20 _ _
                  (State "-2^2" "2" TOK_INFIX (U_function (Cfun Fpow)) NULL None 0 [])
                  (State "-2^2" "" TOK_NUMBER (U_value 2) NULL None 0 [])
                  (State "-2^2" "" TOK_END (U_value 2) NULL None 0 [])
                  [Cfun Fsub] (constant 2) (constant 2) (Cfun Fpow)
                  Hrun ltac:(simpl; lia) eq_refl
                  ltac:(vm_compute; reflexivity) eq_refl
                  ltac:(vm_compute; reflexivity) ltac:(vm_compute; reflexivity)
                  ltac:(vm_compute; reflexivity) eq_refl
                  ltac:(vm_compute; reflexivity))).
Defined.

(* ------------------------------------------------------------------------- *)
(** ** The optimizer: values, variables and constants *)

Lemma map_first_fixed (A : Type) (f : A -> A) (l : list A) :
  Forall (fun x => f (f x) = f x) l ->
  forall k, map_first f k (map_first f k l) = map_first f k l.
Proof.
  induction 1 as [|x l Hx _ IH]; intros k; simpl; [reflexivity|].
  destruct k as [|k]; simpl; [reflexivity|]. rewrite Hx, IH. reflexivity.
Qed.

(** X9: [optimize] does not change what a tree evaluates to, and a second
    pass over an optimized tree changes nothing. *)
Theorem optimize_sound_and_idempotent (W : world) (n : te_expr) :
  te_eval W (Some (optimize W n)) = te_eval W (Some n) /\
  optimize W (optimize W n) = optimize W n.
Proof.
  split; [apply eval_optimize|].
  induction n as [type u ps c IH] using te_expr_forall_ind.
  cbn [optimize].
  destruct (type =? TE_CONSTANT)%Z eqn:Ec.
  { cbn [optimize]. rewrite Ec. reflexivity. }
  destruct (type =? TE_VARIABLE)%Z eqn:Ev.
  { cbn [optimize]. rewrite Ec, Ev. reflexivity. }
  destruct (IS_PURE type) eqn:Ep.
  2:{ cbn [optimize]. rewrite Ec, Ev, Ep. reflexivity. }
  destruct (forallb _ _) eqn:Ek.
  { reflexivity. }
  cbn [optimize]. rewrite Ec, Ev, Ep.
  rewrite (map_first_fixed _ _ _ IH). rewrite Ek. reflexivity.
Qed.

Lemma first_values_constants (W W' : world) (l : list te_expr) :
  forall k,
    forallb (fun p => (e_type p =? TE_CONSTANT)%Z) (firstn k l) = true ->
    first_values k (map (eval W') l) = first_values k (map (eval W) l).
Proof.
  induction l as [|p l IH]; intros k H; [reflexivity|].
  destruct k as [|k]; [reflexivity|].
  simpl in H. apply andb_true_iff in H. destruct H as (Hp & Hl).
  cbn [map first_values]. rewrite (IH k Hl). f_equal.
  destruct p as [t u ps c]. simpl in Hp. apply Z.eqb_eq in Hp. subst t.
  reflexivity.
Qed.

Lemma map_first_ext_in (A : Type) (f g : A -> A) (l : list A) :
  Forall (fun x => f x = g x) l ->
  forall k, map_first f k l = map_first g k l.
Proof.
  induction 1 as [|x l Hx _ IH]; intros k; simpl; [reflexivity|].
  destruct k; [reflexivity|]. rewrite Hx, IH. reflexivity.
Qed.

Lemma optimize_with_memory (W : world) (m : nat -> float) (n : te_expr) :
  well_formed n = true -> optimize (with_memory W m) n = optimize W n.
Proof.
  induction n as [type u ps c IH] using te_expr_forall_ind. intros Hw.
  cbn [optimize].
  destruct (type =? TE_CONSTANT)%Z eqn:Ec; [reflexivity|].
  destruct (type =? TE_VARIABLE)%Z eqn:Ev; [reflexivity|].
  destruct (IS_PURE type); [|reflexivity].
  cbn [well_formed] in Hw.
  apply andb_true_iff in Hw. destruct Hw as (Hw & Hps).
  apply andb_true_iff in Hw. destruct Hw as (Hk & _).
  rewrite Ec, Ev in Hk. simpl in Hk.
  assert (Hsame : map_first (optimize (with_memory W m)) (Z.to_nat (ARITY type)) ps =
                  map_first (optimize W) (Z.to_nat (ARITY type)) ps).
  { apply map_first_ext_in. rewrite Forall_forall in IH |- *.
    intros p Hin. apply IH; [exact Hin|].
    rewrite forallb_forall in Hps. apply Hps. exact Hin. }
  rewrite Hsame.
  destruct (forallb (fun p => (e_type p =? TE_CONSTANT)%Z) _) eqn:Ek; [|reflexivity].
  f_equal. f_equal.
  pose proof (is_call_range _ Hk) as Hr.
  cbn [eval].
  rewrite (first_values_constants W (with_memory W m) _ _ Ek).
  unfold is_call in Hk.
  replace (TYPE_MASK type =? TE_CONSTANT)%Z with false
    by (symmetry; apply Z.eqb_neq; unfold TE_CONSTANT; lia).
  replace (TYPE_MASK type =? TE_VARIABLE)%Z with false
    by (symmetry; apply Z.eqb_neq; unfold TE_VARIABLE; lia).
  destruct (is_function_kind (TYPE_MASK type)).
  - destruct (function u); reflexivity.
  - destruct (is_closure_kind (TYPE_MASK type)); [|reflexivity].
    destruct (function u); reflexivity.
Qed.

(** X10: variables are read when the tree is evaluated, never when it is
    compiled: whatever the caller's [double]s hold at compile time,
    [te_compile] returns the same tree, and under any later contents of
    these [double]s the tree evaluates to what the tree as parsed, before
    [optimize], evaluates to. *)
Theorem variables_are_read_at_evaluation (W : world) (heap : list bool)
    (expression : string) (variables : option (list te_variable))
    (var_count : nat) (root : te_expr) (error : Z) :
  te_compile W heap expression variables var_count = Some (Some root, error) ->
  exists s tree s',
    first_token heap expression variables var_count s /\
    Parse.list (parse_fuel expression) s = Some (Some tree, s') /\
    forall m,
      te_compile (with_memory W m) heap expression variables var_count =
      Some (Some root, error) /\
      te_eval (with_memory W m) (Some root) = te_eval (with_memory W m) (Some tree).
Proof.
  unfold te_compile, first_token. intros H.
  step_bind H. step_bind H. destruct s0 as [r s1].
  destruct r as [tree|]; [|discriminate].
  exists s, tree, s1. split; [exact E|]. split; [exact E0|].
  intros m. rewrite E. cbn [bind]. rewrite E0. cbn [bind].
  destruct (negb (s_type s1 =? TOK_END)%Z); [discriminate|]. inv H.
  destruct (productions_build (parse_fuel expression)) as (_ & _ & _ & _ & _ & Hl).
  pose proof (Hl _ _ _ E0) as Hw.
  rewrite (optimize_with_memory W m tree Hw). split; [reflexivity|].
  rewrite <- (optimize_with_memory W m tree Hw).
  apply eval_optimize.
Qed.

Lemma variables_are_read_at_evaluation_witness :
  exists s tree s',
    first_token [] "x+1+2" table_x 1 s /\
    Parse.list (parse_fuel "x+1+2") s = Some (Some tree, s') /\
    forall m,
      te_compile (with_memory bare_world m) [] "x+1+2" table_x 1 =
      Some (Some (call2 (Cfun Fadd)
                        (call2 (Cfun Fadd)
                               (Expr TE_VARIABLE (U_bound (Addr 0)) [] NULL)
                               (constant 1))
                        (constant 2)), 0%Z) /\
      te_eval (with_memory bare_world m)
              (Some (call2 (Cfun Fadd)
                           (call2 (Cfun Fadd)
                                  (Expr TE_VARIABLE (U_bound (Addr 0)) [] NULL)
                                  (constant 1))
                           (constant 2))) =
      te_eval (with_memory bare_world m) (Some tree).
Proof.
  apply (variables_are_read_at_evaluation bare_world [] "x+1+2" table_x 1).
  vm_compute. reflexivity.
Defined.

(** The value of a variable at the time of the evaluation is the one that
    counts. *)
Example variable_read_late (W : world) (m : nat -> float) :
  exists root,
    te_compile W [] "x*2" table_x 1 = Some (Some root, 0%Z) /\
    te_eval (with_memory W m) (Some root) = mul (m 0) 2.
Proof. eexists. split; [vm_compute; reflexivity | reflexivity]. Qed.

Lemma no_table_inv (s s' : state) : inv s s' -> no_table s -> no_table s'.
Proof. intros ((_ & H1 & H2) & _) [H|H]; [left | right]; congruence. Qed.

Lemma builtin_tokens_closed :
  Forall (fun v => forall s, closed_type (s_type (identifier_token v s)) = true)
         functions.
Proof. repeat constructor. Qed.

Lemma operator_token_closed (c : ascii) (s : state) :
  closed_type (s_type s) = true -> closed_type (s_type (operator_token c s)) = true.
Proof. intros H. unfold operator_token. repeat break_if; simpl; auto. Qed.

Lemma next_token_body_closed (s : state) (returned : bool) (s1 : state) :
  no_table s -> closed_type (s_type s) = true ->
  next_token_body s = Some (returned, s1) ->
  closed_type (s_type s1) = true.
Proof.
  intros Hn Hc. unfold next_token_body.
  destruct (is_nul (deref (s_next s))); [intros H; inv H; reflexivity|].
  destruct (isdigit (deref (s_next s)) || Ascii.eqb (deref (s_next s)) ".").
  { destruct (strtod (s_next s)) as [v q]. intros H; inv H. reflexivity. }
  destruct (isalpha (deref (s_next s))).
  { rewrite find_lookup_no_table by exact Hn.
    rewrite find_builtin_find by apply scan_identifier_strlen.
    cbn [bind].
    destruct (find _ functions) as [v|] eqn:Ef; intros H; inv H; [|reflexivity].
    apply find_some in Ef. destruct Ef as (Hin & _).
    pose proof builtin_tokens_closed as Hall. rewrite Forall_forall in Hall.
    apply Hall. exact Hin. }
  intros H; inv H. apply operator_token_closed. exact Hc.
Qed.

Lemma next_token_loop_closed (fuel : nat) :
  forall s s',
    no_table s -> closed_type (s_type s) = true ->
    next_token_loop fuel s = Some s' -> closed_type (s_type s') = true.
Proof.
  induction fuel as [|fuel IH]; intros s s' Hn Hc H; [discriminate|].
  simpl in H. apply bind_some in H. destruct H as ([returned s1] & Eb & H).
  pose proof (next_token_body_closed _ _ _ Hn Hc Eb) as Hc1.
  destruct returned; [inv H; exact Hc1|].
  destruct (s_type s1 =? TOK_NULL)%Z; [|inv H; exact Hc1].
  apply (IH s1 s'); [|exact Hc1 | exact H].
  destruct (next_token_body_spec s) as (r' & s1' & Eb' & (_ & F2 & F3) & _).
  rewrite Eb in Eb'. inv Eb'.
  destruct Hn as [Hn|Hn]; [left | right]; congruence.
Qed.

Lemma next_token_closed (s s' : state) :
  no_table s -> next_token s = Some s' ->
  no_table s' /\ closed_type (s_type s') = true.
Proof.
  intros Hn H. split; [exact (no_table_inv _ _ (next_token_inv _ _ H) Hn)|].
  unfold next_token in H.
  eapply (next_token_loop_closed _ (set_type s TOK_NULL) s');
    [exact Hn | reflexivity | exact H].
Qed.

Lemma live_not_error (continues : state -> option pointer) (s : state) (t : pointer) :
  live continues -> continues s = Some t -> s_type s <> TOK_ERROR.
Proof.
  intros Hl Hc E. apply Hl in Hc. rewrite E in Hc. discriminate.
Qed.

Lemma foldable_call2 (t : pointer) (a b : te_expr) :
  foldable a = true -> foldable b = true ->
  foldable (set_e_u (Expr (Z.lor TE_FUNCTION2 TE_FLAG_PURE) (U_bound NULL)
                          (firstn (Z.to_nat (ARITY (Z.lor TE_FUNCTION2 TE_FLAG_PURE)))
                                  [a; b]) NULL) (U_function t)) = true.
Proof. intros Ha Hb. simpl. rewrite Ha, Hb. reflexivity. Qed.

Section LoopFolds.

Variable operand : parser.
Hypothesis operand_inv : keeps operand.
Hypothesis operand_folds : folds operand.

Lemma binary_chain_folds (continues : state -> option pointer) (fuel : nat) :
  live continues ->
  forall ret s n s',
    no_table s ->
    foldable ret = true \/ s_type s = TOK_ERROR ->
    binary_chain continues operand fuel ret s = Some (Some n, s') ->
    foldable n = true \/ s_type s' = TOK_ERROR.
Proof.
  intros Hlive.
  induction fuel as [|fuel IH]; intros ret s n s' Hn Hret; simpl;
    destruct (continues s) as [t|] eqn:Ec; intros H; try discriminate;
    try (inv H; assumption).
  destruct Hret as [Hret|Hret];
    [|exfalso; exact (live_not_error _ _ _ Hlive Ec Hret)].
  step_bind H. step_bind H. destruct s1 as [p s2].
  destruct p as [p|]; [|discriminate].
  destruct (next_token_closed _ _ Hn E) as (Hn0 & Hc0).
  pose proof (no_table_inv _ _ (operand_inv _ _ _ E0) Hn0) as Hn2.
  pose proof (operand_folds _ _ _ Hn0 Hc0 E0) as Hp.
  destruct (new_expr _ _ s2) as [[m|] s3] eqn:E3; [|discriminate].
  pose proof (new_expr_inv _ _ _ _ _ E3) as I3.
  pose proof (new_expr_mu _ _ _ _ _ E3) as (_ & T3 & _).
  apply new_expr_node in E3. subst m.
  apply IH in H; [exact H | exact (no_table_inv _ _ I3 Hn2) |].
  destruct Hp as [Hp|Hp]; [left; apply foldable_call2; assumption|].
  right. congruence.
Qed.

Lemma arguments_folds (n : nat) :
  forall i params s j ps s',
    no_table s ->
    forallb foldable params = true ->
    arguments operand n i params s = Some (Arguments_exit j ps s') ->
    forallb foldable ps = true \/ s_type s' = TOK_ERROR.
Proof.
  induction n as [|n IH]; intros i params s j ps s' Hn Hw; simpl; intros H.
  { inv H. left. exact Hw. }
  step_bind H. step_bind H. destruct s1 as [p s2].
  destruct p as [p|]; [|discriminate].
  destruct (next_token_closed _ _ Hn E) as (Hn0 & Hc0).
  pose proof (no_table_inv _ _ (operand_inv _ _ _ E0) Hn0) as Hn2.
  pose proof (operand_folds _ _ _ Hn0 Hc0 E0) as Hp.
  destruct (s_type s2 =? TOK_SEP)%Z eqn:Es; simpl in H.
  - apply Z.eqb_eq in Es.
    destruct Hp as [Hp|Hp]; [|rewrite Es in Hp; discriminate].
    apply IH in H; [exact H | exact Hn2|].
    rewrite forallb_app, Hw. simpl. rewrite Hp. reflexivity.
  - inv H. destruct Hp as [Hp|Hp]; [left | right; exact Hp].
    rewrite forallb_app, Hw. simpl. rewrite Hp. reflexivity.
Qed.

End LoopFolds.

Lemma power_signs_closed (fuel : nat) :
  forall sign s sign' s',
    no_table s -> closed_type (s_type s) = true ->
    power_signs fuel sign s = Some (sign', s') ->
    no_table s' /\ closed_type (s_type s') = true.
Proof.
  induction fuel as [|fuel IH]; intros sign s sign' s' Hn Hc; simpl;
    destruct (additive s) as [t|]; intros H; try discriminate;
    try (inv H; split; assumption).
  step_bind H. destruct (next_token_closed _ _ Hn E) as (Hn0 & Hc0).
  exact (IH _ _ _ _ Hn0 Hc0 H).
Qed.

Lemma closed_call (t : Z) :
  closed_type t = true -> is_call t = true ->
  is_function_kind (TYPE_MASK t) && IS_PURE t = true /\ IS_CLOSURE t = false.
Proof.
  unfold closed_type. intros H Hc. rewrite Hc in H. simpl in H.
  apply andb_true_iff in H. destruct H as (_ & H). split; [exact H|].
  apply andb_true_iff in H. destruct H as (Hf & _).
  unfold is_function_kind in Hf. apply andb_true_iff in Hf. destruct Hf as (H1 & H2).
  apply Z.leb_le in H1, H2.
  unfold IS_CLOSURE.
  replace (Z.land t TE_CLOSURE0) with (Z.land (TYPE_MASK t) TE_CLOSURE0).
  - unfold TE_FUNCTION0, TE_FUNCTION7 in *.
    assert (Hm : (TYPE_MASK t = 8 \/ TYPE_MASK t = 9 \/ TYPE_MASK t = 10
                  \/ TYPE_MASK t = 11 \/ TYPE_MASK t = 12 \/ TYPE_MASK t = 13
                  \/ TYPE_MASK t = 14 \/ TYPE_MASK t = 15)%Z) by lia.
    repeat (destruct Hm as [Hm|Hm]; [rewrite Hm; reflexivity|]).
    rewrite Hm; reflexivity.
  - unfold TYPE_MASK. rewrite <- Z.land_assoc. reflexivity.
Qed.

Lemma foldable_call (t : Z) (f ctx : pointer) (ps : list te_expr) :
  closed_type t = true -> is_call t = true ->
  List.length ps = Z.to_nat (ARITY t) ->
  forallb foldable ps = true ->
  foldable (bind_callable (Expr t (U_bound NULL) ps NULL) t f ctx) = true.
Proof.
  intros Hc Hk Hl Hp. destruct (closed_call _ Hc Hk) as (Hf & Hcl).
  unfold bind_callable. rewrite Hcl. cbn [set_e_u e_type e_parameters e_context foldable].
  rewrite Hf, Hl, Nat.eqb_refl, Hp. rewrite orb_true_r. reflexivity.
Qed.

Lemma well_formed_length (t : Z) (u : union) (ps : list te_expr) (c : pointer) :
  well_formed (Expr t u ps c) = true -> List.length ps = Z.to_nat (ARITY t).
Proof.
  cbn [well_formed]. intros H.
  apply andb_true_iff in H. destruct H as (H & _).
  apply andb_true_iff in H. destruct H as (_ & H).
  apply Nat.eqb_eq. exact H.
Qed.

Lemma forallb_firstn (A : Type) (P : A -> bool) (l : list A) :
  forallb P l = true -> forall k, forallb P (firstn k l) = true.
Proof.
  induction l as [|x l IH]; intros H [|k]; simpl; try reflexivity.
  simpl in H. apply andb_true_iff in H. destruct H as (Hx & Hl).
  rewrite Hx, (IH Hl). reflexivity.
Qed.

Lemma base_body_folds (power expr list_ : parser) :
  keeps power -> keeps expr -> keeps list_ ->
  builds expr ->
  folds power -> folds expr -> folds list_ ->
  folds (base_body power expr list_).
Proof.
  intros Kp Ke Kl Be Fp Fe Fl s n s' Hn Hc. unfold base_body.
  destruct (TYPE_MASK (s_type s) =? TOK_NUMBER)%Z.
  { destruct (new_expr _ _ s) as [[m|] s1] eqn:E1; intros H; [|discriminate].
    apply new_expr_node in E1. subst m. step_bind H. inv H. left. reflexivity. }
  destruct (TYPE_MASK (s_type s) =? TOK_VARIABLE)%Z eqn:Ev.
  { unfold closed_type in Hc. rewrite Ev in Hc. discriminate. }
  destruct ((TYPE_MASK (s_type s) =? TE_FUNCTION0)%Z
            || (TYPE_MASK (s_type s) =? TE_CLOSURE0)%Z) eqn:K0.
  { destruct (kind_arity0 _ K0) as (Hk & Ha).
    destruct (new_expr _ _ s) as [[m|] s1] eqn:E1; intros H; [|discriminate].
    apply new_expr_node in E1. subst m.
    assert (Hw : foldable
                   (bind_callable
                      (Expr (s_type s) (U_bound NULL)
                            (firstn (Z.to_nat (ARITY (s_type s))) []) NULL)
                      (s_type s) (function (s_u s)) (s_context s)) = true).
    { apply foldable_call; [exact Hc | exact Hk | |]; rewrite Ha; reflexivity. }
    step_bind H. destruct (s_type s0 =? TOK_OPEN)%Z; [|inv H; left; exact Hw].
    step_bind H. destruct (negb (s_type s2 =? TOK_CLOSE)%Z); [inv H; left; exact Hw|].
    step_bind H. inv H. left. exact Hw. }
  destruct ((TYPE_MASK (s_type s) =? TE_FUNCTION1)%Z
            || (TYPE_MASK (s_type s) =? TE_CLOSURE1)%Z) eqn:K1.
  { destruct (kind_arity1 _ K1) as (Hk & Ha).
    intros H. step_bind H. step_bind H. destruct s1 as [p s2].
    destruct p as [p|]; [|discriminate].
    destruct (next_token_closed _ _ Hn E) as (Hn0 & Hc0).
    pose proof (Fp _ _ _ Hn0 Hc0 E0) as Hp.
    destruct (new_expr _ _ s2) as [[m|] s3] eqn:E3; [|discriminate].
    pose proof (new_expr_mu _ _ _ _ _ E3) as (_ & T3 & _).
    apply new_expr_node in E3. subst m. inv H.
    destruct Hp as [Hp|Hp]; [left | right; congruence].
    apply foldable_call; [exact Hc | exact Hk | |]; rewrite Ha; simpl;
      [reflexivity | rewrite Hp; reflexivity]. }
  destruct (is_function_kind (TYPE_MASK (s_type s))
            || is_closure_kind (TYPE_MASK (s_type s))) eqn:KN.
  { assert (Hk : is_call (s_type s) = true) by exact KN.
    intros H. step_bind H.
    destruct (negb (s_type s0 =? TOK_OPEN)%Z); [discriminate|].
    step_bind H. destruct s1 as [s2 | i params s2]; [discriminate|].
    destruct (s_type s2 =? TOK_CLOSE)%Z eqn:Ecl;
      [|cbn [negb orb] in H; step_free H; discriminate H].
    destruct (i =? ARITY (s_type s) - 1)%Z eqn:Ei;
      [|cbn [negb orb] in H; step_free H; discriminate H].
    cbn [negb orb] in H. apply Z.eqb_eq in Ei. apply Z.eqb_eq in Ecl.
    step_bind H.
    destruct (new_expr _ _ s1) as [[m|] s4] eqn:E4; [|step_free H; discriminate H].
    apply new_expr_node in E4. subst m. inv H.
    destruct (next_token_closed _ _ Hn E) as (Hn0 & Hc0).
    destruct (arguments_folds expr Ke Fe (Z.to_nat (ARITY (s_type s))) 0%Z [] s0
                _ _ _ Hn0 eq_refl E0) as [Hps|Hps];
      [|rewrite Ecl in Hps; discriminate].
    destruct (arguments_builds expr Be (Z.to_nat (ARITY (s_type s))) 0%Z [] s0
                _ _ _ eq_refl eq_refl E0) as (_ & Hj).
    assert (Ha : (0 <= ARITY (s_type s))%Z).
    { destruct (call_kind _ Hk) as [(Ha & _) | [(Ha & _) | (Ha & _)]]; lia. }
    left. apply foldable_call; [exact Hc | exact Hk | |].
    - rewrite firstn_all2; lia.
    - apply forallb_firstn. exact Hps. }
  destruct (TYPE_MASK (s_type s) =? TOK_OPEN)%Z.
  { intros H. step_bind H. step_bind H. destruct s1 as [ret s2].
    destruct ret as [m|]; [|discriminate].
    destruct (next_token_closed _ _ Hn E) as (Hn0 & Hc0).
    pose proof (Fl _ _ _ Hn0 Hc0 E0) as Hm.
    destruct (s_type s2 =? TOK_CLOSE)%Z eqn:Ecl; simpl in H;
      [|inv H; right; reflexivity].
    apply Z.eqb_eq in Ecl. step_bind H. inv H.
    destruct Hm as [Hm|Hm]; [left; exact Hm | rewrite Ecl in Hm; discriminate]. }
  destruct (new_expr _ _ s) as [[m|] s1] eqn:E1; intros H; [|discriminate].
  inv H. right. reflexivity.
Qed.

Lemma power_body_folds (base : parser) (fuel : nat) :
  folds base -> folds (power_body base fuel).
Proof.
  intros Fb s n s' Hn Hc H. unfold power_body in H.
  step_bind H. destruct s0 as [sign s1].
  destruct (power_signs_closed _ _ _ _ _ Hn Hc E) as (Hn1 & Hc1).
  destruct (sign =? 1)%Z; [exact (Fb _ _ _ Hn1 Hc1 H)|].
  step_bind H. destruct s0 as [b s2].
  destruct b as [b|]; [|discriminate].
  pose proof (Fb _ _ _ Hn1 Hc1 E0) as Hb.
  destruct (new_expr _ _ s2) as [[m|] s3] eqn:E3; [|discriminate].
  pose proof (new_expr_mu _ _ _ _ _ E3) as (_ & T3 & _).
  apply new_expr_node in E3. subst m. inv H.
  destruct Hb as [Hb|Hb]; [left | right; congruence].
  simpl. rewrite Hb. reflexivity.
Qed.

Lemma chain_body_folds (continues : state -> option pointer) (operand : parser)
    (fuel : nat) :
  live continues -> keeps operand -> folds operand ->
  folds (chain_body continues operand fuel).
Proof.
  intros Hlive Ko Fo s n s' Hn Hc H. unfold chain_body in H.
  step_bind H. destruct s0 as [ret s1].
  destruct ret as [ret|]; [|discriminate].
  pose proof (no_table_inv _ _ (Ko _ _ _ E) Hn) as Hn1.
  exact (binary_chain_folds operand Ko Fo continues fuel Hlive _ _ _ _ Hn1
           (Fo _ _ _ Hn Hc E) H).
Qed.

Lemma productions_fold (fuel : nat) :
  folds (Parse.base fuel) /\ folds (Parse.power fuel) /\
  folds (Parse.factor fuel) /\ folds (Parse.term fuel) /\
  folds (Parse.expr fuel) /\ folds (Parse.list fuel).
Proof.
  induction fuel as [|fuel (Hb & Hp & Hf & Ht & He & Hl)].
  - repeat match goal with |- _ /\ _ => split end;
      intros s n s' _ _ H; discriminate.
  - destruct (productions_inv fuel) as (Kb & Kp & Kf & Kt & Ke & Kl).
    destruct (productions_build fuel) as (_ & _ & _ & _ & Be & _).
    repeat match goal with |- _ /\ _ => split end; simpl.
    + apply base_body_folds; assumption.
    + apply power_body_folds; assumption.
    + apply chain_body_folds; try assumption; apply is_infix_live.
    + apply chain_body_folds; try assumption; apply is_infix_live.
    + apply chain_body_folds; try assumption; apply is_infix_live.
    + apply chain_body_folds; try assumption; apply separator_live.
Qed.

Lemma foldable_optimize (W : world) (n : te_expr) :
  foldable n = true ->
  optimize W n = Expr TE_CONSTANT (U_value (eval W n)) [] NULL.
Proof.
  induction n as [type u ps c IH] using te_expr_forall_ind. intros Hf.
  cbn [foldable] in Hf.
  apply andb_true_iff in Hf. destruct Hf as (Hf & Hps).
  apply andb_true_iff in Hf. destruct Hf as (Hf & Hlen).
  apply andb_true_iff in Hf. destruct Hf as (Hk & Hc).
  apply Nat.eqb_eq in Hlen.
  assert (c = NULL) as -> by (destruct c; try discriminate; reflexivity).
  cbn [optimize].
  destruct (type =? TE_CONSTANT)%Z eqn:Ec.
  { apply Z.eqb_eq in Ec. subst type.
    destruct u; try discriminate. destruct ps; [reflexivity | discriminate]. }
  simpl in Hk. apply andb_true_iff in Hk. destruct Hk as (Hfk & Hp).
  assert (Hcall : is_call type = true) by (unfold is_call; rewrite Hfk; reflexivity).
  destruct (is_call_not_leaf _ Hcall) as (_ & Ev). rewrite Ev, Hp.
  rewrite map_first_all by lia.
  rewrite firstn_all2 by (rewrite length_map; lia).
  assert (Hconst : forallb (fun p => (e_type p =? TE_CONSTANT)%Z)
                           (map (optimize W) ps) = true).
  { rewrite forallb_forall. intros q Hq. apply in_map_iff in Hq.
    destruct Hq as (p & <- & Hin).
    rewrite Forall_forall in IH. rewrite forallb_forall in Hps.
    rewrite (IH p Hin (Hps p Hin)). reflexivity. }
  rewrite Hconst. f_equal. f_equal.
  apply eval_parameters.
  rewrite <- (map_first_all _ (optimize W) ps (Z.to_nat (ARITY type))) by lia.
  apply first_values_map_first.
  rewrite Forall_forall. intros p _. apply eval_optimize.
Qed.

(** X11: without a table of the caller's (a null table, or a count of zero),
    every source that compiles compiles to a single constant: all that an
    identifier can name then is a builtin, every builtin and every operator
    is flagged pure, and [optimize] folds the whole tree.  Its value is the
    value of the tree as parsed, and it is what [te_interp] returns. *)
Theorem source_without_table_folds_to_constant (W : world) (heap : list bool)
    (expression : string) (variables : option (list te_variable))
    (var_count : nat) (root : te_expr) (error : Z) :
  variables = None \/ var_count = 0 ->
  te_compile W heap expression variables var_count = Some (Some root, error) ->
  exists v,
    root = Expr TE_CONSTANT (U_value v) [] NULL /\
    (forall W', te_eval W' (Some root) = v) /\
    (exists s tree s',
        first_token heap expression variables var_count s /\
        Parse.list (parse_fuel expression) s = Some (Some tree, s') /\
        v = te_eval W (Some tree)) /\
    (variables = None -> var_count = 0 ->
     te_interp W heap expression = Some (v, 0%Z)).
Proof.
  intros Hno H. pose proof H as Hcompile. unfold te_compile in H.
  step_bind H. step_bind H. destruct s0 as [r s1].
  destruct r as [tree|]; [|discriminate].
  destruct (s_type s1 =? TOK_END)%Z eqn:Eend; [|discriminate].
  simpl in H. inv H. apply Z.eqb_eq in Eend.
  assert (Hn0 : no_table (initial_state heap expression variables var_count)).
  { destruct Hno as [Hno|Hno]; [left | right]; exact Hno. }
  destruct (next_token_closed _ _ Hn0 E) as (Hn & Hc).
  destruct (productions_fold (parse_fuel expression)) as (_ & _ & _ & _ & _ & Fl).
  destruct (Fl _ _ _ Hn Hc E0) as [Hf|Hf]; [|rewrite Eend in Hf; discriminate].
  exists (eval W tree). rewrite (foldable_optimize W tree Hf).
  split; [reflexivity|]. split; [reflexivity|]. split.
  - exists s, tree, s1. repeat split; assumption.
  - intros -> ->. unfold te_interp. rewrite Hcompile. cbn [bind].
    rewrite (foldable_optimize W tree Hf). reflexivity.
Qed.

Lemma source_without_table_folds_to_constant_witness :
  exists v,
    Expr TE_CONSTANT (U_value 8) [] NULL = Expr TE_CONSTANT (U_value v) [] NULL /\
    (forall W', te_eval W' (Some (Expr TE_CONSTANT (U_value 8) [] NULL)) = v) /\
    (exists s tree s',
        first_token [] "-2*-(3+1)" None 0 s /\
        Parse.list (parse_fuel "-2*-(3+1)") s = Some (Some tree, s') /\
        v = te_eval bare_world (Some tree)) /\
    (@None (list te_variable) = None -> 0 = 0 ->
     te_interp bare_world [] "-2*-(3+1)" = Some (v, 0%Z)).
Proof.
  apply (source_without_table_folds_to_constant bare_world [] "-2*-(3+1)" None 0
           (Expr TE_CONSTANT (U_value 8) [] NULL) 0%Z).
  - left. reflexivity.
  - vm_compute. reflexivity.
Defined.

(* ------------------------------------------------------------------------- *)
(** ** The evaluator and [te_interp] *)

Lemma call_function_with_memory (W : world) (m : nat -> float) (f : pointer)
    (args : list float) :
  call_function (with_memory W m) f args = call_function W f args.
Proof. destruct f as [|c|a]; [reflexivity | | reflexivity]. destruct c; reflexivity. Qed.

Lemma call_closure_with_memory (W : world) (m : nat -> float) (f c : pointer)
    (args : list float) :
  call_closure (with_memory W m) f c args = call_closure W f c args.
Proof. destruct f; reflexivity. Qed.

(** X12: [te_eval] reads the caller's [double]s at the nodes of the kind of a
    variable and nowhere else: a tree without such a node has the same value
    whatever these [double]s hold. *)
Theorem te_eval_reads_memory_at_variables_only (W : world) (m : nat -> float)
    (n : te_expr) :
  variable_free n = true ->
  te_eval (with_memory W m) (Some n) = te_eval W (Some n).
Proof.
  cbn [te_eval].
  induction n as [type u ps c IH] using te_expr_forall_ind. intros Hv.
  cbn [variable_free] in Hv. apply andb_true_iff in Hv. destruct Hv as (Ht & Hps).
  apply negb_true_iff in Ht.
  assert (Hargs : map (eval (with_memory W m)) ps = map (eval W) ps).
  { apply map_ext_in. intros p Hin. rewrite Forall_forall in IH.
    apply IH; [exact Hin|]. rewrite forallb_forall in Hps. apply Hps. exact Hin. }
  cbn [eval]. rewrite Hargs, Ht.
  rewrite call_function_with_memory, call_closure_with_memory. reflexivity.
Qed.

Lemma te_eval_reads_memory_at_variables_only_witness :
  te_eval (with_memory bare_world (fun _ => 1%float))
          (Some (call2 (Cfun Fmul) (constant 2) (negation (constant 3)))) =
  te_eval bare_world (Some (call2 (Cfun Fmul) (constant 2) (negation (constant 3)))).
Proof. apply te_eval_reads_memory_at_variables_only. reflexivity. Defined.





(** A call of [pow] with one argument: the run comes to the free of
    [params[1]], which was never stored to, and has no result. *)
Example too_few_arguments_on_source (W : world) :
  te_compile W [] "pow(1)" None 0 = None /\
  te_interp W [] "2*pow(1)" = None.
Proof. split; vm_compute; reflexivity. Qed.

(** The call that [main] of [example.c] makes: the source compiles, so the
    error is 0 and [main] prints the result, [2 + 3 * sin(pi / 2)] with the
    [sin] of the C library. *)
Example example_main (W : world) :
  te_interp W [] "2 + 3 * sin(pi/2)" =
  Some (add 2 (mul 3 (extern W Fsin [divide pi 2])), 0%Z).
Proof. reflexivity. Qed.

(* ------------------------------------------------------------------------- *)
(** ** Releasing a tree *)

Lemma te_free_release (n : te_expr) : te_free (Some n) = release n.
Proof. destruct n. reflexivity. Qed.

Lemma freed_slots_arity (type : Z) :
  (type =? TE_CONSTANT)%Z || (type =? TE_VARIABLE)%Z || is_call type = true ->
  freed_slots type = Z.to_nat (ARITY type).
Proof.
  intros H. apply orb_true_iff in H. destruct H as [H|H].
  - apply orb_true_iff in H. destruct H as [H|H]; apply Z.eqb_eq in H; subst type;
      reflexivity.
  - pose proof (is_call_range type H) as Hr.
    rewrite ARITY_mask. unfold freed_slots.
    assert (Hm : (TYPE_MASK type = 8 \/ TYPE_MASK type = 9 \/ TYPE_MASK type = 10
                  \/ TYPE_MASK type = 11 \/ TYPE_MASK type = 12
                  \/ TYPE_MASK type = 13 \/ TYPE_MASK type = 14
                  \/ TYPE_MASK type = 15 \/ TYPE_MASK type = 16
                  \/ TYPE_MASK type = 17 \/ TYPE_MASK type = 18
                  \/ TYPE_MASK type = 19 \/ TYPE_MASK type = 20
                  \/ TYPE_MASK type = 21 \/ TYPE_MASK type = 22
                  \/ TYPE_MASK type = 23)%Z) by lia.
    repeat (destruct Hm as [Hm|Hm]; [rewrite Hm; reflexivity|]).
    rewrite Hm; reflexivity.
Qed.

Lemma release_children (ps : list te_expr) :
  Forall (fun p => Permutation (release p) (nodes p)) ps ->
  Permutation (List.concat (rev (map release ps))) (List.concat (map nodes ps)).
Proof.
  induction 1 as [|p ps Hp _ IH]; [constructor|].
  cbn [map rev List.concat]. rewrite concat_app. cbn [List.concat]. rewrite app_nil_r.
  eapply Permutation_trans; [apply Permutation_app_comm|].
  apply Permutation_app; assumption.
Qed.

Lemma release_nodes (n : te_expr) :
  well_formed n = true -> Permutation (release n) (nodes n).
Proof.
  induction n as [type u ps c IH] using te_expr_forall_ind. intros Hw.
  cbn [well_formed] in Hw.
  apply andb_true_iff in Hw. destruct Hw as (Hw & Hps).
  apply andb_true_iff in Hw. destruct Hw as (Hk & Hlen).
  apply Nat.eqb_eq in Hlen.
  cbn [release nodes]. rewrite (freed_slots_arity _ Hk).
  rewrite firstn_all2 by (rewrite length_map; lia).
  eapply Permutation_trans; [apply Permutation_app_comm|].
  cbn [app]. constructor. apply release_children.
  rewrite Forall_forall in IH |- *. intros p Hin. apply IH; [exact Hin|].
  rewrite forallb_forall in Hps. apply Hps. exact Hin.
Qed.

(** X14: [te_free] on a tree that [te_compile] returned hands every node of
    the tree to [free] exactly once, the root last; [te_free_parameters]
    does so for every node but the root; and both do nothing on a null
    pointer. *)
Theorem te_free_releases_every_node (W : world) (heap : list bool)
    (expression : string) (variables : option (list te_variable))
    (var_count : nat) (root : te_expr) (error : Z) :
  te_compile W heap expression variables var_count = Some (Some root, error) ->
  Permutation (te_free (Some root)) (nodes root) /\
  Permutation (te_free_parameters (Some root)) (tl (nodes root)) /\
  te_free (Some root) = te_free_parameters (Some root) ++ [root] /\
  te_free None = [] /\ te_free_parameters None = [].
Proof.
  intros H.
  assert (Hw : well_formed root = true).
  { unfold te_compile in H.
    apply bind_some in H. destruct H as (s & E & H).
    apply bind_some in H. destruct H as ([r s'] & E' & H).
    destruct r as [tree|]; [|discriminate].
    destruct (negb (s_type s' =? TOK_END)%Z); [discriminate|]. inv H.
    apply optimize_well_formed.
    destruct (productions_build (parse_fuel expression)) as (_ & _ & _ & _ & _ & Hl).
    exact (Hl _ _ _ E'). }
  pose proof (release_nodes root Hw) as Hp. rewrite <- te_free_release in Hp.
  split; [exact Hp|]. split; [|repeat split].
  destruct root as [type u ps c]. cbn [te_free nodes tl] in *.
  apply Permutation_cons_inv with (a := Expr type u ps c).
  eapply Permutation_trans; [apply Permutation_cons_append | exact Hp].
Qed.

Lemma te_free_releases_every_node_witness :
  Permutation
    (te_free (Some (call2 (Cfun Fadd) (Expr TE_VARIABLE (U_bound (Addr 0)) [] NULL)
                          (constant 1))))
    (nodes (call2 (Cfun Fadd) (Expr TE_VARIABLE (U_bound (Addr 0)) [] NULL)
                  (constant 1))) /\
  Permutation
    (te_free_parameters
       (Some (call2 (Cfun Fadd) (Expr TE_VARIABLE (U_bound (Addr 0)) [] NULL)
                    (constant 1))))
    (tl (nodes (call2 (Cfun Fadd) (Expr TE_VARIABLE (U_bound (Addr 0)) [] NULL)
                      (constant 1)))) /\
  te_free (Some (call2 (Cfun Fadd) (Expr TE_VARIABLE (U_bound (Addr 0)) [] NULL)
                       (constant 1))) =
  te_free_parameters
    (Some (call2 (Cfun Fadd) (Expr TE_VARIABLE (U_bound (Addr 0)) [] NULL)
                 (constant 1))) ++
  [call2 (Cfun Fadd) (Expr TE_VARIABLE (U_bound (Addr 0)) [] NULL) (constant 1)] /\
  te_free None = [] /\ te_free_parameters None = [].
Proof.
  apply (te_free_releases_every_node bare_world [] "x+1" table_x 1 _ 0%Z).
  vm_compute. reflexivity.
Defined.

(** The order of the calls of [free] on the tree of ["x+1"]: the second
    child, the first child, the root. *)
Example te_free_order :
  te_free (Some (call2 (Cfun Fadd) (Expr TE_VARIABLE (U_bound (Addr 0)) [] NULL)
                       (constant 1))) =
  [constant 1; Expr TE_VARIABLE (U_bound (Addr 0)) [] NULL;
   call2 (Cfun Fadd) (Expr TE_VARIABLE (U_bound (Addr 0)) [] NULL) (constant 1)].
Proof. reflexivity. Qed.

(* ------------------------------------------------------------------------- *)
(** ** Factorials and binomial coefficients *)

#[local] Open Scope Z_scope.

Lemma factorial_succ (n : nat) :
  factorial (S n) = Z.of_nat (S n) * factorial n.
Proof. unfold factorial. change (fact (S n)) with (S n * fact n)%nat. lia. Qed.

Lemma factorial_pos (n : nat) : 1 <= factorial n.
Proof. unfold factorial. pose proof (lt_O_fact n). lia. Qed.

Lemma factorial_le (m n : nat) : (m <= n)%nat -> factorial m <= factorial n.
Proof. intros H. unfold factorial. apply fact_le in H. lia. Qed.

Lemma factorial_grows (n : nat) : (3 <= n)%nat -> 2 * Z.of_nat n <= factorial n.
Proof.
  induction n as [|n IH]; [lia|]. intros H.
  destruct (Nat.eq_dec n 2) as [->|Hn]; [vm_compute; discriminate|].
  rewrite factorial_succ. specialize (IH ltac:(lia)).
  pose proof (factorial_pos n). nia.
Qed.

Lemma quotient_lt (M r q : Z) : 0 < r -> (q >? M / r) = (M <? r * q).
Proof.
  intros Hr. destruct (M <? r * q) eqn:E.
  - apply Z.ltb_lt in E. apply Z.gtb_lt. apply Z.div_lt_upper_bound; assumption.
  - apply Z.ltb_ge in E. rewrite Z.gtb_ltb. apply Z.ltb_ge.
    apply Z.div_le_lower_bound; assumption.
Qed.

Lemma wrap_small (L : limits) (n : Z) : 0 <= n <= ULONG_MAX L -> wrap L n = n.
Proof. intros H. unfold wrap. apply Z.mod_small. lia. Qed.

(** The loop of [fac], entered after [j] rounds with [result = j!]. *)
Lemma fac_loop_spec (L : limits) (n : nat) :
  3 <= ULONG_MAX L ->
  forall fuel j,
    (j <= n)%nat -> (n - j <= fuel)%nat -> factorial j <= ULONG_MAX L ->
    fac_loop L fuel (Z.of_nat n) (factorial j) (Z.of_nat j + 1) =
    Some (if factorial n <=? ULONG_MAX L then double_of (factorial n) else INFINITY).
Proof.
  intros HM.
  induction fuel as [|fuel IH]; intros j Hj Hf Hr.
  - assert (j = n) by lia. subst j. cbn [fac_loop].
    replace (Z.of_nat n + 1 <=? Z.of_nat n) with false by (symmetry; apply Z.leb_gt; lia).
    replace (factorial n <=? ULONG_MAX L) with true by (symmetry; apply Z.leb_le; lia).
    reflexivity.
  - cbn [fac_loop].
    destruct (Z.of_nat j + 1 <=? Z.of_nat n) eqn:Ei.
    2:{ apply Z.leb_gt in Ei. assert (j = n) by lia. subst j.
        replace (factorial n <=? ULONG_MAX L) with true by (symmetry; apply Z.leb_le; lia).
        reflexivity. }
    apply Z.leb_le in Ei.
    pose proof (factorial_pos j) as Hp.
    rewrite quotient_lt by lia.
    assert (Hs : factorial (S j) = factorial j * (Z.of_nat j + 1)).
    { rewrite factorial_succ. lia. }
    rewrite <- Hs.
    destruct (ULONG_MAX L <? factorial (S j)) eqn:Eo.
    + apply Z.ltb_lt in Eo.
      pose proof (factorial_le (S j) n ltac:(lia)).
      replace (factorial n <=? ULONG_MAX L) with false by (symmetry; apply Z.leb_gt; lia).
      reflexivity.
    + apply Z.ltb_ge in Eo.
      pose proof (factorial_pos (S j)).
      rewrite wrap_small by lia.
      assert (Hlt : Z.of_nat j + 1 < ULONG_MAX L).
      { destruct (le_lt_dec 3 (S j)) as [Hb|Hb]; [|lia].
        pose proof (factorial_grows (S j) Hb). lia. }
      rewrite wrap_small by lia.
      replace (Z.of_nat j + 1 + 1) with (Z.of_nat (S j) + 1) by lia.
      apply IH; lia.
Qed.

Lemma fac_closed_form (L : limits) (a : float) :
  3 <= ULONG_MAX L -> 0 <= unsigned_of a ->
  fac L a =
  Some (if PrimFloat.ltb a 0 then NAN
        else if PrimFloat.ltb (double_of (UINT_MAX L)) a then INFINITY
        else if factorial (Z.to_nat (unsigned_of a)) <=? ULONG_MAX L
             then double_of (factorial (Z.to_nat (unsigned_of a)))
             else INFINITY).
Proof.
  intros HM Hu. unfold fac.
  destruct (PrimFloat.ltb a 0); [reflexivity|].
  destruct (PrimFloat.ltb (double_of (UINT_MAX L)) a); [reflexivity|].
  cbv zeta.
  pose proof (fac_loop_spec L (Z.to_nat (unsigned_of a)) HM
                (Z.to_nat (unsigned_of a)) 0 ltac:(lia) ltac:(lia)) as H.
  rewrite Z2Nat.id in H by exact Hu.
  apply H. change (factorial 0) with 1. lia.
Qed.

Lemma unsigned_of_nonneg (a : float) : 0 <= unsigned_of a.
Proof.
  unfold unsigned_of. destruct (Prim2SF a) as [s|s| |s m e]; try lia.
  destruct s; [lia|]. unfold integral. destruct (0 <=? e) eqn:E.
  - apply Z.leb_le in E. pose proof (Z.pow_nonneg 2 e). nia.
  - apply Z.div_pos; [lia|]. apply Z.pow_pos_nonneg; [lia|]. apply Z.leb_gt in E. lia.
Qed.

Lemma binomial_zero (n : nat) : binomial n 0 = 1.
Proof. destruct n; reflexivity. Qed.

Lemma binomial_nonneg (n : nat) : forall k, 0 <= binomial n k.
Proof.
  induction n as [|n IH]; intros [|k]; simpl; try lia.
  pose proof (IH k). pose proof (IH (S k)). lia.
Qed.

Lemma binomial_above (n : nat) : forall k, (n < k)%nat -> binomial n k = 0.
Proof.
  induction n as [|n IH]; intros [|k] H; simpl; try lia.
  rewrite (IH k), (IH (S k)) by lia. reflexivity.
Qed.

Lemma binomial_diagonal (n : nat) : binomial n n = 1.
Proof.
  induction n as [|n IH]; simpl; [reflexivity|].
  rewrite IH, (binomial_above n (S n)) by lia. reflexivity.
Qed.

(** [(k + 1) * C(n + 1, k + 1) = (n + 1) * C(n, k)] *)
Lemma binomial_absorption (n : nat) :
  forall k,
    Z.of_nat (S k) * binomial (S n) (S k) = Z.of_nat (S n) * binomial n k.
Proof.
  induction n as [|n IH]; intros k.
  - destruct k as [|k]; simpl; lia.
  - change (binomial (S (S n)) (S k))
      with (binomial (S n) k + binomial (S n) (S k)).
    destruct k as [|k].
    + specialize (IH 0%nat). rewrite !binomial_zero in *. lia.
    + pose proof (IH k) as H1. pose proof (IH (S k)) as H2.
      assert (P : binomial (S n) (S k) = binomial n k + binomial n (S k))
        by reflexivity.
      rewrite !Nat2Z.inj_succ in *.
      set (A := binomial (S n) (S k)) in *. set (B := binomial (S n) (S (S k))) in *.
      set (X := binomial n k) in *. set (Y := binomial n (S k)) in *.
      replace (Z.succ (Z.succ (Z.of_nat n)) * A)
        with (Z.succ (Z.of_nat n) * (X + Y) + A) by (rewrite P; ring).
      replace (Z.succ (Z.succ (Z.of_nat k)) * (A + B))
        with (Z.succ (Z.of_nat k) * A + A + Z.succ (Z.succ (Z.of_nat k)) * B) by ring.
      rewrite H1, H2. ring.
Qed.

Lemma binomial_symmetric (n : nat) :
  forall k, (k <= n)%nat -> binomial n k = binomial n (n - k).
Proof.
  induction n as [|n IH]; intros k Hk.
  - assert (k = 0)%nat by lia. subst k. reflexivity.
  - destruct k as [|k].
    + rewrite Nat.sub_0_r, binomial_diagonal. reflexivity.
    + destruct (Nat.eq_dec k n) as [->|Hne].
      * rewrite Nat.sub_diag, binomial_diagonal. reflexivity.
      * replace (S n - S k)%nat with (S (n - S k)) by lia.
        change (binomial (S n) (S k)) with (binomial n k + binomial n (S k)).
        change (binomial (S n) (S (n - S k)))
          with (binomial n (n - S k) + binomial n (S (n - S k))).
        rewrite (IH k) by lia. rewrite (IH (S k)) by lia.
        replace (S (n - S k)) with (n - k)%nat by lia. lia.
Qed.

Lemma ncr_product_step (m j : nat) :
  ncr_product m (S j) = binomial (m + j) j * Z.of_nat (m + S j).
Proof.
  unfold ncr_product. replace (m + S j)%nat with (S (m + j)) by lia.
  rewrite binomial_absorption. lia.
Qed.

Lemma ncr_product_mono (m : nat) :
  forall a b, (a <= b)%nat -> ncr_product m a <= ncr_product m b.
Proof.
  intros a b H. induction H as [|b H IH]; [lia|].
  eapply Z.le_trans; [exact IH|]. unfold ncr_product.
  replace (m + S b)%nat with (S (m + b)) by lia.
  change (binomial (S (m + b)) (S b))
    with (binomial (m + b) b + binomial (m + b) (S b)).
  pose proof (binomial_nonneg (m + b) b). pose proof (binomial_nonneg (m + b) (S b)).
  nia.
Qed.

(** The loop of [ncr], entered after [j] rounds with [result = C(m + j, j)],
    for [un = m + k] and [ur = k]. *)
Lemma ncr_loop_spec (L : limits) (m k : nat) :
  Z.of_nat (m + k) <= ULONG_MAX L -> Z.of_nat k < ULONG_MAX L ->
  forall fuel j,
    (j <= k)%nat -> (k - j <= fuel)%nat -> ncr_product m j <= ULONG_MAX L ->
    ncr_loop L fuel (Z.of_nat (m + k)) (Z.of_nat k) (binomial (m + j) j)
             (Z.of_nat j + 1) =
    Some (if ncr_product m k <=? ULONG_MAX L
          then double_of (binomial (m + k) k) else INFINITY).
Proof.
  intros HN Hk.
  assert (Hend : forall fuel,
             ncr_product m k <= ULONG_MAX L ->
             ncr_loop L fuel (Z.of_nat (m + k)) (Z.of_nat k) (binomial (m + k) k)
                      (Z.of_nat k + 1) =
             Some (if ncr_product m k <=? ULONG_MAX L
                   then double_of (binomial (m + k) k) else INFINITY)).
  { intros fuel Hr. destruct fuel; cbn [ncr_loop];
      replace (Z.of_nat k + 1 <=? Z.of_nat k) with false
        by (symmetry; apply Z.leb_gt; lia);
      replace (ncr_product m k <=? ULONG_MAX L) with true
        by (symmetry; apply Z.leb_le; lia);
      reflexivity. }
  induction fuel as [|fuel IH]; intros j Hj Hf Hr.
  - assert (j = k) by lia. subst j. apply Hend. exact Hr.
  - destruct (Nat.eq_dec j k) as [->|Hne]; [apply Hend; exact Hr|].
    cbn [ncr_loop].
    replace (Z.of_nat j + 1 <=? Z.of_nat k) with true
      by (symmetry; apply Z.leb_le; lia).
    cbv zeta.
    replace (wrap L (Z.of_nat (m + k) - Z.of_nat k)) with (Z.of_nat m)
      by (rewrite wrap_small; lia).
    replace (wrap L (Z.of_nat m + (Z.of_nat j + 1))) with (Z.of_nat (m + S j))
      by (rewrite wrap_small; lia).
    rewrite quotient_lt by lia.
    rewrite (Z.mul_comm (Z.of_nat (m + S j))), <- ncr_product_step.
    destruct (ULONG_MAX L <? ncr_product m (S j)) eqn:Eo.
    + apply Z.ltb_lt in Eo.
      pose proof (ncr_product_mono m (S j) k ltac:(lia)).
      replace (ncr_product m k <=? ULONG_MAX L) with false
        by (symmetry; apply Z.leb_gt; lia).
      reflexivity.
    + apply Z.ltb_ge in Eo.
      assert (H0 : 0 <= ncr_product m (S j)).
      { unfold ncr_product. pose proof (binomial_nonneg (m + S j) (S j)). nia. }
      rewrite wrap_small by lia.
      rewrite wrap_small by lia.
      replace (ncr_product m (S j) / (Z.of_nat j + 1)) with (binomial (m + S j) (S j)).
      2:{ unfold ncr_product. rewrite Nat2Z.inj_succ. unfold Z.succ.
          rewrite Z.mul_comm, Z.div_mul by lia. reflexivity. }
      replace (Z.of_nat j + 1 + 1) with (Z.of_nat (S j) + 1) by lia.
      apply IH; lia.
Qed.

Lemma digits2_pos_bounds (m : positive) :
  2 ^ (Zpos (digits2_pos m) - 1) <= Zpos m < 2 ^ Zpos (digits2_pos m).
Proof.
  induction m as [m IH | m IH |]; cbn [digits2_pos].
  - rewrite Pos2Z.inj_succ. unfold Z.succ.
    replace (Z.pos (digits2_pos m) + 1 - 1) with (Z.pos (digits2_pos m) - 1 + 1) by lia.
    rewrite !Z.pow_add_r by lia. change (2 ^ 1) with 2. lia.
  - rewrite Pos2Z.inj_succ. unfold Z.succ.
    replace (Z.pos (digits2_pos m) + 1 - 1) with (Z.pos (digits2_pos m) - 1 + 1) by lia.
    rewrite !Z.pow_add_r by lia. change (2 ^ 1) with 2. lia.
  - vm_compute. split; [discriminate | reflexivity].
Qed.

Lemma integral_le (mx my : positive) (ex ey : Z) :
  ey <= ex -> Zpos my <= Zpos mx * 2 ^ (ex - ey) ->
  integral my ey <= integral mx ex.
Proof.
  intros He Hm. unfold integral.
  destruct (0 <=? ey) eqn:Ey; [apply Z.leb_le in Ey | apply Z.leb_gt in Ey].
  - replace (0 <=? ex) with true by (symmetry; apply Z.leb_le; lia).
    replace ex with ((ex - ey) + ey) at 1 by lia.
    rewrite Z.pow_add_r by lia.
    pose proof (Z.pow_pos_nonneg 2 ey ltac:(lia) Ey). nia.
  - destruct (0 <=? ex) eqn:Ex; [apply Z.leb_le in Ex | apply Z.leb_gt in Ex].
    + apply Z.div_le_upper_bound; [apply Z.pow_pos_nonneg; lia|].
      replace (ex - ey) with (ex + - ey) in Hm by lia.
      rewrite Z.pow_add_r in Hm by lia. lia.
    + replace (- ey) with ((ex - ey) + - ex) by lia.
      rewrite Z.pow_add_r by lia.
      rewrite <- Z.div_div by (try apply Z.pow_pos_nonneg; lia).
      apply Z.div_le_mono; [apply Z.pow_pos_nonneg; lia|].
      apply Z.div_le_upper_bound; [apply Z.pow_pos_nonneg; lia | lia].
Qed.

Lemma bounded_digits (m : positive) (e : Z) :
  bounded prec emax m e = true ->
  Zpos (digits2_pos m) <= 53 /\ (emin < e -> Zpos (digits2_pos m) = 53) /\ emin <= e.
Proof.
  unfold bounded, canonical_mantissa, fexp. intros H.
  apply andb_true_iff in H. destruct H as (H & _). apply Z.eqb_eq in H.
  change prec with 53 in *. change (SpecFloat.emin 53 emax) with (-1074) in *.
  change IntDef.Z.max with Z.max in H. lia.
Qed.

Lemma integral_mono (mx my : positive) (ex ey : Z) :
  bounded prec emax mx ex = true -> bounded prec emax my ey = true ->
  ey < ex \/ (ey = ex /\ (my <= mx)%positive) ->
  integral my ey <= integral mx ex.
Proof.
  intros Bx By H.
  destruct (bounded_digits _ _ Bx) as (_ & Hx & _).
  destruct (bounded_digits _ _ By) as (Hy & _ & Hy').
  pose proof (digits2_pos_bounds mx) as Dx. pose proof (digits2_pos_bounds my) as Dy.
  destruct H as [H | (-> & H)].
  - apply integral_le; [lia|].
    rewrite Hx in Dx by lia.
    assert (Zpos my < 2 ^ 53).
    { eapply Z.lt_le_trans; [apply Dy|]. apply Z.pow_le_mono_r; lia. }
    assert (2 ^ 1 <= 2 ^ (ex - ey)) by (apply Z.pow_le_mono_r; lia).
    change (2 ^ 1) with 2 in *. change (2 ^ (53 - 1)) with 4503599627370496 in Dx.
    change (2 ^ 53) with 9007199254740992 in *. nia.
  - apply integral_le; [lia|]. rewrite Z.sub_diag. change (2 ^ 0) with 1. lia.
Qed.

Lemma unsigned_of_le (x y : float) :
  PrimFloat.ltb x y = false -> finite (Prim2SF x) = true ->
  unsigned_of y <= unsigned_of x.
Proof.
  rewrite ltb_spec. unfold unsigned_of, SFltb.
  pose proof (Prim2SF_valid x) as Vx. pose proof (Prim2SF_valid y) as Vy.
  pose proof (unsigned_of_nonneg x) as Px. unfold unsigned_of in Px.
  destruct (Prim2SF y) as [sy|sy| |sy my ey]; try (intros; exact Px).
  destruct sy; [intros; exact Px|].
  destruct (Prim2SF x) as [sx|sx| |sx mx ex]; try discriminate.
  destruct sx; cbn [SFcompare]; [discriminate|].
  intros H _. apply integral_mono; [exact Vx | exact Vy|].
  destruct (ex ?= ey) eqn:Ec; try discriminate.
  - apply Z.compare_eq in Ec. right. split; [lia|].
    change (PosDef.Pos.compare_cont Eq mx my) with (Pos.compare mx my) in H.
    destruct (Pos.compare mx my) eqn:Em; try discriminate.
    + apply Pos.compare_eq in Em. subst. lia.
    + apply Pos.compare_gt_iff in Em. lia.
  - left. apply Z.compare_gt_iff in Ec. lia.
Qed.

Lemma not_nan (x : float) : is_nan x = false -> Prim2SF x <> S754_nan.
Proof.
  unfold is_nan. rewrite eqb_spec. intros H E. rewrite E in H. discriminate.
Qed.

Lemma finite_below (u x : float) :
  finite (Prim2SF u) = true ->
  PrimFloat.ltb u x = false -> PrimFloat.ltb x 0 = false -> is_nan x = false ->
  finite (Prim2SF x) = true.
Proof.
  rewrite !ltb_spec. intros Hu H1 H2 Hn. apply not_nan in Hn.
  change (Prim2SF 0) with (S754_zero false) in H2. unfold SFltb in *.
  destruct (Prim2SF x) as [sx|sx| |sx mx ex]; try reflexivity; [|congruence].
  destruct sx; [discriminate|].
  destruct (Prim2SF u) as [su|su| |su mu eu]; try discriminate.
Qed.

Lemma standard_limit_finite (L : limits) :
  standard_limits L -> finite (Prim2SF (double_of (UINT_MAX L))) = true.
Proof.
  intros (H1 & _ & H3). unfold unsigned_of in H3.
  destruct (Prim2SF (double_of (UINT_MAX L))) as [s|s| |s m e]; try reflexivity; lia.
Qed.

Lemma standard_limits_lp64 : standard_limits lp64_limits.
Proof. repeat split; vm_compute; congruence. Qed.

Lemma standard_limits_dos : standard_limits dos_limits.
Proof. repeat split; vm_compute; congruence. Qed.

Lemma limit_in_range (L : limits) (x : float) :
  standard_limits L -> PrimFloat.ltb (double_of (UINT_MAX L)) x = false ->
  0 <= unsigned_of x <= UINT_MAX L.
Proof.
  intros HL Hu. split; [apply unsigned_of_nonneg|].
  pose proof HL as (_ & _ & H3). rewrite <- H3.
  apply unsigned_of_le; [exact Hu | apply standard_limit_finite; exact HL].
Qed.

Lemma ncr_in_range (L : limits) (n r : float) :
  standard_limits L -> is_nan n = false ->
  PrimFloat.ltb n 0 = false -> PrimFloat.ltb n r = false ->
  PrimFloat.ltb (double_of (UINT_MAX L)) n = false ->
  0 <= unsigned_of r <= unsigned_of n /\ unsigned_of n <= UINT_MAX L.
Proof.
  intros HL Hn G1 G2 G3.
  pose proof (standard_limit_finite L HL) as HU.
  split; [split; [apply unsigned_of_nonneg|]|].
  - apply unsigned_of_le; [exact G2|].
    exact (finite_below _ _ HU G3 G1 Hn).
  - apply limit_in_range; assumption.
Qed.

Lemma ncr_closed_form (L : limits) (n r : float) :
  standard_limits L -> is_nan n = false ->
  ncr L n r = Some (ncr_value L n r).
Proof.
  intros HL Hn.
  pose proof HL as ((H1 & H1') & H2 & H3).
  unfold ncr, ncr_value.
  destruct (PrimFloat.ltb n 0) eqn:G1; [reflexivity|].
  destruct (PrimFloat.ltb r 0) eqn:G1'; [reflexivity|].
  destruct (PrimFloat.ltb n r) eqn:G2; [reflexivity|].
  destruct (PrimFloat.ltb (double_of (UINT_MAX L)) n) eqn:G3; [reflexivity|].
  destruct (PrimFloat.ltb (double_of (UINT_MAX L)) r) eqn:G3'; [reflexivity|].
  cbn [orb]. cbv zeta.
  destruct (ncr_in_range L n r HL Hn G1 G2 G3) as ((Hr0 & Hrn) & HnU).
  set (N := unsigned_of n) in *. set (R := unsigned_of r) in *.
  assert (Hhalf : 0 <= N / 2 <= N)
    by (split; [apply Z.div_pos | apply Z.div_le_upper_bound]; lia).
  assert (Hmin : (if R >? N / 2 then wrap L (N - R) else R) =
                 Z.of_nat (Nat.min (Z.to_nat R) (Z.to_nat N - Z.to_nat R))).
  { pose proof (Z.div_mod N 2 ltac:(lia)) as Hd.
    pose proof (Z.mod_pos_bound N 2 ltac:(lia)) as Hm.
    destruct (R >? N / 2) eqn:E.
    - apply Z.gtb_lt in E. rewrite wrap_small by lia. lia.
    - rewrite Z.gtb_ltb in E. apply Z.ltb_ge in E. lia. }
  rewrite Hmin. rewrite Nat2Z.id.
  set (k := Nat.min (Z.to_nat R) (Z.to_nat N - Z.to_nat R)) in *.
  assert (Hk : Z.of_nat k <= N / 2).
  { rewrite <- Hmin. pose proof (Z.div_mod N 2 ltac:(lia)) as Hd.
    pose proof (Z.mod_pos_bound N 2 ltac:(lia)) as Hm.
    destruct (R >? N / 2) eqn:E.
    - apply Z.gtb_lt in E. rewrite wrap_small by lia. lia.
    - rewrite Z.gtb_ltb in E. apply Z.ltb_ge in E. lia. }
  pose proof (ncr_loop_spec L (Z.to_nat N - k) k) as Hloop.
  replace (Z.to_nat N - k + k)%nat with (Z.to_nat N) in Hloop by lia.
  rewrite Z2Nat.id in Hloop by lia.
  specialize (Hloop ltac:(lia) ltac:(lia) k 0%nat ltac:(lia) ltac:(lia)).
  rewrite Nat.add_0_r, binomial_zero in Hloop.
  change (Z.of_nat 0 + 1) with 1 in Hloop.
  rewrite Hloop by (unfold ncr_product; lia).
  unfold ncr_product.
  replace (Z.to_nat N - k + k)%nat with (Z.to_nat N) by lia.
  replace (binomial (Z.to_nat N) k) with (binomial (Z.to_nat N) (Z.to_nat R));
    [reflexivity|].
  destruct (Nat.min_spec (Z.to_nat R) (Z.to_nat N - Z.to_nat R)) as [(_ & E) | (_ & E)];
    fold k in E; rewrite E; [reflexivity|].
  apply binomial_symmetric. lia.
Qed.

(** X15: [fac] returns NaN below zero and infinity above [UINT_MAX]; in
    between it converts a value in the range of [unsigned int] and returns
    the factorial of the integral part, exactly as computed in [unsigned
    long], when that factorial fits the type, and infinity when it does not:
    never a wrapped product. *)
Theorem fac_is_exact_or_infinite (L : limits) (a : float) :
  standard_limits L -> is_nan a = false ->
  fac L a = Some (fac_value L a) /\
  (PrimFloat.ltb a 0 = false ->
   PrimFloat.ltb (double_of (UINT_MAX L)) a = false ->
   0 <= unsigned_of a <= UINT_MAX L).
Proof.
  intros HL Hn. split.
  - destruct HL as (_ & HM & _).
    apply fac_closed_form; [lia | apply unsigned_of_nonneg].
  - intros _ Hu. apply limit_in_range; assumption.
Qed.

Lemma fac_is_exact_or_infinite_witness :
  fac lp64_limits 5 = Some (fac_value lp64_limits 5) /\
  (PrimFloat.ltb 5 0 = false ->
   PrimFloat.ltb (double_of (UINT_MAX lp64_limits)) 5 = false ->
   0 <= unsigned_of 5 <= UINT_MAX lp64_limits).
Proof.
  apply (fac_is_exact_or_infinite lp64_limits 5 standard_limits_lp64).
  reflexivity.
Defined.

(** [fac] on the two machines: 12! is the last factorial in 32 bits, 20! the
    last one in 64. *)
Example fac_on_machines :
  fac dos_limits 5 = Some 120%float /\
  fac dos_limits 12 = Some 479001600%float /\
  fac dos_limits 13 = Some INFINITY /\
  fac lp64_limits 20 = Some 2432902008176640000%float /\
  fac lp64_limits 21 = Some INFINITY /\
  fac lp64_limits 5.5 = Some 120%float /\
  fac lp64_limits (-1)%float = Some NAN.
Proof. repeat split; vm_compute; reflexivity. Qed.

(** X16: [ncr] returns NaN when an argument is negative or [n < r], and
    infinity when one is above [UINT_MAX]; otherwise it converts two values
    in the range of [unsigned int], with [r] at most [n], and returns the
    binomial coefficient of the integral parts, exactly as computed in
    [unsigned long], when the largest product the loop forms fits the type,
    and infinity when it does not: never a wrapped product. *)
Theorem ncr_is_exact_or_infinite (L : limits) (n r : float) :
  standard_limits L -> is_nan n = false -> is_nan r = false ->
  ncr L n r = Some (ncr_value L n r) /\
  (PrimFloat.ltb n 0 = false -> PrimFloat.ltb n r = false ->
   PrimFloat.ltb (double_of (UINT_MAX L)) n = false ->
   0 <= unsigned_of r <= unsigned_of n /\ unsigned_of n <= UINT_MAX L).
Proof.
  intros HL Hn Hr. split.
  - apply ncr_closed_form; assumption.
  - intros G1 G2 G3. apply ncr_in_range; assumption.
Qed.

Lemma ncr_is_exact_or_infinite_witness :
  ncr lp64_limits 52 5 = Some (ncr_value lp64_limits 52 5) /\
  (PrimFloat.ltb 52 0 = false -> PrimFloat.ltb 52 5 = false ->
   PrimFloat.ltb (double_of (UINT_MAX lp64_limits)) 52 = false ->
   0 <= unsigned_of 5 <= unsigned_of 52 /\ unsigned_of 52 <= UINT_MAX lp64_limits).
Proof.
  apply (ncr_is_exact_or_infinite lp64_limits 52 5 standard_limits_lp64);
    reflexivity.
Defined.

(** [ncr] on the two machines; C(34, 17) fits 32 bits and the last product
    of its loop does not. *)
Example ncr_on_machines :
  ncr lp64_limits 52 5 = Some 2598960%float /\
  ncr lp64_limits 52 47 = Some 2598960%float /\
  ncr lp64_limits 5 6 = Some NAN /\
  ncr lp64_limits 100 50 = Some INFINITY /\
  ncr dos_limits 34 17 = Some INFINITY /\
  ncr lp64_limits 34 17 = Some 2333606220%float /\
  ncr lp64_limits 0 0 = Some 1%float.
Proof. repeat split; vm_compute; reflexivity. Qed.

(** X17: [npr] is the product, in [double]s, of what [ncr] and [fac] return:
    of the binomial coefficient and of the factorial of [r] when neither
    overflows, and a NaN when [n < r] or an argument is negative. *)
Theorem npr_is_the_product (L : limits) (n r : float) :
  standard_limits L -> is_nan n = false -> is_nan r = false ->
  npr L n r = Some (mul (ncr_value L n r) (fac_value L r)) /\
  (PrimFloat.ltb n 0 || PrimFloat.ltb r 0 || PrimFloat.ltb n r = true ->
   exists v, npr L n r = Some v /\ is_nan v = true).
Proof.
  intros HL Hn Hr.
  pose proof (ncr_closed_form L n r HL Hn) as Hc.
  assert (Hf : fac L r = Some (fac_value L r)).
  { destruct HL as (_ & HM & _).
    apply fac_closed_form; [lia | apply unsigned_of_nonneg]. }
  assert (E : npr L n r = Some (mul (ncr_value L n r) (fac_value L r))).
  { unfold npr. rewrite Hc, Hf. reflexivity. }
  split; [exact E|].
  intros Hg. eexists; split; [exact E|].
  unfold ncr_value. rewrite Hg.
  unfold is_nan. rewrite eqb_spec, mul_spec. reflexivity.
Qed.

Lemma npr_is_the_product_witness :
  npr lp64_limits 5 2 =
  Some (mul (ncr_value lp64_limits 5 2) (fac_value lp64_limits 2)) /\
  (PrimFloat.ltb 5 0 || PrimFloat.ltb 2 0 || PrimFloat.ltb 5 2 = true ->
   exists v, npr lp64_limits 5 2 = Some v /\ is_nan v = true).
Proof.
  apply (npr_is_the_product lp64_limits 5 2 standard_limits_lp64); reflexivity.
Defined.

(** [npr] on a 64-bit machine. *)
Example npr_on_machines :
  npr lp64_limits 5 2 = Some 20%float /\
  npr lp64_limits 10 10 = Some 3628800%float /\
  npr lp64_limits 2 5 = Some NAN.
Proof. repeat split; vm_compute; reflexivity. Qed.

#[local] Close Scope Z_scope.
